(** * ImmuDB dashboard: the reader (Operations/Ops.py) and the statistics
      helper (app.py), embedded and verified.

    The development has three layers.
    - [Py]: the Python values and builtins the two source files call
      (bytes, str, dict with insertion order, range, slicing, startswith,
      endswith, the UTF-8 codec with its error handlers, base64, hex, sorted).
    - [Ops]: class ImmuDBReader of Operations/Ops.py.
    - [App]: get_transactions_stats of app.py.
    The facts about each layer and the properties of the specification follow
    the definitions. *)

From Stdlib Require Import String Ascii.
From Stdlib Require Import List NArith ZArith Bool Arith Lia.
From Stdlib Require Import Sorted Permutation.
From Stdlib.Strings Require Import Byte.
Import ListNotations.

Local Open Scope N_scope.

(* ================================================================== *)
(** * Python values and builtins *)
(* ================================================================== *)

Module Py.

(** ** bytes and str *)

(** A Python [bytes] object. *)
Definition bytes := list byte.

(** A Python [str] is a sequence of Unicode code points. *)
Definition codepoint := N.
Definition str := list codepoint.

Definition b2n (b : byte) : N := Byte.to_N b.

(** The byte with the given value (callers stay below 256). *)
Definition n2b (n : N) : byte :=
  match Byte.of_N n with
  | Some b => b
  | None => x00
  end.

(** A str literal with ASCII characters only. *)
Definition lit (s : string) : str := map N_of_ascii (list_ascii_of_string s).

(** A bytes literal. *)
Definition blit (s : string) : bytes :=
  map (fun a => n2b (N_of_ascii a)) (list_ascii_of_string s).

Fixpoint list_eqb {A} (eqb : A -> A -> bool) (l1 l2 : list A) : bool :=
  match l1, l2 with
  | [], [] => true
  | x :: l1', y :: l2' => eqb x y && list_eqb eqb l1' l2'
  | _, _ => false
  end.

Definition str_eqb : str -> str -> bool := list_eqb N.eqb.
Definition bytes_eqb : bytes -> bytes -> bool := list_eqb Byte.eqb.

(** [s.startswith(p)] on str. *)
Fixpoint startswith (s p : str) {struct p} : bool :=
  match p, s with
  | [], _ => true
  | _ :: _, [] => false
  | y :: p', x :: s' => N.eqb x y && startswith s' p'
  end.

(** [b.endswith(sfx)] on bytes: the last [len(sfx)] bytes of [b] are [sfx]. *)
Definition endswith (b sfx : bytes) : bool :=
  (length sfx <=? length b)%nat
  && bytes_eqb (skipn (length b - length sfx) b) sfx.

(** [range(a, b)]. *)
Definition range (a b : nat) : list nat := seq a (b - a).

(** [s[:i]] for [i >= 0]. *)
Definition slice_to {A} (s : list A) (i : nat) : list A := firstn i s.

(** ** Exceptions *)

Inductive exn : Set :=
| UnicodeDecodeError
| UnicodeEncodeError
| RpcError (msg : string).

(** The result of evaluating an expression that may raise. *)
Inductive outcome (A : Type) : Type :=
| Ok (a : A)
| Raise (e : exn).
Arguments Ok {A} a.
Arguments Raise {A} e.

Definition bind {A B} (o : outcome A) (k : A -> outcome B) : outcome B :=
  match o with
  | Ok a => k a
  | Raise e => Raise e
  end.

(** [try: o  except: h]. *)
Definition try_except {A} (o : outcome A) (h : exn -> outcome A) : outcome A :=
  match o with
  | Ok a => Ok a
  | Raise e => h e
  end.

(** A [for] loop whose body updates an object in place and may raise: the
    loop stops at the first exception, and the object keeps the updates of
    the iterations before it. *)
Fixpoint for_in {A S} (body : A -> S -> outcome S) (xs : list A) (s : S)
  : S * option exn :=
  match xs with
  | [] => (s, None)
  | x :: xs' =>
      match body x s with
      | Ok s' => for_in body xs' s'
      | Raise e => (s, Some e)
      end
  end.

(** ** dict: insertion-ordered, keys compared by value *)

Definition dict (V : Type) := list (str * V).

Fixpoint dict_get {V} (k : str) (d : dict V) : option V :=
  match d with
  | [] => None
  | (k', v) :: d' => if str_eqb k' k then Some v else dict_get k d'
  end.

(** [k in d]. *)
Definition dict_in {V} (k : str) (d : dict V) : bool :=
  match dict_get k d with
  | Some _ => true
  | None => false
  end.

(** [d[k] = v]: a present key keeps its position, a new key goes last. *)
Fixpoint dict_set {V} (k : str) (v : V) (d : dict V) : dict V :=
  match d with
  | [] => [(k, v)]
  | (k', v') :: d' =>
      if str_eqb k' k then (k', v) :: d' else (k', v') :: dict_set k v d'
  end.

Definition keys {V} (d : dict V) : list str := map fst d.
Definition values {V} (d : dict V) : list V := map snd d.
Definition items {V} (d : dict V) : list (str * V) := d.

(** ** The UTF-8 codec *)

Inductive errors : Set := strict | replace.

Definition REPLACEMENT : codepoint := 0xFFFD.

Definition in_range (lo hi : N) (b : byte) : bool :=
  (lo <=? b2n b) && (b2n b <=? hi).

Definition is_continuation (b : byte) : bool := in_range 0x80 0xBF b.

(** Length of the sequence a lead byte announces; 0 for a byte that cannot
    start a sequence (0x80..0xC1 and 0xF5..0xFF). *)
Definition utf8_width (b0 : byte) : nat :=
  if b2n b0 <? 0x80 then 1
  else if b2n b0 <? 0xC2 then 0
  else if b2n b0 <? 0xE0 then 2
  else if b2n b0 <? 0xF0 then 3
  else if b2n b0 <? 0xF5 then 4
  else 0.

(** The second byte of a sequence: a continuation byte, in the narrower
    range that excludes overlong forms, surrogates and code points above
    0x10FFFF after the leads 0xE0, 0xED, 0xF0 and 0xF4. *)
Definition second_ok (b0 b1 : byte) : bool :=
  if b2n b0 =? 0xE0 then in_range 0xA0 0xBF b1
  else if b2n b0 =? 0xED then in_range 0x80 0x9F b1
  else if b2n b0 =? 0xF0 then in_range 0x90 0xBF b1
  else if b2n b0 =? 0xF4 then in_range 0x80 0x8F b1
  else is_continuation b1.

Definition low6 (b : byte) : N := N.land (b2n b) 0x3F.

Definition cp2 (b0 b1 : byte) : codepoint :=
  N.lor (N.shiftl (N.land (b2n b0) 0x1F) 6) (low6 b1).

Definition cp3 (b0 b1 b2 : byte) : codepoint :=
  N.lor (N.shiftl (N.land (b2n b0) 0x0F) 12)
        (N.lor (N.shiftl (low6 b1) 6) (low6 b2)).

Definition cp4 (b0 b1 b2 b3 : byte) : codepoint :=
  N.lor (N.shiftl (N.land (b2n b0) 0x07) 18)
        (N.lor (N.shiftl (low6 b1) 12)
               (N.lor (N.shiftl (low6 b2) 6) (low6 b3))).

Definition emit (c : codepoint) (tail : outcome str) : outcome str :=
  bind tail (fun s => Ok (c :: s)).

(** What the error handler does with an ill-formed subsequence: [strict]
    raises, [replace] puts one U+FFFD in its place and resumes after it. *)
Definition on_error (mode : errors) (resume : outcome str) : outcome str :=
  match mode with
  | strict => Raise UnicodeDecodeError
  | replace => emit REPLACEMENT resume
  end.

(** [b.decode('utf-8', errors=mode)].  An ill-formed subsequence is the
    lead byte alone when the second byte is absent from the allowed range,
    and otherwise the longest run of bytes that starts a well-formed
    sequence; a sequence cut short by the end of input is one subsequence. *)
Fixpoint decode (mode : errors) (b : bytes) : outcome str :=
  match b with
  | [] => Ok []
  | b0 :: r0 =>
      match utf8_width b0 with
      | 1%nat => emit (b2n b0) (decode mode r0)
      | 2%nat =>
          match r0 with
          | b1 :: r1 =>
              if second_ok b0 b1 then emit (cp2 b0 b1) (decode mode r1)
              else on_error mode (decode mode r0)
          | [] => on_error mode (decode mode r0)
          end
      | 3%nat =>
          match r0 with
          | b1 :: r1 =>
              if second_ok b0 b1 then
                match r1 with
                | b2 :: r2 =>
                    if is_continuation b2
                    then emit (cp3 b0 b1 b2) (decode mode r2)
                    else on_error mode (decode mode r1)
                | [] => on_error mode (decode mode r1)
                end
              else on_error mode (decode mode r0)
          | [] => on_error mode (decode mode r0)
          end
      | 4%nat =>
          match r0 with
          | b1 :: r1 =>
              if second_ok b0 b1 then
                match r1 with
                | b2 :: r2 =>
                    if is_continuation b2 then
                      match r2 with
                      | b3 :: r3 =>
                          if is_continuation b3
                          then emit (cp4 b0 b1 b2 b3) (decode mode r3)
                          else on_error mode (decode mode r2)
                      | [] => on_error mode (decode mode r2)
                      end
                    else on_error mode (decode mode r1)
                | [] => on_error mode (decode mode r1)
                end
              else on_error mode (decode mode r0)
          | [] => on_error mode (decode mode r0)
          end
      | _ => on_error mode (decode mode r0)
      end
  end.

Definition is_surrogate (c : codepoint) : bool := (0xD800 <=? c) && (c <=? 0xDFFF).

Definition cont6 (c : N) (shift : N) : byte :=
  n2b (N.lor 0x80 (N.land (N.shiftr c shift) 0x3F)).

(** The UTF-8 form of one code point; a surrogate has none.  A str holds
    no code point above 0x10FFFF, so the last case is never reached. *)
Definition encode_codepoint (c : codepoint) : outcome bytes :=
  if c <? 0x80 then Ok [n2b c]
  else if c <? 0x800 then Ok [n2b (N.lor 0xC0 (N.shiftr c 6)); cont6 c 0]
  else if is_surrogate c then Raise UnicodeEncodeError
  else if c <? 0x10000 then
    Ok [n2b (N.lor 0xE0 (N.shiftr c 12)); cont6 c 6; cont6 c 0]
  else if c <=? 0x10FFFF then
    Ok [n2b (N.lor 0xF0 (N.shiftr c 18)); cont6 c 12; cont6 c 6; cont6 c 0]
  else Raise UnicodeEncodeError.

(** [s.encode('utf-8')]. *)
Fixpoint encode (s : str) : outcome bytes :=
  match s with
  | [] => Ok []
  | c :: s' =>
      bind (encode_codepoint c) (fun bc =>
      bind (encode s') (fun bs => Ok (bc ++ bs)))
  end.

(** ** base64 and hex *)

(** The character of the standard base64 alphabet for a 6-bit value. *)
Definition b64char (n : N) : byte :=
  if n <? 26 then n2b (65 + n)
  else if n <? 52 then n2b (97 + (n - 26))
  else if n <? 62 then n2b (48 + (n - 52))
  else if n =? 62 then n2b 43
  else n2b 47.

Definition b64pad : byte := n2b 61.

(** [base64.b64encode(b)]: three bytes give four characters; a last group
    of one or two bytes is padded with [=]. *)
Fixpoint b64encode (b : bytes) : bytes :=
  match b with
  | [] => []
  | [x] =>
      [b64char (N.shiftr (b2n x) 2);
       b64char (N.shiftl (N.land (b2n x) 3) 4);
       b64pad; b64pad]
  | [x; y] =>
      [b64char (N.shiftr (b2n x) 2);
       b64char (N.lor (N.shiftl (N.land (b2n x) 3) 4) (N.shiftr (b2n y) 4));
       b64char (N.shiftl (N.land (b2n y) 15) 2);
       b64pad]
  | x :: y :: z :: rest =>
      b64char (N.shiftr (b2n x) 2)
      :: b64char (N.lor (N.shiftl (N.land (b2n x) 3) 4) (N.shiftr (b2n y) 4))
      :: b64char (N.lor (N.shiftl (N.land (b2n y) 15) 2) (N.shiftr (b2n z) 6))
      :: b64char (N.land (b2n z) 63)
      :: b64encode rest
  end.

(** The 6-bit value of a base64 character; [None] outside the alphabet. *)
Definition b64value (c : codepoint) : option N :=
  if (65 <=? c) && (c <=? 90) then Some (c - 65)
  else if (97 <=? c) && (c <=? 122) then Some (c - 97 + 26)
  else if (48 <=? c) && (c <=? 57) then Some (c - 48 + 52)
  else if c =? 43 then Some 62
  else if c =? 47 then Some 63
  else None.

(** [base64.b64decode(s, validate=True)] on a str: [None] where Python
    raises (a character outside the alphabet, a length that is no multiple
    of four, misplaced padding). *)
Fixpoint b64decode (s : str) : option bytes :=
  match s with
  | [] => Some []
  | c0 :: c1 :: c2 :: c3 :: rest =>
      match b64value c0, b64value c1 with
      | Some v0, Some v1 =>
          let x := n2b (N.lor (N.shiftl v0 2) (N.shiftr v1 4)) in
          match b64value c2, b64value c3, rest with
          | Some v2, Some v3, _ =>
              let y := n2b (N.lor (N.shiftl (N.land v1 15) 4) (N.shiftr v2 2)) in
              let z := n2b (N.lor (N.shiftl (N.land v2 3) 6) v3) in
              option_map (fun t => x :: y :: z :: t) (b64decode rest)
          | Some v2, None, [] =>
              if c3 =? 61
              then Some [x; n2b (N.lor (N.shiftl (N.land v1 15) 4) (N.shiftr v2 2))]
              else None
          | None, None, [] =>
              if (c2 =? 61) && (c3 =? 61) then Some [x] else None
          | _, _, _ => None
          end
      | _, _ => None
      end
  | _ => None
  end.

Definition hexdigit (n : N) : codepoint :=
  if n <? 10 then 48 + n else 87 + n.

(** [b.hex()]: two lowercase hexadecimal digits per byte. *)
Definition hex (b : bytes) : str :=
  flat_map (fun x => [hexdigit (N.shiftr (b2n x) 4); hexdigit (N.land (b2n x) 15)]) b.

(** ** sorted *)

(** Insertion of [x], which stood before every element of [l], into the
    ascending list [l]: [x] passes the elements that are smaller and stops
    before the first that is not, so equal keys keep their order.  Only
    [<] on the keys is used, as in list.sort. *)
Fixpoint insert_by {A} (key : A -> nat) (x : A) (l : list A) : list A :=
  match l with
  | [] => [x]
  | y :: l' =>
      if (key y <? key x)%nat then y :: insert_by key x l' else x :: y :: l'
  end.

(** The stable ascending sort. *)
Fixpoint sort_by {A} (key : A -> nat) (l : list A) : list A :=
  match l with
  | [] => []
  | x :: l' => insert_by key x (sort_by key l')
  end.

(** [sorted(l, key=key, reverse=reverse)].  With [reverse] the list is
    reversed, sorted with the stable ascending sort and reversed again,
    which keeps the original order of elements with equal keys. *)
Definition sorted {A} (l : list A) (key : A -> nat) (reverse : bool) : list A :=
  if reverse then rev (sort_by key (rev l)) else sort_by key l.

End Py.

(* ================================================================== *)
(** * Operations/Ops.py: class ImmuDBReader *)
(* ================================================================== *)

Module Ops.
Import Py.

(** ** The client library, as the reader sees it *)

(** One element of what [client.scan] returns, by the shape the loops of
    the reader test for. *)
Inductive entry : Type :=
| EntryTuple (key_bytes value_bytes : bytes)   (* a tuple of length 2 *)
| EntryObject (key value : bytes)              (* has attributes key and value *)
| EntryBytes (key_bytes : bytes)               (* a bare key *)
| EntryOther.                                  (* none of these *)

(** What [client.get] returns: an object that may have an attribute
    [value] and may have an attribute [payload]. *)
Record response : Type := {
  resp_value : option bytes;
  resp_payload : option bytes
}.

(** What [client.currentState] returns. *)
Record state : Type := {
  state_txId : Z;
  state_txHash : bytes
}.

(** An established session.  Every call may raise. *)
Record ImmudbClient : Type := {
  scan : bytes -> bytes -> Z -> bool -> outcome (list entry);
      (* scan(key, prefix, limit, desc) *)
  get : bytes -> outcome response;
  currentState : outcome state
}.

Record ImmuDBReader : Type := {
  url : str;
  db_name : str;
  client : option ImmudbClient
}.

(** A TransactionSet: decoded key to decoded value. *)
Definition TransactionSet := dict str.

(** The dict [get_merkle_root] returns, by its two keys. *)
Record StateSummary : Type := {
  txId : option Z;
  merkleRoot : option str
}.

Section Reader.

(** [connect] (lines 20-41): parsing the URL, logging in and selecting the
    database are the client library's business; the methods below see only
    the session it establishes or the exception it re-raises. *)
Variable connect : ImmuDBReader -> outcome ImmudbClient.

(** [if not self.client: self.connect()], then [self.client]. *)
Definition ensure_client (self : ImmuDBReader) : outcome ImmudbClient :=
  match client self with
  | Some c => Ok c
  | None => connect self
  end.

(** Lines 69-74 (and 104, 108-111; 143-147): key and value to text. *)
Definition decode_key (key_bytes : bytes) : outcome str :=
  decode replace key_bytes.

Definition decode_value (value_bytes : bytes) : outcome str :=
  try_except (decode replace value_bytes)
             (fun _ => decode strict (b64encode value_bytes)).

(** Lines 52-67: the entry as a pair of bytes; [None] is [continue]. *)
Definition normalize_all (c : ImmudbClient) (e : entry)
  : outcome (option (bytes * bytes)) :=
  match e with
  | EntryTuple key_bytes value_bytes => Ok (Some (key_bytes, value_bytes))
  | EntryObject key value => Ok (Some (key, value))
  | EntryBytes key_bytes =>
      bind (get c key_bytes) (fun resp =>
      match resp_value resp with
      | Some v => Ok (Some (key_bytes, v))
      | None =>
          match resp_payload resp with
          | Some p => Ok (Some (key_bytes, p))
          | None => Ok (Some (key_bytes, []))
          end
      end)
  | EntryOther => Ok None
  end.

(** [getattr(o, name, default)] on an attribute that may be absent. *)
Definition getattr {A} (attr : option A) (default : A) : A :=
  match attr with
  | Some a => a
  | None => default
  end.

(** Lines 93-102 and 129-138: the same, with nested [getattr]. *)
Definition normalize (c : ImmudbClient) (e : entry)
  : outcome (option (bytes * bytes)) :=
  match e with
  | EntryTuple key_bytes value_bytes => Ok (Some (key_bytes, value_bytes))
  | EntryObject key value => Ok (Some (key, value))
  | EntryBytes key_bytes =>
      bind (get c key_bytes) (fun resp =>
      Ok (Some (key_bytes,
                getattr (resp_value resp) (getattr (resp_payload resp) []))))
  | EntryOther => Ok None
  end.

(** One iteration of the loop of [get_all_transactions] (lines 50-75). *)
Definition all_body (c : ImmudbClient) (e : entry) (result : TransactionSet)
  : outcome TransactionSet :=
  bind (normalize_all c e) (fun kv =>
  match kv with
  | None => Ok result
  | Some (key_bytes, value_bytes) =>
      bind (decode_key key_bytes) (fun key_str =>
      bind (decode_value value_bytes) (fun value_str =>
      Ok (dict_set key_str value_str result)))
  end).

(** Lines 42-80.  The exception of a failed scan or of an iteration is
    printed and [result], as it stands, is returned. *)
Definition get_all_transactions (self : ImmuDBReader) : outcome TransactionSet :=
  bind (ensure_client self) (fun c =>
  match scan c [] [] 0%Z false with
  | Ok entries => Ok (fst (for_in (all_body c) entries []))
  | Raise _ => Ok []
  end).

(** One iteration of the loop of [get_by_prefix] (lines 91-112). *)
Definition prefix_body (c : ImmudbClient) (prefix : str)
           (e : entry) (result : TransactionSet) : outcome TransactionSet :=
  bind (normalize c e) (fun kv =>
  match kv with
  | None => Ok result
  | Some (key_bytes, value_bytes) =>
      bind (decode_key key_bytes) (fun key_str =>
      if negb (startswith key_str prefix) then Ok result
      else
        bind (decode_value value_bytes) (fun value_str =>
        Ok (dict_set key_str value_str result)))
  end).

(** Lines 82-117.  [prefix.encode] stands before the [try]. *)
Definition get_by_prefix (self : ImmuDBReader) (prefix : str)
  : outcome TransactionSet :=
  bind (ensure_client self) (fun c =>
  bind (encode prefix) (fun pfx =>
  match scan c [] pfx 0%Z false with
  | Ok entries => Ok (fst (for_in (prefix_body c prefix) entries []))
  | Raise _ => Ok []
  end)).

(** One iteration of the loop of [get_by_suffix] (lines 128-148). *)
Definition suffix_body (c : ImmudbClient) (sfx : bytes)
           (e : entry) (result : TransactionSet) : outcome TransactionSet :=
  bind (normalize c e) (fun kv =>
  match kv with
  | None => Ok result
  | Some (key_bytes, value_bytes) =>
      if negb (endswith key_bytes sfx) then Ok result
      else
        bind (decode_key key_bytes) (fun key_str =>
        bind (decode_value value_bytes) (fun value_str =>
        Ok (dict_set key_str value_str result)))
  end).

(** Lines 119-153. *)
Definition get_by_suffix (self : ImmuDBReader) (suffix : str)
  : outcome TransactionSet :=
  bind (ensure_client self) (fun c =>
  bind (encode suffix) (fun sfx =>
  match scan c [] [] 0%Z false with
  | Ok entries => Ok (fst (for_in (suffix_body c sfx) entries []))
  | Raise _ => Ok []
  end)).

(** Lines 155-168. *)
Definition get_merkle_root (self : ImmuDBReader) : outcome StateSummary :=
  bind (ensure_client self) (fun c =>
  try_except
    (bind (currentState c) (fun st =>
     Ok {| txId := Some (state_txId st);
           merkleRoot := Some (hex (state_txHash st)) |}))
    (fun _ => Ok {| txId := None; merkleRoot := None |})).

End Reader.

End Ops.

(* ================================================================== *)
(** * app.py: get_transactions_stats *)
(* ================================================================== *)

Module App.
Import Py.

(** The dict under ["largest_value"]. *)
Record largest : Type := {
  lv_key : str;
  lv_size : nat
}.

(** The dict [get_transactions_stats] returns.  An average is kept as the
    pair (sum, number of terms) whose quotient Python rounds to a float;
    (0, 0) stands for the literal 0 of the empty case. *)
Record Statistics : Type := {
  count : nat;
  avg_key_length : nat * nat;
  avg_value_length : nat * nat;
  largest_value : largest;
  common_prefixes : list (str * nat)
}.

(** Lines 68-72: one candidate prefix is counted. *)
Definition count_prefix (prefixes : dict nat) (prefix : str) : dict nat :=
  if dict_in prefix prefixes then
    match dict_get prefix prefixes with
    | Some n => dict_set prefix (n + 1)%nat prefixes
    | None => prefixes
    end
  else dict_set prefix 1%nat prefixes.

(** Lines 67-72: the inner loop, over [range(1, min(5, len(key)))]. *)
Definition count_key (prefixes : dict nat) (key : str) : dict nat :=
  fold_left (fun d i => count_prefix d (slice_to key i))
            (range 1 (Nat.min 5 (length key))) prefixes.

(** Lines 65-72: the outer loop, over the keys in dict order. *)
Definition find_prefixes (transactions : dict str) : dict nat :=
  fold_left count_key (keys transactions) [].

(** Line 75. *)
Definition top_prefixes (prefixes : dict nat) : list (str * nat) :=
  slice_to (sorted (items prefixes) snd true) 5.

(** Lines 80-82: one iteration of the search for the largest value. *)
Definition larger (largest_value : largest) (kv : str * str) : largest :=
  let value_size := length (snd kv) in
  if (lv_size largest_value <? value_size)%nat
  then {| lv_key := fst kv; lv_size := value_size |}
  else largest_value.

(** Lines 78-82. *)
Definition find_largest (transactions : dict str) : largest :=
  fold_left larger (items transactions) {| lv_key := []; lv_size := 0 |}.

Definition sum (l : list nat) : nat := fold_left Nat.add l 0%nat.

(** Lines 49-90. *)
Definition get_transactions_stats (transactions : dict str) : Statistics :=
  match transactions with
  | [] =>
      {| count := 0;
         avg_key_length := (0, 0)%nat;
         avg_value_length := (0, 0)%nat;
         largest_value := {| lv_key := []; lv_size := 0 |};
         common_prefixes := [] |}
  | _ :: _ =>
      let key_lengths := map (@length codepoint) (keys transactions) in
      let value_lengths := map (@length codepoint) (values transactions) in
      {| count := length transactions;
         avg_key_length := (sum key_lengths, length key_lengths);
         avg_value_length := (sum value_lengths, length value_lengths);
         largest_value := find_largest transactions;
         common_prefixes := top_prefixes (find_prefixes transactions) |}
  end.

(** The candidate prefixes of one key, in the order the inner loop visits
    them. *)
Definition candidates (key : str) : list str :=
  map (slice_to key) (range 1 (Nat.min 5 (length key))).

End App.

(* ================================================================== *)
(** * Vocabulary of the properties *)
(* ================================================================== *)

Module View.
Import Py Ops.

(** The text [b.decode('utf-8', errors='replace')] evaluates to
    ([decode replace] never raises, see [PyFacts.decode_replace_text]). *)
Definition text (b : bytes) : str :=
  match decode replace b with
  | Ok s => s
  | Raise _ => []
  end.

(** Both sides of a normalized entry as text. *)
Definition decoded (kv : bytes * bytes) : str * str :=
  (text (fst kv), text (snd kv)).

(** The normalized entries a loop of the reader gets to see: unrecognized
    shapes are passed over, and the list ends where a point lookup raises. *)
Fixpoint normalized (c : ImmudbClient) (entries : list entry)
  : list (bytes * bytes) :=
  match entries with
  | [] => []
  | e :: entries' =>
      match normalize c e with
      | Ok (Some kv) => kv :: normalized c entries'
      | Ok None => normalized c entries'
      | Raise _ => []
      end
  end.

(** What [client.scan(key=b'', prefix=pfx, limit=0, desc=False)] hands to
    the loop: its entries, or nothing when the call raises. *)
Definition scanned (c : ImmudbClient) (pfx : bytes) : list entry :=
  match scan c [] pfx 0%Z false with
  | Ok entries => entries
  | Raise _ => []
  end.

(** No point lookup the loop would make over [entries] raises. *)
Definition lookups_succeed (c : ImmudbClient) (entries : list entry) : Prop :=
  forall k, In (EntryBytes k) entries -> exists resp, get c k = Ok resp.

(** The dict that results from the assignments [result[k] = v], in order. *)
Definition assign {V} (kvs : list (str * V)) (d : dict V) : dict V :=
  fold_left (fun d kv => dict_set (fst kv) (snd kv) d) kvs d.

(** Pairs with the same key agree on the value. *)
Definition functional {V} (kvs : list (str * V)) : Prop :=
  forall k v1 v2, In (k, v1) kvs -> In (k, v2) kvs -> v1 = v2.

(** [m1] is a sub-mapping of [m2]. *)
Definition submap {V} (m1 m2 : dict V) : Prop :=
  forall k v, dict_get k m1 = Some v -> dict_get k m2 = Some v.

(** [x] stands before [y] in [l]. *)
Definition before {A} (x y : A) (l : list A) : Prop :=
  exists l1 l2 l3, l = l1 ++ x :: l2 ++ y :: l3.

(** Orders on the elements of a list by a numeric key. *)
Definition ascending {A} (key : A -> nat) : A -> A -> Prop :=
  fun a b => (key a <= key b)%nat.
Definition descending {A} (key : A -> nat) : A -> A -> Prop :=
  fun a b => (key b <= key a)%nat.

(** Position of the first occurrence of [x] in [l] ([length l] if none). *)
Fixpoint first_seen (x : str) (l : list str) : nat :=
  match l with
  | [] => 0
  | y :: l' => if str_eqb y x then 0 else S (first_seen x l')
  end.

(** The candidate prefixes of all keys, in the order the two loops of the
    aggregator visit them. *)
Definition discovery (transactions : dict str) : list str :=
  flat_map App.candidates (keys transactions).

(** Number of occurrences of [x] in [l]. *)
Fixpoint occurrences (x : str) (l : list str) : nat :=
  match l with
  | [] => 0
  | y :: l' => (if str_eqb y x then 1 else 0) + occurrences x l'
  end.

(** The elements of [l] without repetition, each at its first
    occurrence. *)
Fixpoint distinct (l : list str) : list str :=
  match l with
  | [] => []
  | x :: l' => x :: filter (fun y => negb (str_eqb x y)) (distinct l')
  end.

(** The greatest value length of a TransactionSet (0 when empty). *)
Definition max_value_len (transactions : dict str) : nat :=
  fold_right Nat.max 0%nat (map (fun kv => length (snd kv)) transactions).

(** The value policy of the specification's data model: text when the bytes
    are valid UTF-8, base64 otherwise.  It is compared with
    [Ops.decode_value], which the reader runs. *)
Definition spec_decode_value (value_bytes : bytes) : outcome str :=
  try_except (decode strict value_bytes)
             (fun _ => decode strict (b64encode value_bytes)).

End View.

(* ================================================================== *)
(** * Sample stores *)
(* ================================================================== *)

Module Samples.
Import Py Ops.

(** No server answers. *)
Definition unreachable (_ : ImmuDBReader) : outcome ImmudbClient :=
  Raise (RpcError "connection refused").

Definition reader_of (c : ImmudbClient) : ImmuDBReader :=
  {| url := lit "localhost:3322"; db_name := lit "defaultdb"; client := Some c |}.

Definition bytes_startswith (b pfx : bytes) : bool :=
  bytes_eqb (firstn (length pfx) b) pfx.

(** A store of bare keys with their values, in key order: [scan] yields
    the keys that start with the requested prefix, [get] the value. *)
Definition store_of (kvs : list (bytes * bytes)) : ImmudbClient :=
  {| scan := fun _ pfx _ _ =>
       Ok (map (fun kv => EntryBytes (fst kv))
               (filter (fun kv => bytes_startswith (fst kv) pfx) kvs));
     get := fun k =>
       match find (fun kv => bytes_eqb (fst kv) k) kvs with
       | Some kv => Ok {| resp_value := Some (snd kv); resp_payload := None |}
       | None => Raise (RpcError "key not found")
       end;
     currentState := Ok {| state_txId := Z.of_nat (length kvs); state_txHash := [] |} |}.

(** Two raw keys that decode to the same text: the encoding of U+FFFD and
    the byte 0xFF, which is replaced by U+FFFD. *)
Definition colliding : ImmudbClient :=
  store_of [([xef; xbf; xbd], blit "1"); ([xff], blit "2")].

(** Three keys with text values. *)
Definition ledger : ImmudbClient :=
  store_of [(blit "block:1", blit "abc"); (blit "block:22", blit "abcdef");
            (blit "log:9", blit "x")].

(** One key whose value is not valid UTF-8. *)
Definition binary_value : ImmudbClient :=
  store_of [(blit "k", [xff])].

(** The first entry is a bare key whose lookup raises; a well-formed pair
    follows it. *)
Definition faulty_lookup : ImmudbClient :=
  {| scan := fun _ _ _ _ =>
       Ok [EntryBytes (blit "k1"); EntryTuple (blit "k2") (blit "v2")];
     get := fun _ => Raise (RpcError "deadline exceeded");
     currentState := Ok {| state_txId := 2; state_txHash := [] |} |}.

(** Every call raises. *)
Definition broken : ImmudbClient :=
  {| scan := fun _ _ _ _ => Raise (RpcError "unavailable");
     get := fun _ => Raise (RpcError "unavailable");
     currentState := Raise (RpcError "unavailable") |}.

(** The example TransactionSet of the specification. *)
Definition blocks : dict str :=
  [(lit "block:1", lit "abc"); (lit "block:22", lit "abcdef"); (lit "log:9", lit "x")].

(** Six keys of two characters: six prefixes, each generated once. *)
Definition pairs : dict str :=
  [(lit "ab", lit "1"); (lit "cd", lit "2"); (lit "ef", lit "3");
   (lit "gh", lit "4"); (lit "ij", lit "5"); (lit "kl", lit "6")].

End Samples.

(* ================================================================== *)
(** * More sample data *)
(* ================================================================== *)

Module MoreSamples.
Import Py Ops.

(** A session whose state query answers transaction 7 with a three-byte
    hash. *)
Definition stamped : ImmudbClient :=
  {| scan := fun _ _ _ _ => Ok [];
     get := fun _ => Raise (RpcError "key not found");
     currentState := Ok {| state_txId := 7; state_txHash := [x00; xff; x1a] |} |}.

End MoreSamples.

(* ================================================================== *)
(** * More Python builtins: searching, splitting, formatting, JSON *)
(* ================================================================== *)

Module PyText.
Import Py.

(** Exceptions of the builtins below.  [Py.exn] names the two exceptions
    of the codec; every other exception is carried by its class name. *)
Definition ValueError : exn := RpcError "ValueError".
Definition IndexError : exn := RpcError "IndexError".

(** [sep in s]. *)
Fixpoint contains (s sep : str) : bool :=
  startswith s sep
  || match s with
     | [] => false
     | _ :: s' => contains s' sep
     end.

(** The scan of [s.split(sep)]: [piece] holds, reversed, the characters of
    the piece under way; [skip] counts the characters of a separator just
    found that are still to be passed. *)
Fixpoint split_scan (sep s : str) (skip : nat) (piece : str) : list str :=
  match s with
  | [] => [rev piece]
  | ch :: s' =>
      match skip with
      | S k => split_scan sep s' k piece
      | O =>
          if startswith s sep
          then rev piece :: split_scan sep s' (length sep - 1) []
          else split_scan sep s' 0 (ch :: piece)
      end
  end.

(** [s.split(sep)]: the pieces between the occurrences of [sep], found
    from the left without overlap; an empty separator is refused. *)
Definition split (s sep : str) : outcome (list str) :=
  match sep with
  | [] => Raise ValueError
  | _ :: _ => Ok (split_scan sep s 0 [])
  end.

(** [l[i]]. *)
Definition getitem {A} (l : list A) (i : nat) : outcome A :=
  match nth_error l i with
  | Some x => Ok x
  | None => Raise IndexError
  end.

(** [a, b = l]. *)
Definition unpack2 {A} (l : list A) : outcome (A * A) :=
  match l with
  | [a; b] => Ok (a, b)
  | _ => Raise ValueError
  end.

Fixpoint digits (u : Decimal.uint) : str :=
  match u with
  | Decimal.Nil => []
  | Decimal.D0 u' => 48 :: digits u'
  | Decimal.D1 u' => 49 :: digits u'
  | Decimal.D2 u' => 50 :: digits u'
  | Decimal.D3 u' => 51 :: digits u'
  | Decimal.D4 u' => 52 :: digits u'
  | Decimal.D5 u' => 53 :: digits u'
  | Decimal.D6 u' => 54 :: digits u'
  | Decimal.D7 u' => 55 :: digits u'
  | Decimal.D8 u' => 56 :: digits u'
  | Decimal.D9 u' => 57 :: digits u'
  end.

(** [str(n)] for an int, also what an f-string puts for [{n}]. *)
Definition str_of_int (n : Z) : str :=
  match Z.to_int n with
  | Decimal.Pos u => digits u
  | Decimal.Neg u => 45 :: digits u
  end.

(** A value is true in a condition: [None] and the empty str are not. *)
Definition truthy (s : option str) : bool :=
  match s with
  | Some (_ :: _) => true
  | _ => false
  end.

(** An argument that was given. *)
Definition given (s : option str) : str :=
  match s with
  | Some x => x
  | None => []
  end.

(** ** json.dumps with its defaults *)

(** Four hexadecimal digits, as in a [\uXXXX] escape. *)
Definition hex4 (n : N) : str :=
  [hexdigit (N.land (N.shiftr n 12) 15); hexdigit (N.land (N.shiftr n 8) 15);
   hexdigit (N.land (N.shiftr n 4) 15); hexdigit (N.land n 15)].

(** One character inside a JSON string, with [ensure_ascii]: printable
    ASCII stays, but for the quote and the backslash; the short escapes;
    [\uXXXX] otherwise, a surrogate pair above U+FFFF. *)
Definition json_char (ch : codepoint) : str :=
  if (32 <=? ch) && (ch <=? 126) && negb (ch =? 92) && negb (ch =? 34) then [ch]
  else if ch =? 92 then [92; 92]
  else if ch =? 34 then [92; 34]
  else if ch =? 8 then [92; 98]
  else if ch =? 12 then [92; 102]
  else if ch =? 10 then [92; 110]
  else if ch =? 13 then [92; 114]
  else if ch =? 9 then [92; 116]
  else if 0x10000 <=? ch then
    [92; 117] ++ hex4 (0xD800 - 0x40 + N.shiftr ch 10)
    ++ [92; 117] ++ hex4 (0xDC00 + N.land ch 0x3FF)
  else [92; 117] ++ hex4 ch.

(** A str as a JSON string. *)
Definition json_string (s : str) : str :=
  [34] ++ flat_map json_char s ++ [34].

(** Pieces joined by [", "]. *)
Fixpoint join_items (l : list str) : str :=
  match l with
  | [] => []
  | [x] => x
  | x :: l' => x ++ [44; 32] ++ join_items l'
  end.

(** [json.dumps(d)] for a dict of str to str. *)
Definition json_dumps (d : dict str) : str :=
  [123]
  ++ join_items (map (fun kv => json_string (fst kv) ++ [58; 32] ++ json_string (snd kv))
                     (items d))
  ++ [125].

(** [json.dumps] of an optional int and of an optional str. *)
Definition json_int (n : option Z) : str :=
  match n with
  | Some z => str_of_int z
  | None => lit "null"
  end.

Definition json_optional_string (s : option str) : str :=
  match s with
  | Some x => json_string x
  | None => lit "null"
  end.

(** A printable ASCII character. *)
Definition printable (ch : codepoint) : Prop := 32 <= ch <= 126.

End PyText.

(* ================================================================== *)
(** * Operations/Ops.py: connect and the module-level helpers *)
(* ================================================================== *)

Module OpsHelpers.
Import Py PyText Ops.

(** The client library, as [connect] uses it.  A method call changes the
    object; it may raise after it did. *)
Record library : Type := {
  ImmudbClient_new : str -> outcome ImmudbClient;
      (* ImmudbClient(address) *)
  login : ImmudbClient -> str -> str -> ImmudbClient * option exn;
      (* client.login(username, password): the object afterwards *)
  useDatabase : ImmudbClient -> str -> ImmudbClient * option exn
      (* client.useDatabase(db_name): the object afterwards *)
}.

Section Connection.

(** [int(s)] on a str. *)
Variable int : str -> outcome Z.
Variable lib : library.

Definition with_url (self : ImmuDBReader) (u : str) : ImmuDBReader :=
  {| url := u; db_name := db_name self; client := client self |}.

Definition with_client (self : ImmuDBReader) (c : ImmudbClient) : ImmuDBReader :=
  {| url := url self; db_name := db_name self; client := Some c |}.

(** Lines 24-25: the part after the scheme. *)
Definition strip_scheme (self : ImmuDBReader) : ImmuDBReader * outcome unit :=
  if contains (url self) (lit "://") then
    match bind (split (url self) (lit "://")) (fun pieces => getitem pieces 1) with
    | Ok u => (with_url self u, Ok tt)
    | Raise e => (self, Raise e)
    end
  else (self, Ok tt).

(** Lines 27-32: host and port. *)
Definition host_port (u : str) : outcome (str * Z) :=
  if contains u (lit ":") then
    bind (split u (lit ":")) (fun pieces =>
    bind (unpack2 pieces) (fun hp =>
    bind (int (snd hp)) (fun port => Ok (fst hp, port))))
  else Ok (u, 3322%Z).

(** The f-string of line 35. *)
Definition address (host : str) (port : Z) : str :=
  host ++ lit ":" ++ str_of_int port.

(** Lines 35-38: the client is created and stored, then logs in and
    selects the database.  It stays stored when one of the two calls
    raises. *)
Definition open_session (self : ImmuDBReader) (host : str) (port : Z)
  : ImmuDBReader * outcome ImmudbClient :=
  match ImmudbClient_new lib (address host port) with
  | Raise e => (self, Raise e)
  | Ok c0 =>
      match login lib c0 (lit "immudb") (lit "immudb") with
      | (c1, Some e) => (with_client self c1, Raise e)
      | (c1, None) =>
          match useDatabase lib c1 (db_name self) with
          | (c2, Some e) => (with_client self c2, Raise e)
          | (c2, None) => (with_client self c2, Ok c2)
          end
      end
  end.

(** Lines 20-41.  The reader as [connect] leaves it, with the session it
    holds on success or the exception that is printed and raised again. *)
Definition connect (self : ImmuDBReader)
  : ImmuDBReader * outcome ImmudbClient :=
  match strip_scheme self with
  | (self1, Raise e) => (self1, Raise e)
  | (self1, Ok _) =>
      match host_port (url self1) with
      | Raise e => (self1, Raise e)
      | Ok (host, port) => open_session self1 host port
      end
  end.

(** [self.connect()] as the methods of the reader call it. *)
Definition reconnect (self : ImmuDBReader) : outcome ImmudbClient :=
  snd (connect self).

(** [ImmuDBReader(url, db_name)] (lines 8-18). *)
Definition new_reader (url db_name : str) : ImmuDBReader :=
  {| url := url; db_name := db_name; client := None |}.

(** Lines 172-192. *)
Definition read_transactions (url db_name : str) (prefix suffix : option str)
  : outcome TransactionSet :=
  match connect (new_reader url db_name) with
  | (_, Raise e) => Raise e
  | (reader, Ok _) =>
      if truthy prefix then get_by_prefix reconnect reader (given prefix)
      else if truthy suffix then get_by_suffix reconnect reader (given suffix)
      else get_all_transactions reconnect reader
  end.

(** Lines 194-206. *)
Definition get_merkle_root (url db_name : str) : outcome StateSummary :=
  match connect (new_reader url db_name) with
  | (_, Raise e) => Raise e
  | (reader, Ok _) => Ops.get_merkle_root reconnect reader
  end.

(** Lines 208-222. *)
Definition get_transactions_as_json (url db_name : str) (prefix suffix : option str)
  : outcome str :=
  bind (read_transactions url db_name prefix suffix) (fun data =>
  Ok (json_dumps data)).

(** [json.dumps] of the dict that [get_merkle_root] returns. *)
Definition json_dumps_summary (s : StateSummary) : str :=
  [123] ++ json_string (lit "txId") ++ [58; 32] ++ json_int (txId s)
  ++ [44; 32] ++ json_string (lit "merkleRoot") ++ [58; 32]
  ++ json_optional_string (merkleRoot s) ++ [125].

(** Lines 224-236. *)
Definition get_merkle_root_as_json (url db_name : str) : outcome str :=
  bind (get_merkle_root url db_name) (fun data =>
  Ok (json_dumps_summary data)).

End Connection.

End OpsHelpers.

(* ================================================================== *)
(** * Sample libraries *)
(* ================================================================== *)

Module LibrarySamples.
Import Py PyText Ops OpsHelpers Samples.

(** A sample [int]: ASCII digits only. *)
Fixpoint decimal_from (acc : Z) (s : str) : outcome Z :=
  match s with
  | [] => Ok acc
  | ch :: s' =>
      if (48 <=? ch) && (ch <=? 57)
      then decimal_from (10 * acc + Z.of_N (ch - 48)) s'
      else Raise ValueError
  end.

Definition decimal (s : str) : outcome Z :=
  match s with
  | [] => Raise ValueError
  | _ :: _ => decimal_from 0 s
  end.

(** A library that reaches the sample ledger at localhost:3322 and
    nothing elsewhere. *)
Definition office : library :=
  {| ImmudbClient_new := fun addr =>
       if str_eqb addr (lit "localhost:3322") then Ok ledger
       else Raise (RpcError "unreachable");
     login := fun c _ _ => (c, None);
     useDatabase := fun c _ => (c, None) |}.

(** The same, but the login is refused. *)
Definition locked : library :=
  {| ImmudbClient_new := fun addr => Ok ledger;
     login := fun c _ _ => (c, Some (RpcError "invalid credentials"));
     useDatabase := fun c _ => (c, None) |}.

End LibrarySamples.

(* ================================================================== *)
(** * Facts about the Python layer *)
(* ================================================================== *)

Module PyFacts.
Import Py View.

(** ** Equality tests *)

Lemma list_eqb_eq {A} (eqb : A -> A -> bool)
      (eqb_eq : forall x y, eqb x y = true <-> x = y) (l1 l2 : list A) :
  list_eqb eqb l1 l2 = true <-> l1 = l2.
Proof.
  revert l2; induction l1 as [|x l1 IH]; intros [|y l2]; simpl;
    try (split; [discriminate | congruence]); try tauto.
  rewrite andb_true_iff, eqb_eq, IH. split.
  - intros [-> ->]; reflexivity.
  - intros E; injection E; auto.
Qed.

Lemma str_eqb_eq (a b : str) : str_eqb a b = true <-> a = b.
Proof. apply list_eqb_eq, N.eqb_eq. Qed.

Lemma str_eqb_refl (a : str) : str_eqb a a = true.
Proof. apply str_eqb_eq; reflexivity. Qed.

Lemma str_eqb_neq (a b : str) : str_eqb a b = false <-> a <> b.
Proof.
  rewrite <- str_eqb_eq. destruct (str_eqb a b); split; congruence.
Qed.

Lemma str_eqb_sym (a b : str) : str_eqb a b = str_eqb b a.
Proof.
  destruct (str_eqb a b) eqn:E.
  - apply str_eqb_eq in E; subst; symmetry; apply str_eqb_refl.
  - destruct (str_eqb b a) eqn:E'; [|reflexivity].
    apply str_eqb_eq in E'; subst. rewrite str_eqb_refl in E; discriminate.
Qed.

Lemma str_eq_dec (a b : str) : {a = b} + {a <> b}.
Proof. apply list_eq_dec, N.eq_dec. Qed.

Lemma byte_eqb_eq (x y : byte) : Byte.eqb x y = true <-> x = y.
Proof.
  split; [apply Byte.byte_dec_bl | apply Byte.byte_dec_lb].
Qed.

Lemma bytes_eqb_eq (a b : bytes) : bytes_eqb a b = true <-> a = b.
Proof. apply list_eqb_eq, byte_eqb_eq. Qed.

(** ** startswith and endswith *)

Lemma startswith_spec (s p : str) :
  startswith s p = true <-> exists t, s = p ++ t.
Proof.
  revert s; induction p as [|y p IH]; intros s; simpl.
  - split; [exists s; reflexivity | reflexivity].
  - destruct s as [|x s].
    + split; [discriminate | intros [t E]; discriminate].
    + rewrite andb_true_iff, N.eqb_eq, IH. split.
      * intros [-> [t ->]]. exists t; reflexivity.
      * intros [t E]. injection E as -> ->. split; [reflexivity | exists t; reflexivity].
Qed.

Lemma endswith_spec (b sfx : bytes) :
  endswith b sfx = true <-> exists u, b = u ++ sfx.
Proof.
  unfold endswith. rewrite andb_true_iff, Nat.leb_le, bytes_eqb_eq. split.
  - intros [_ E]. exists (firstn (length b - length sfx) b).
    transitivity (firstn (length b - length sfx) b ++ skipn (length b - length sfx) b).
    + symmetry; apply firstn_skipn.
    + f_equal; exact E.
  - intros [u ->]. rewrite length_app. split; [lia|].
    replace (length u + length sfx - length sfx)%nat with (length u + 0)%nat by lia.
    rewrite skipn_app, Nat.add_0_r, skipn_all. simpl.
    replace (length u - length u)%nat with 0%nat by lia. reflexivity.
Qed.

Lemma endswith_nil (b : bytes) : endswith b [] = true.
Proof. apply endswith_spec. exists b. symmetry; apply app_nil_r. Qed.

(** ** dict *)

Section Dict.
Context {V : Type}.
Implicit Types (d : dict V) (k : str) (v : V).

Lemma dict_get_set_eq k v d : dict_get k (dict_set k v d) = Some v.
Proof.
  induction d as [|[k' v'] d IH]; simpl.
  - rewrite str_eqb_refl; reflexivity.
  - destruct (str_eqb k' k) eqn:E; simpl; rewrite E; auto.
Qed.

Lemma dict_get_set_ne k k' v d :
  k <> k' -> dict_get k' (dict_set k v d) = dict_get k' d.
Proof.
  intros N. induction d as [|[k0 v0] d IH]; simpl.
  - apply str_eqb_neq in N. rewrite N; reflexivity.
  - destruct (str_eqb k0 k) eqn:E; simpl.
    + apply str_eqb_eq in E; subst k0.
      apply str_eqb_neq in N. rewrite N. reflexivity.
    + rewrite IH; reflexivity.
Qed.

Lemma dict_get_Some_In k v d : dict_get k d = Some v -> In (k, v) d.
Proof.
  induction d as [|[k' v'] d IH]; simpl; [discriminate|].
  destruct (str_eqb k' k) eqn:E.
  - apply str_eqb_eq in E; subst. intros [= ->]; auto.
  - auto.
Qed.

Lemma dict_get_None k d : dict_get k d = None <-> ~ In k (keys d).
Proof.
  induction d as [|[k' v'] d IH]; simpl; [tauto|].
  destruct (str_eqb k' k) eqn:E.
  - apply str_eqb_eq in E; subst. split; [discriminate | tauto].
  - apply str_eqb_neq in E. rewrite IH. tauto.
Qed.

Lemma dict_in_keys k d : dict_in k d = true <-> In k (keys d).
Proof.
  unfold dict_in. destruct (dict_get k d) eqn:E.
  - split; [intros _|reflexivity].
    apply dict_get_Some_In in E. apply (in_map fst) in E; exact E.
  - apply dict_get_None in E. split; [discriminate | tauto].
Qed.

Lemma keys_dict_set k v d :
  keys (dict_set k v d) = if dict_in k d then keys d else keys d ++ [k].
Proof.
  unfold dict_in. induction d as [|[k' v'] d IH]; simpl; [reflexivity|].
  destruct (str_eqb k' k) eqn:E; simpl; [reflexivity|].
  rewrite IH. destruct (dict_get k d); reflexivity.
Qed.

Lemma length_dict_set k v d :
  length (dict_set k v d) = if dict_in k d then length d else S (length d).
Proof.
  rewrite <- !(length_map fst). fold (keys (dict_set k v d)) (keys d).
  rewrite keys_dict_set. destruct (dict_in k d); [reflexivity|].
  rewrite length_app; simpl; lia.
Qed.

Lemma NoDup_keys_dict_set k v d : NoDup (keys d) -> NoDup (keys (dict_set k v d)).
Proof.
  intros ND. rewrite keys_dict_set. destruct (dict_in k d) eqn:E; [assumption|].
  assert (~ In k (keys d)) as NI.
  { rewrite <- dict_in_keys. congruence. }
  apply NoDup_rev in ND. rewrite <- (rev_involutive (keys d ++ [k])).
  apply NoDup_rev. rewrite rev_app_distr. simpl. constructor; [|assumption].
  rewrite <- in_rev. assumption.
Qed.

Lemma dict_get_In_NoDup k v d : NoDup (keys d) -> In (k, v) d -> dict_get k d = Some v.
Proof.
  induction d as [|[k' v'] d IH]; simpl; [tauto|]. intros ND I.
  inversion ND as [|? ? NI ND']; subst.
  destruct (str_eqb k' k) eqn:E.
  - apply str_eqb_eq in E; subst k'. destruct I as [I|I]; [congruence|].
    apply (in_map fst) in I. contradiction.
  - apply str_eqb_neq in E. destruct I as [I|I]; [congruence | auto].
Qed.

(** *** A run of assignments *)

Lemma assign_snoc (kvs : list (str * V)) kv d :
  assign (kvs ++ [kv]) d = dict_set (fst kv) (snd kv) (assign kvs d).
Proof. unfold assign. rewrite fold_left_app. reflexivity. Qed.

Lemma NoDup_keys_assign (kvs : list (str * V)) d :
  NoDup (keys d) -> NoDup (keys (assign kvs d)).
Proof.
  revert d; induction kvs as [|kv kvs IH]; intros d ND; simpl; [assumption|].
  apply IH, NoDup_keys_dict_set, ND.
Qed.

Lemma in_keys_assign (kvs : list (str * V)) d k :
  In k (keys (assign kvs d)) <-> In k (map fst kvs) \/ In k (keys d).
Proof.
  revert d; induction kvs as [|[k0 v0] kvs IH]; intros d; simpl; [tauto|].
  rewrite IH, keys_dict_set. destruct (dict_in k0 d) eqn:E.
  - apply dict_in_keys in E. split; [tauto|]. intros [[<-|H]|H]; auto.
  - rewrite in_app_iff; simpl. tauto.
Qed.

(** The value under [k] after the assignments is that of the last
    assignment to [k]. *)
Lemma dict_get_assign_last (l1 l2 : list (str * V)) k v d :
  ~ In k (map fst l2) ->
  dict_get k (assign (l1 ++ (k, v) :: l2) d) = Some v.
Proof.
  intros NI. unfold assign. rewrite fold_left_app. simpl.
  fold (assign l1 d). generalize (assign l1 d) as d1. intros d1.
  assert (dict_get k (dict_set k v d1) = Some v) as H by apply dict_get_set_eq.
  revert H. generalize (dict_set k v d1) as d2.
  induction l2 as [|[k' v'] l2 IH]; intros d2 H; simpl; [assumption|].
  simpl in NI. apply IH; [tauto|].
  rewrite dict_get_set_ne; [assumption | intros ->; tauto].
Qed.

Lemma dict_get_assign_notin (kvs : list (str * V)) k d :
  ~ In k (map fst kvs) -> dict_get k (assign kvs d) = dict_get k d.
Proof.
  revert d; induction kvs as [|[k' v'] kvs IH]; intros d NI; simpl; [reflexivity|].
  simpl in NI. rewrite IH by tauto. apply dict_get_set_ne. intros ->; tauto.
Qed.

(** Every key assigned to has a last assignment. *)
Lemma last_assignment (kvs : list (str * V)) k :
  In k (map fst kvs) ->
  exists l1 v l2, kvs = l1 ++ (k, v) :: l2 /\ ~ In k (map fst l2).
Proof.
  induction kvs as [|[k' v'] kvs IH]; simpl; [tauto|]. intros H.
  destruct (in_dec str_eq_dec k (map fst kvs)) as [I|NI].
  - destruct (IH I) as (l1 & v & l2 & -> & NI).
    exists ((k', v') :: l1), v, l2. split; [reflexivity | assumption].
  - destruct H as [->|H]; [|tauto].
    exists [], v', kvs. split; [reflexivity | assumption].
Qed.

Lemma dict_get_assign_In (kvs : list (str * V)) k v :
  dict_get k (assign kvs []) = Some v -> In (k, v) kvs.
Proof.
  intros G. destruct (in_dec str_eq_dec k (map fst kvs)) as [I|NI].
  - destruct (last_assignment _ _ I) as (l1 & v' & l2 & -> & NI).
    rewrite dict_get_assign_last in G by assumption.
    injection G as ->. apply in_elt.
  - rewrite dict_get_assign_notin in G by assumption. discriminate.
Qed.

Lemma dict_get_assign_functional (kvs : list (str * V)) k v :
  functional kvs -> In (k, v) kvs -> dict_get k (assign kvs []) = Some v.
Proof.
  intros F I.
  destruct (last_assignment kvs k) as (l1 & v' & l2 & E & NI).
  { apply (in_map fst) in I; exact I. }
  assert (v' = v) as ->.
  { apply (F k); [rewrite E; apply in_elt | assumption]. }
  rewrite E. apply dict_get_assign_last, NI.
Qed.

Lemma length_assign_le (kvs : list (str * V)) d :
  (length (assign kvs d) <= length kvs + length d)%nat.
Proof.
  revert d; induction kvs as [|[k v] kvs IH]; intros d; simpl; [lia|].
  specialize (IH (dict_set k v d)). rewrite length_dict_set in IH.
  destruct (dict_in k d); lia.
Qed.

(** A key assigned twice makes the dict shorter than the run. *)
Lemma length_assign_lt (l1 l2 l3 : list (str * V)) k v1 v2 :
  (length (assign (l1 ++ (k, v1) :: l2 ++ (k, v2) :: l3) []) 
   < length (l1 ++ (k, v1) :: l2 ++ (k, v2) :: l3))%nat.
Proof.
  unfold assign. rewrite fold_left_app. simpl. rewrite fold_left_app. simpl.
  fold (assign l1 []). 
  set (d1 := dict_set k v1 (assign l1 [])).
  fold (assign l2 d1). set (d2 := assign l2 d1).
  fold (assign l3 (dict_set k v2 d2)).
  pose proof (length_assign_le l3 (dict_set k v2 d2)) as H3.
  rewrite length_dict_set in H3.
  assert (dict_in k d2 = true) as I2.
  { apply dict_in_keys. unfold d2. apply in_keys_assign. right.
    unfold d1. apply dict_in_keys. unfold dict_in. rewrite dict_get_set_eq. reflexivity. }
  rewrite I2 in H3.
  pose proof (length_assign_le l2 d1) as H2. fold d2 in H2.
  unfold d1 in H2. rewrite length_dict_set in H2.
  pose proof (length_assign_le l1 (@nil (str * V))) as H1. simpl in H1.
  rewrite !length_app. simpl. rewrite !length_app. simpl.
  destruct (dict_in k (assign l1 [])); lia.
Qed.

End Dict.

(** ** The UTF-8 codec *)

Lemma emit_Ok c s : emit c (Ok s) = Ok (c :: s).
Proof. reflexivity. Qed.

Lemma on_error_replace_Ok s : on_error replace (Ok s) = Ok (REPLACEMENT :: s).
Proof. reflexivity. Qed.

(** Case analysis that follows one unfolding of [decode] on [b0 :: r0]. *)
Ltac decode_cases :=
  repeat (cbv beta match;
          match goal with
          | |- context [match ?r with [] => _ | _ :: _ => _ end] =>
              is_var r; destruct r
          | |- context [if ?c then _ else _] => destruct c
          end);
  cbv beta match.

(** [decode replace] never raises. *)
Lemma decode_replace_total_upto (n : nat) :
  forall b, (length b <= n)%nat -> exists s, decode replace b = Ok s.
Proof.
  induction n as [|n IH]; intros b L.
  - destruct b; [exists []; reflexivity | simpl in L; lia].
  - destruct b as [|b0 r0]; [exists []; reflexivity|].
    cbn [decode].
    destruct (utf8_width b0) as [|[|[|[|[|w]]]]]; decode_cases;
      match goal with
      | |- context [decode replace ?r] =>
          let s := fresh "s" in
          let E := fresh "E" in
          destruct (IH r) as [s E]; [simpl in L |- *; lia | rewrite E]
      end; eexists; reflexivity.
Qed.

Lemma decode_replace_total (b : bytes) : exists s, decode replace b = Ok s.
Proof. apply (decode_replace_total_upto (length b)); lia. Qed.

Lemma decode_replace_text (b : bytes) : decode replace b = Ok (text b).
Proof.
  unfold text. destruct (decode_replace_total b) as [s ->]. reflexivity.
Qed.

(** Bytes that are valid UTF-8 decode to the same text under both error
    handlers. *)
Lemma decode_strict_replace_upto (n : nat) :
  forall b s, (length b <= n)%nat -> decode strict b = Ok s -> decode replace b = Ok s.
Proof.
  induction n as [|n IH]; intros b s L.
  - destruct b; [intros H; exact H | simpl in L; lia].
  - destruct b as [|b0 r0]; [intros H; exact H|].
    cbn [decode].
    destruct (utf8_width b0) as [|[|[|[|[|w]]]]]; decode_cases;
      try (intros H; discriminate H);
      match goal with
      | |- context [decode strict ?r] =>
          destruct (decode strict r) as [t|] eqn:E; [|intros H; discriminate H];
          rewrite (IH r t); [intros H; exact H | simpl in L |- *; lia | exact E]
      end.
Qed.

Lemma decode_strict_replace (b : bytes) (s : str) :
  decode strict b = Ok s -> decode replace b = Ok s.
Proof. apply (decode_strict_replace_upto (length b)); lia. Qed.

(** Bytes that are not valid UTF-8 decode, with [replace], to a text that
    holds U+FFFD. *)
Lemma decode_invalid_replacement_upto (n : nat) :
  forall b e, (length b <= n)%nat -> decode strict b = Raise e -> In REPLACEMENT (text b).
Proof.
  induction n as [|n IH]; intros b e L.
  - destruct b; [intros H; discriminate H | simpl in L; lia].
  - destruct b as [|b0 r0]; [intros H; discriminate H|].
    unfold text. cbn [decode].
    destruct (utf8_width b0) as [|[|[|[|[|w]]]]]; decode_cases;
      intros H;
      try (match goal with
           | |- context [on_error replace (decode replace ?r)] =>
               rewrite (decode_replace_text r); simpl; left; reflexivity
           end);
      match goal with
      | H : emit _ (decode strict ?r) = Raise _ |- _ =>
          destruct (decode strict r) as [t|e'] eqn:E; [discriminate H|];
          rewrite (decode_replace_text r); simpl; right;
          apply (IH r e'); [simpl in L |- *; lia | exact E]
      end.
Qed.

Lemma decode_invalid_replacement (b : bytes) (e : exn) :
  decode strict b = Raise e -> In REPLACEMENT (text b).
Proof. apply (decode_invalid_replacement_upto (length b)); lia. Qed.

(** ** sorted *)

Section SortedLists.
Context {A : Type}.

Lemma StronglySorted_app_inv (R : A -> A -> Prop) l1 l2 :
  StronglySorted R (l1 ++ l2) ->
  StronglySorted R l1 /\ StronglySorted R l2
  /\ forall a b, In a l1 -> In b l2 -> R a b.
Proof.
  induction l1 as [|x l1 IH]; simpl; intros S.
  - repeat split; [constructor | assumption | tauto].
  - inversion S as [|? ? S' F]; subst.
    destruct (IH S') as (S1 & S2 & H). rewrite Forall_app in F.
    destruct F as [F1 F2]. repeat split; [constructor; assumption | assumption |].
    intros a b [<-|Ia] Ib; [|auto]. rewrite Forall_forall in F2; auto.
Qed.

Lemma StronglySorted_app (R : A -> A -> Prop) l1 l2 :
  StronglySorted R l1 -> StronglySorted R l2 ->
  (forall a b, In a l1 -> In b l2 -> R a b) ->
  StronglySorted R (l1 ++ l2).
Proof.
  induction 1 as [|x l1 S IH F]; simpl; intros S2 H; [assumption|].
  constructor.
  - apply IH; [assumption | intros; apply H; auto].
  - apply Forall_app; split; [assumption|].
    apply Forall_forall; intros b Ib; apply H; auto.
Qed.

Lemma StronglySorted_firstn (R : A -> A -> Prop) n l :
  StronglySorted R l -> StronglySorted R (firstn n l).
Proof.
  intros S. rewrite <- (firstn_skipn n l) in S.
  apply StronglySorted_app_inv in S. tauto.
Qed.

Lemma filter_rev' (P : A -> bool) l : filter P (rev l) = rev (filter P l).
Proof.
  induction l as [|x l IH]; [reflexivity|]. simpl.
  rewrite filter_app, IH. simpl. destruct (P x); simpl;
    [reflexivity | apply app_nil_r].
Qed.

End SortedLists.

Section Sorting.
Context {A : Type} (key : A -> nat).

Lemma insert_by_perm x l : Permutation (x :: l) (insert_by key x l).
Proof.
  induction l as [|y l IH]; simpl; [apply Permutation_refl|].
  destruct (key y <? key x)%nat; [|apply Permutation_refl].
  eapply Permutation_trans; [apply perm_swap|]. apply perm_skip, IH.
Qed.

Lemma sort_by_perm l : Permutation l (sort_by key l).
Proof.
  induction l as [|x l IH]; simpl; [apply perm_nil|].
  eapply Permutation_trans; [apply perm_skip, IH | apply insert_by_perm].
Qed.

Lemma insert_by_sorted x l :
  StronglySorted (ascending key) l -> StronglySorted (ascending key) (insert_by key x l).
Proof.
  induction 1 as [|y l S IH F]; simpl.
  - repeat constructor.
  - destruct (key y <? key x)%nat eqn:E.
    + apply Nat.ltb_lt in E. constructor; [assumption|].
      eapply Permutation_Forall; [apply insert_by_perm|].
      constructor; [unfold ascending; lia | assumption].
    + apply Nat.ltb_ge in E. constructor; [constructor; assumption|].
      constructor; [exact E|].
      eapply Forall_impl; [|exact F]. unfold ascending; intros; lia.
Qed.

Lemma sort_by_sorted l : StronglySorted (ascending key) (sort_by key l).
Proof.
  induction l as [|x l IH]; simpl; [constructor | apply insert_by_sorted, IH].
Qed.

(** Stability: the elements with a given key keep their order. *)
Lemma insert_by_filter f x l :
  filter (fun a => key a =? f)%nat (insert_by key x l)
  = filter (fun a => key a =? f)%nat (x :: l).
Proof.
  induction l as [|y l IH]; [reflexivity|].
  cbn [insert_by]. destruct (key y <? key x)%nat eqn:E; [|reflexivity].
  apply Nat.ltb_lt in E. cbn [filter] in *. rewrite IH.
  destruct (key x =? f)%nat eqn:Ex, (key y =? f)%nat eqn:Ey; try reflexivity.
  apply Nat.eqb_eq in Ex, Ey. lia.
Qed.

Lemma sort_by_filter f l :
  filter (fun a => key a =? f)%nat (sort_by key l)
  = filter (fun a => key a =? f)%nat l.
Proof.
  induction l as [|x l IH]; [reflexivity|].
  cbn [sort_by]. rewrite insert_by_filter. cbn [filter]. rewrite IH. reflexivity.
Qed.

Lemma StronglySorted_rev l :
  StronglySorted (ascending key) l -> StronglySorted (descending key) (rev l).
Proof.
  induction 1 as [|x l S IH F]; simpl; [constructor|].
  apply StronglySorted_app; [assumption | repeat constructor |].
  intros a b Ia [<-|[]]. apply in_rev in Ia.
  rewrite Forall_forall in F. apply F, Ia.
Qed.

Lemma sorted_reverse_perm l : Permutation l (sorted l key true).
Proof.
  unfold sorted. eapply Permutation_trans; [apply Permutation_rev|].
  eapply Permutation_trans; [apply sort_by_perm | apply Permutation_rev].
Qed.

Lemma sorted_reverse_descending l : StronglySorted (descending key) (sorted l key true).
Proof. unfold sorted. apply StronglySorted_rev, sort_by_sorted. Qed.

Lemma sorted_reverse_stable f l :
  filter (fun a => key a =? f)%nat (sorted l key true)
  = filter (fun a => key a =? f)%nat l.
Proof.
  unfold sorted. rewrite filter_rev', sort_by_filter, filter_rev'.
  apply rev_involutive.
Qed.

End Sorting.

(** ** Order of occurrence in a list *)

Section Before.
Context {A : Type}.
Implicit Types (x y : A) (l : list A).

Lemma in_firstn x n l : In x (firstn n l) -> In x l.
Proof.
  intros I. rewrite <- (firstn_skipn n l). apply in_or_app. left; exact I.
Qed.

Lemma before_app_l x y l l' : before x y l -> before x y (l ++ l').
Proof.
  intros (l1 & l2 & l3 & ->). exists l1, l2, (l3 ++ l').
  rewrite <- app_assoc. simpl. rewrite <- app_assoc. reflexivity.
Qed.

Lemma before_In x y l : before x y l -> In x l /\ In y l.
Proof.
  intros (l1 & l2 & l3 & ->). split.
  - apply in_elt.
  - apply in_or_app; right; right. apply in_elt.
Qed.

Lemma before_snoc x y z l :
  before x y (l ++ [z]) -> before x y l \/ (In x l /\ y = z).
Proof.
  intros (l1 & l2 & l3 & E).
  destruct (exists_last (l := y :: l3)) as (m & w & Em); [discriminate|].
  assert (l ++ [z] = (l1 ++ x :: l2 ++ m) ++ [w]) as E'.
  { rewrite E. rewrite <- app_assoc. simpl. rewrite <- app_assoc.
    rewrite Em. reflexivity. }
  apply app_inj_tail in E' as [-> ->].
  destruct m as [|y' m].
  - right. simpl in Em. injection Em as -> _. split; [|reflexivity].
    rewrite app_nil_r. apply in_elt.
  - left. simpl in Em. injection Em as <- _. exists l1, l2, m. reflexivity.
Qed.

Lemma nth_error_before x y l i j :
  (i < j)%nat -> nth_error l i = Some x -> nth_error l j = Some y -> before x y l.
Proof.
  intros Lt Hi Hj.
  apply nth_error_split in Hi as (l1 & r & -> & Li).
  rewrite nth_error_app2 in Hj by lia.
  replace (j - length l1)%nat with (S (j - length l1 - 1)) in Hj by lia.
  simpl in Hj. apply nth_error_split in Hj as (l2 & l3 & -> & _).
  exists l1, l2, l3. reflexivity.
Qed.

Lemma filter_split (P : A -> bool) x l l1 r :
  filter P l = l1 ++ x :: r ->
  exists m1 m2, l = m1 ++ x :: m2 /\ filter P m1 = l1 /\ filter P m2 = r.
Proof.
  revert l1; induction l as [|a l IH]; intros l1 E; simpl in E.
  - destruct l1; discriminate.
  - destruct (P a) eqn:Pa.
    + destruct l1 as [|b l1]; simpl in E; injection E as -> E.
      * exists [], l. simpl. auto.
      * destruct (IH _ E) as (m1 & m2 & -> & F1 & F2).
        exists (b :: m1), m2. simpl. rewrite Pa, F1. auto.
    + destruct (IH _ E) as (m1 & m2 & -> & F1 & F2).
      exists (a :: m1), m2. simpl. rewrite Pa. auto.
Qed.

Lemma before_filter (P : A -> bool) x y l :
  P x = true -> P y = true -> before x y l -> before x y (filter P l).
Proof.
  intros Px Py (l1 & l2 & l3 & ->).
  exists (filter P l1), (filter P l2), (filter P l3).
  rewrite filter_app. simpl. rewrite Px, filter_app. simpl. rewrite Py. reflexivity.
Qed.

Lemma before_filter_inv (P : A -> bool) x y l :
  before x y (filter P l) -> before x y l.
Proof.
  intros (l1 & l2 & l3 & E).
  apply filter_split in E as (m1 & m & -> & _ & E).
  apply filter_split in E as (m2 & m3 & -> & _ & _).
  exists m1, m2, m3. reflexivity.
Qed.

Lemma before_map {B} (f : A -> B) x y l :
  before x y l -> before (f x) (f y) (map f l).
Proof.
  intros (l1 & l2 & l3 & ->). exists (map f l1), (map f l2), (map f l3).
  rewrite map_app. simpl. rewrite map_app. reflexivity.
Qed.

End Before.

Lemma first_seen_lt x l : In x l -> (first_seen x l < length l)%nat.
Proof.
  induction l as [|y l IH]; simpl; [tauto|].
  destruct (str_eqb y x) eqn:E; [lia|].
  apply str_eqb_neq in E. intros [?|I]; [congruence|]. specialize (IH I). lia.
Qed.

Lemma first_seen_app_in x l l' :
  In x l -> first_seen x (l ++ l') = first_seen x l.
Proof.
  induction l as [|y l IH]; simpl; [tauto|].
  destruct (str_eqb y x) eqn:E; [reflexivity|].
  apply str_eqb_neq in E. intros [?|I]; [congruence|]. rewrite IH; auto.
Qed.

Lemma first_seen_app_notin x l l' :
  ~ In x l -> first_seen x (l ++ l') = (length l + first_seen x l')%nat.
Proof.
  induction l as [|y l IH]; simpl; [reflexivity|]. intros NI.
  destruct (str_eqb y x) eqn:E.
  - apply str_eqb_eq in E. tauto.
  - rewrite IH; tauto.
Qed.

Lemma occurrences_app x l l' :
  occurrences x (l ++ l') = (occurrences x l + occurrences x l')%nat.
Proof. induction l as [|y l IH]; simpl; [reflexivity | rewrite IH; lia]. Qed.

Lemma occurrences_pos x l : In x l <-> (0 < occurrences x l)%nat.
Proof.
  induction l as [|y l IH]; simpl; [lia|].
  destruct (str_eqb y x) eqn:E.
  - apply str_eqb_eq in E. split; [lia | auto].
  - apply str_eqb_neq in E. rewrite IH. simpl. split; [intros [?|?]; [congruence|assumption] | auto].
Qed.

End PyFacts.

(* ================================================================== *)
(** * Facts about base64 *)
(* ================================================================== *)

Module Base64Facts.
Import Py View PyFacts.

(** ** Checking a property of bytes on all 256 of them *)

Lemma forall_below (P : N -> bool) (bound : nat) :
  forallb P (map N.of_nat (seq 0 bound)) = true ->
  forall n, n < N.of_nat bound -> P n = true.
Proof.
  intros H n L. rewrite forallb_forall in H. apply H.
  apply in_map_iff. exists (N.to_nat n).
  split; [apply N2Nat.id | apply in_seq; lia].
Qed.

Lemma n2b_b2n (x : byte) : n2b (b2n x) = x.
Proof. unfold n2b, b2n. rewrite Byte.of_to_N. reflexivity. Qed.

Lemma b2n_bound (x : byte) : b2n x < 256.
Proof. pose proof (Byte.to_N_bounded x). unfold b2n. lia. Qed.

Lemma b2n_n2b (n : N) : n < 256 -> b2n (n2b n) = n.
Proof.
  intros L. unfold n2b, b2n. destruct (Byte.of_N n) as [x|] eqn:E.
  - apply Byte.to_of_N, E.
  - apply Byte.of_N_None_iff in E. lia.
Qed.

Lemma forall_byte (P : byte -> bool) :
  forallb (fun n => P (n2b n)) (map N.of_nat (seq 0 256)) = true ->
  forall x, P x = true.
Proof.
  intros H x. rewrite <- (n2b_b2n x).
  apply (forall_below (fun n => P (n2b n)) 256 H). apply b2n_bound.
Qed.

Lemma forall_byte2 (P : byte -> byte -> bool) :
  forallb (fun n => forallb (fun m => P (n2b n) (n2b m))
                            (map N.of_nat (seq 0 256)))
          (map N.of_nat (seq 0 256)) = true ->
  forall x y, P x y = true.
Proof.
  intros H x y.
  apply (forall_byte (fun y => P x y)).
  apply (forall_byte (fun x => forallb (fun m => P x (n2b m))
                                       (map N.of_nat (seq 0 256)))).
  exact H.
Qed.

(** ** The alphabet *)

Lemma b64value_char (s : N) : s < 64 -> b64value (b2n (b64char s)) = Some s.
Proof.
  intros L.
  pose proof (forall_below
                (fun s => match b64value (b2n (b64char s)) with
                          | Some t => t =? s
                          | None => false
                          end) 64) as H.
  specialize (H ltac:(vm_compute; reflexivity) s L). simpl in H.
  destruct (b64value (b2n (b64char s))) as [t|]; [|discriminate].
  apply N.eqb_eq in H. congruence.
Qed.

Lemma b64char_ascii (s : N) : b2n (b64char s) < 128.
Proof.
  unfold b64char.
  repeat match goal with
         | |- context [if ?t then _ else _] => destruct t eqn:?
         end;
    repeat match goal with
           | H : (_ <? _) = true |- _ => apply N.ltb_lt in H
           | H : (_ <? _) = false |- _ => apply N.ltb_ge in H
           end;
    try (rewrite b2n_n2b; lia); vm_compute; reflexivity.
Qed.

(** ** The bits of a group of three bytes *)

Lemma sextet_bounds (x y : byte) :
  N.shiftr (b2n x) 2 < 64
  /\ N.lor (N.shiftl (N.land (b2n x) 3) 4) (N.shiftr (b2n y) 4) < 64
  /\ N.lor (N.shiftl (N.land (b2n x) 15) 2) (N.shiftr (b2n y) 6) < 64
  /\ N.land (b2n x) 63 < 64
  /\ N.shiftl (N.land (b2n x) 3) 4 < 64
  /\ N.shiftl (N.land (b2n x) 15) 2 < 64.
Proof.
  pose proof (forall_byte2
    (fun x y =>
       (N.shiftr (b2n x) 2 <? 64)
       && (N.lor (N.shiftl (N.land (b2n x) 3) 4) (N.shiftr (b2n y) 4) <? 64)
       && (N.lor (N.shiftl (N.land (b2n x) 15) 2) (N.shiftr (b2n y) 6) <? 64)
       && (N.land (b2n x) 63 <? 64)
       && (N.shiftl (N.land (b2n x) 3) 4 <? 64)
       && (N.shiftl (N.land (b2n x) 15) 2 <? 64))%bool
    ltac:(vm_compute; reflexivity) x y) as H.
  cbv beta in H. rewrite !andb_true_iff, !N.ltb_lt in H. tauto.
Qed.

Lemma first_byte_back (x y : byte) :
  n2b (N.lor (N.shiftl (N.shiftr (b2n x) 2) 2)
             (N.shiftr (N.lor (N.shiftl (N.land (b2n x) 3) 4)
                              (N.shiftr (b2n y) 4)) 4)) = x
  /\ n2b (N.lor (N.shiftl (N.shiftr (b2n x) 2) 2)
                (N.shiftr (N.shiftl (N.land (b2n x) 3) 4) 4)) = x.
Proof.
  pose proof (forall_byte2
    (fun x y =>
       Byte.eqb (n2b (N.lor (N.shiftl (N.shiftr (b2n x) 2) 2)
                            (N.shiftr (N.lor (N.shiftl (N.land (b2n x) 3) 4)
                                             (N.shiftr (b2n y) 4)) 4))) x
       && Byte.eqb (n2b (N.lor (N.shiftl (N.shiftr (b2n x) 2) 2)
                               (N.shiftr (N.shiftl (N.land (b2n x) 3) 4) 4))) x)%bool
    ltac:(vm_compute; reflexivity) x y) as H.
  cbv beta in H. rewrite andb_true_iff, !byte_eqb_eq in H. exact H.
Qed.

Lemma second_byte_back (x y z : byte) :
  n2b (N.lor (N.shiftl (N.land (N.lor (N.shiftl (N.land (b2n x) 3) 4)
                                      (N.shiftr (b2n y) 4)) 15) 4)
             (N.shiftr (N.lor (N.shiftl (N.land (b2n y) 15) 2)
                              (N.shiftr (b2n z) 6)) 2)) = y
  /\ n2b (N.lor (N.shiftl (N.land (N.lor (N.shiftl (N.land (b2n x) 3) 4)
                                         (N.shiftr (b2n y) 4)) 15) 4)
                (N.shiftr (N.shiftl (N.land (b2n y) 15) 2) 2)) = y.
Proof.
  pose proof (forall_byte2
    (fun x y => N.land (N.lor (N.shiftl (N.land (b2n x) 3) 4)
                              (N.shiftr (b2n y) 4)) 15
                =? N.shiftr (b2n y) 4)
    ltac:(vm_compute; reflexivity) x y) as H1.
  pose proof (forall_byte2
    (fun y z =>
       (N.shiftr (N.lor (N.shiftl (N.land (b2n y) 15) 2)
                        (N.shiftr (b2n z) 6)) 2 =? N.land (b2n y) 15)
       && (N.shiftr (N.shiftl (N.land (b2n y) 15) 2) 2 =? N.land (b2n y) 15)
       && Byte.eqb (n2b (N.lor (N.shiftl (N.shiftr (b2n y) 4) 4)
                               (N.land (b2n y) 15))) y)%bool
    ltac:(vm_compute; reflexivity) y z) as H2.
  cbv beta in H1, H2. rewrite !andb_true_iff, !N.eqb_eq, byte_eqb_eq in H2.
  apply N.eqb_eq in H1. destruct H2 as [[H2 H3] H4].
  rewrite H1, H2, H3. auto.
Qed.

Lemma third_byte_back (y z : byte) :
  n2b (N.lor (N.shiftl (N.land (N.lor (N.shiftl (N.land (b2n y) 15) 2)
                                      (N.shiftr (b2n z) 6)) 3) 6)
             (N.land (b2n z) 63)) = z.
Proof.
  pose proof (forall_byte2
    (fun y z =>
       Byte.eqb (n2b (N.lor (N.shiftl (N.land (N.lor (N.shiftl (N.land (b2n y) 15) 2)
                                                     (N.shiftr (b2n z) 6)) 3) 6)
                            (N.land (b2n z) 63))) z)
    ltac:(vm_compute; reflexivity) y z) as H.
  cbv beta in H. apply byte_eqb_eq in H. exact H.
Qed.

(** ** Encoding and decoding *)

Lemma utf8_width_ascii (x : byte) : b2n x < 128 -> utf8_width x = 1%nat.
Proof.
  intros L. unfold utf8_width.
  replace (b2n x <? 128) with true by (symmetry; apply N.ltb_lt; exact L).
  reflexivity.
Qed.

(** ASCII bytes decode to the code points of the same value. *)
Lemma decode_ascii (mode : errors) (b : bytes) :
  Forall (fun x => b2n x < 128) b -> decode mode b = Ok (map b2n b).
Proof.
  induction 1 as [|x b L F IH]; [reflexivity|].
  cbn [decode]. rewrite (utf8_width_ascii x L), IH. reflexivity.
Qed.

Lemma b64encode_ascii_upto (n : nat) :
  forall b, (length b <= n)%nat -> Forall (fun x => b2n x < 128) (b64encode b).
Proof.
  induction n as [|n IH]; intros b L.
  - destruct b; [constructor | simpl in L; lia].
  - destruct b as [|x [|y [|z rest]]]; cbn [b64encode];
      repeat (constructor;
              [first [apply b64char_ascii | vm_compute; reflexivity]|]);
      try constructor.
    apply IH. simpl in L. lia.
Qed.

Lemma b64encode_ascii (b : bytes) : Forall (fun x => b2n x < 128) (b64encode b).
Proof. apply (b64encode_ascii_upto (length b)); lia. Qed.

(** base64 decoding undoes base64 encoding. *)
Lemma b64_roundtrip_upto (n : nat) :
  forall b, (length b <= n)%nat -> b64decode (map b2n (b64encode b)) = Some b.
Proof.
  induction n as [|n IH]; intros b L.
  - destruct b; [reflexivity | simpl in L; lia].
  - destruct b as [|x [|y [|z rest]]]; [reflexivity | | |].
    + pose proof (sextet_bounds x x) as (B0 & _ & _ & _ & B1 & _).
      cbn [b64encode map b64decode].
      rewrite !b64value_char by assumption.
      change (b64value (b2n b64pad)) with (@None N).
      change (b2n b64pad =? 61) with true. cbn [andb].
      rewrite (proj2 (first_byte_back x x)). reflexivity.
    + pose proof (sextet_bounds x y) as (B0 & B1 & _).
      pose proof (sextet_bounds y y) as (_ & _ & _ & _ & _ & B2).
      cbn [b64encode map b64decode].
      rewrite !b64value_char by assumption.
      change (b64value (b2n b64pad)) with (@None N).
      change (b2n b64pad =? 61) with true. cbv iota.
      rewrite (proj1 (first_byte_back x y)), (proj2 (second_byte_back x y y)).
      reflexivity.
    + pose proof (sextet_bounds x y) as (B0 & B1 & _).
      pose proof (sextet_bounds y z) as (_ & _ & B2 & _).
      pose proof (sextet_bounds z z) as (_ & _ & _ & B3 & _).
      cbn [b64encode map b64decode].
      rewrite !b64value_char by assumption. cbv zeta.
      rewrite (IH rest) by (simpl in L; lia). cbn [option_map].
      rewrite (proj1 (first_byte_back x y)), (proj1 (second_byte_back x y z)),
        (third_byte_back y z).
      reflexivity.
Qed.

Lemma b64_roundtrip (b : bytes) : b64decode (map b2n (b64encode b)) = Some b.
Proof. apply (b64_roundtrip_upto (length b)); lia. Qed.

(** The value policy of the specification is reversible on bytes that are
    not valid UTF-8. *)
Lemma spec_decode_value_roundtrip (value_bytes : bytes) (e : exn) :
  decode strict value_bytes = Raise e ->
  exists s, spec_decode_value value_bytes = Ok s /\ b64decode s = Some value_bytes.
Proof.
  intros H. unfold spec_decode_value. rewrite H. simpl.
  rewrite (decode_ascii strict _ (b64encode_ascii value_bytes)).
  eexists. split; [reflexivity | apply b64_roundtrip].
Qed.

(** ** Text that base64 decoding accepts *)

Lemma b64value_ascii (c : codepoint) (v : N) : b64value c = Some v -> c < 128.
Proof.
  unfold b64value.
  repeat match goal with
         | |- context [if ?t then _ else _] => destruct t eqn:?
         end; try discriminate; intros _;
    repeat match goal with
           | H : (_ && _)%bool = true |- _ => apply andb_true_iff in H as [? ?]
           | H : (_ <=? _) = true |- _ => apply N.leb_le in H
           | H : (_ =? _) = true |- _ => apply N.eqb_eq in H
           end; lia.
Qed.

(** A str that base64 decoding accepts is ASCII. *)
Lemma b64decode_ascii_upto (n : nat) :
  forall s b, (length s <= n)%nat -> b64decode s = Some b ->
              Forall (fun c => c < 128) s.
Proof.
  induction n as [|n IH]; intros s b L.
  - destruct s; [constructor | simpl in L; lia].
  - destruct s as [|c0 [|c1 [|c2 [|c3 rest]]]]; try discriminate; [constructor|].
    cbn [b64decode].
    destruct (b64value c0) as [v0|] eqn:E0; [|discriminate].
    destruct (b64value c1) as [v1|] eqn:E1; [|discriminate].
    apply b64value_ascii in E0, E1.
    destruct (b64value c2) as [v2|] eqn:E2, (b64value c3) as [v3|] eqn:E3;
      try apply b64value_ascii in E2; try apply b64value_ascii in E3.
    + destruct (b64decode rest) as [t|] eqn:R; [|discriminate]. intros _.
      repeat (constructor; [assumption|]).
      apply (IH rest t); [simpl in L; lia | exact R].
    + destruct rest; [|discriminate].
      destruct (c3 =? 61) eqn:P3; [|discriminate]. apply N.eqb_eq in P3. intros _.
      repeat (constructor; [lia|]). constructor.
    + discriminate.
    + destruct rest; [|discriminate].
      destruct (c2 =? 61) eqn:P2; [|discriminate]. apply N.eqb_eq in P2.
      destruct (c3 =? 61) eqn:P3; [|discriminate]. apply N.eqb_eq in P3. intros _.
      repeat (constructor; [lia|]). constructor.
Qed.

Lemma b64decode_rejects_replacement (s : str) :
  In REPLACEMENT s -> b64decode s = None.
Proof.
  intros I. destruct (b64decode s) as [b|] eqn:E; [|reflexivity].
  apply (b64decode_ascii_upto (length s)) in E; [|lia].
  rewrite Forall_forall in E. apply E in I. unfold REPLACEMENT in I. lia.
Qed.

End Base64Facts.

(* ================================================================== *)
(** * Facts about the reader *)
(* ================================================================== *)

Module OpsFacts.
Import Py Ops View PyFacts Base64Facts.

Lemma decode_key_text (key_bytes : bytes) : decode_key key_bytes = Ok (text key_bytes).
Proof. apply decode_replace_text. Qed.

(** The [except] branch of the value decoding is never taken: with
    [errors='replace'] the decoding of bytes does not raise. *)
Lemma decode_value_text (value_bytes : bytes) :
  decode_value value_bytes = Ok (text value_bytes).
Proof. unfold decode_value. rewrite decode_replace_text. reflexivity. Qed.

(** The two ways of reading the lookup's answer agree. *)
Lemma normalize_all_eq (c : ImmudbClient) (e : entry) :
  normalize_all c e = normalize c e.
Proof.
  destruct e; try reflexivity. simpl.
  destruct (get c key_bytes) as [[[v|] [p|]]|]; reflexivity.
Qed.

(** ** The three loops, as runs of assignments *)

Lemma all_loop (c : ImmudbClient) (entries : list entry) (result : TransactionSet) :
  fst (for_in (all_body c) entries result)
  = assign (map decoded (normalized c entries)) result.
Proof.
  revert result; induction entries as [|e entries IH]; intros result; [reflexivity|].
  simpl. unfold all_body at 1. rewrite normalize_all_eq.
  destruct (normalize c e) as [[[k v]|]|]; simpl.
  - rewrite decode_key_text, decode_value_text. simpl. apply IH.
  - apply IH.
  - reflexivity.
Qed.

Lemma suffix_loop (c : ImmudbClient) (sfx : bytes)
      (entries : list entry) (result : TransactionSet) :
  fst (for_in (suffix_body c sfx) entries result)
  = assign (map decoded
              (filter (fun kv => endswith (fst kv) sfx) (normalized c entries)))
           result.
Proof.
  revert result; induction entries as [|e entries IH]; intros result; [reflexivity|].
  simpl. unfold suffix_body at 1.
  destruct (normalize c e) as [[[k v]|]|]; simpl.
  - destruct (endswith k sfx); simpl.
    + rewrite decode_key_text, decode_value_text. simpl. apply IH.
    + apply IH.
  - apply IH.
  - reflexivity.
Qed.

Lemma prefix_loop (c : ImmudbClient) (prefix : str)
      (entries : list entry) (result : TransactionSet) :
  fst (for_in (prefix_body c prefix) entries result)
  = assign (filter (fun kv => startswith (fst kv) prefix)
              (map decoded (normalized c entries)))
           result.
Proof.
  revert result; induction entries as [|e entries IH]; intros result; [reflexivity|].
  simpl. unfold prefix_body at 1.
  destruct (normalize c e) as [[[k v]|]|]; simpl.
  - rewrite decode_key_text. simpl.
    destruct (startswith (text k) prefix); simpl.
    + rewrite decode_value_text. simpl. apply IH.
    + apply IH.
  - apply IH.
  - reflexivity.
Qed.

(** ** The normalized entries *)

Lemma length_normalized (c : ImmudbClient) (entries : list entry) :
  (length (normalized c entries) <= length entries)%nat.
Proof.
  induction entries as [|e entries IH]; simpl; [lia|].
  destruct (normalize c e) as [[kv|]|]; simpl; lia.
Qed.

Lemma normalize_raises (c : ImmudbClient) (e : entry) (ex : exn) :
  normalize c e = Raise ex -> exists k, e = EntryBytes k /\ get c k = Raise ex.
Proof.
  destruct e; simpl; try discriminate.
  destruct (get c key_bytes) eqn:G; simpl; [discriminate|].
  intros [= ->]. exists key_bytes. auto.
Qed.

Lemma in_normalized (c : ImmudbClient) (entries : list entry) (kv : bytes * bytes) :
  lookups_succeed c entries ->
  (In kv (normalized c entries)
   <-> exists e, In e entries /\ normalize c e = Ok (Some kv)).
Proof.
  induction entries as [|e entries IH]; intros LS; simpl.
  - split; [tauto | intros (e & [] & _)].
  - assert (lookups_succeed c entries) as LS'.
    { intros k I. apply LS. right; exact I. }
    specialize (IH LS').
    destruct (normalize c e) as [[kv'|]|ex] eqn:N.
    + simpl. rewrite IH. split.
      * intros [<-|(e' & I & N')]; [exists e; auto | exists e'; auto].
      * intros (e' & [<-|I] & N'); [left; congruence | right; exists e'; auto].
    + rewrite IH. split.
      * intros (e' & I & N'); exists e'; auto.
      * intros (e' & [<-|I] & N'); [congruence | exists e'; auto].
    + apply normalize_raises in N as (k & -> & G).
      destruct (LS k) as [resp G']; [left; reflexivity | congruence].
Qed.

(** Entries before a faulting lookup are normalized; the entries after it
    are not reached. *)
Lemma normalized_until_fault (c : ImmudbClient) (front rest : list entry)
      (k : bytes) (ex : exn) :
  lookups_succeed c front -> get c k = Raise ex ->
  normalized c (front ++ EntryBytes k :: rest) = normalized c front.
Proof.
  intros LS G. induction front as [|e front IH]; simpl.
  - rewrite G. reflexivity.
  - assert (lookups_succeed c front) as LS'.
    { intros k' I. apply LS. right; exact I. }
    destruct (normalize c e) as [[kv|]|ex'] eqn:N.
    + rewrite IH by assumption. reflexivity.
    + apply IH; assumption.
    + reflexivity.
Qed.

Lemma normalized_skips_other (c : ImmudbClient) (front rest : list entry) :
  normalized c (front ++ EntryOther :: rest) = normalized c (front ++ rest).
Proof.
  induction front as [|e front IH]; simpl; [reflexivity|].
  destruct (normalize c e) as [[kv|]|ex']; rewrite ?IH; reflexivity.
Qed.

(** ** Runs of assignments, compared *)

Lemma assign_incl_keys {V} (kvs1 kvs2 : list (str * V)) :
  incl kvs1 kvs2 -> incl (keys (assign kvs1 [])) (keys (assign kvs2 [])).
Proof.
  intros I k. rewrite !in_keys_assign. simpl.
  intros [H|[]]. left. apply in_map_iff in H as (kv & <- & H).
  apply in_map, I, H.
Qed.

Lemma assign_incl_submap {V} (kvs1 kvs2 : list (str * V)) :
  incl kvs1 kvs2 -> functional kvs2 -> submap (assign kvs1 []) (assign kvs2 []).
Proof.
  intros I F k v G. apply dict_get_assign_In in G.
  apply dict_get_assign_functional; [exact F | apply I, G].
Qed.

Lemma filter_true {A} (P : A -> bool) (l : list A) :
  (forall x, P x = true) -> filter P l = l.
Proof.
  intros H. induction l as [|x l IH]; simpl; [reflexivity|].
  rewrite H, IH. reflexivity.
Qed.

(** ** The operations on an established session *)

Section Connected.
Variable connect : ImmuDBReader -> outcome ImmudbClient.
Variables (self : ImmuDBReader) (c : ImmudbClient).
Hypothesis session : ensure_client connect self = Ok c.

Lemma get_all_transactions_eq :
  get_all_transactions connect self
  = Ok (assign (map decoded (normalized c (scanned c []))) []).
Proof.
  unfold get_all_transactions, scanned. rewrite session. simpl.
  destruct (scan c [] [] 0%Z false); [rewrite all_loop|]; reflexivity.
Qed.

Lemma get_by_suffix_eq (suffix : str) (sfx : bytes) :
  encode suffix = Ok sfx ->
  get_by_suffix connect self suffix
  = Ok (assign (map decoded
                  (filter (fun kv => endswith (fst kv) sfx)
                          (normalized c (scanned c []))))
               []).
Proof.
  intros E. unfold get_by_suffix, scanned. rewrite session. simpl. rewrite E. simpl.
  destruct (scan c [] [] 0%Z false); [rewrite suffix_loop|]; reflexivity.
Qed.

Lemma get_by_prefix_eq (prefix : str) (pfx : bytes) :
  encode prefix = Ok pfx ->
  get_by_prefix connect self prefix
  = Ok (assign (filter (fun kv => startswith (fst kv) prefix)
                  (map decoded (normalized c (scanned c pfx))))
               []).
Proof.
  intros E. unfold get_by_prefix, scanned. rewrite session. simpl. rewrite E. simpl.
  destruct (scan c [] pfx 0%Z false); [rewrite prefix_loop|]; reflexivity.
Qed.

End Connected.

(** Without a session, an exception of [connect] reaches the caller of
    every operation: the call stands before the [try]. *)
Lemma connect_failure_propagates
      (connect : ImmuDBReader -> outcome ImmudbClient)
      (self : ImmuDBReader) (ex : exn) :
  client self = None -> connect self = Raise ex ->
  get_all_transactions connect self = Raise ex
  /\ (forall prefix, get_by_prefix connect self prefix = Raise ex)
  /\ (forall suffix, get_by_suffix connect self suffix = Raise ex)
  /\ get_merkle_root connect self = Raise ex.
Proof.
  intros N F.
  unfold get_all_transactions, get_by_prefix, get_by_suffix, get_merkle_root,
    ensure_client.
  rewrite N, F. simpl. auto.
Qed.

Lemma ensure_client_connected (connect : ImmuDBReader -> outcome ImmudbClient)
      (self : ImmuDBReader) (c : ImmudbClient) :
  client self = Some c -> ensure_client connect self = Ok c.
Proof. unfold ensure_client. intros ->. reflexivity. Qed.

End OpsFacts.

(* ================================================================== *)
(** * Facts about the aggregator *)
(* ================================================================== *)

Module AppFacts.
Import Py App View PyFacts.

(** ** Candidate prefixes *)

Lemma count_key_candidates (prefixes : dict nat) (key : str) :
  count_key prefixes key = fold_left count_prefix (candidates key) prefixes.
Proof.
  unfold count_key, candidates.
  generalize (range 1 (Nat.min 5 (length key))) as l. intros l.
  revert prefixes; induction l as [|i l IH]; intros prefixes; simpl; auto.
Qed.

(** The two nested loops count the candidates in discovery order. *)
Lemma find_prefixes_discovery (transactions : dict str) :
  find_prefixes transactions = fold_left count_prefix (discovery transactions) [].
Proof.
  unfold find_prefixes, discovery.
  generalize (@nil (str * nat)) as d. generalize (keys transactions) as ks.
  induction ks as [|k ks IH]; intros d; simpl; [reflexivity|].
  rewrite fold_left_app, <- count_key_candidates. apply IH.
Qed.

Lemma length_slices (key : str) (n a : nat) :
  (a + n <= length key + 1)%nat ->
  map (fun i => length (slice_to key i)) (seq a n) = seq a n.
Proof.
  revert a; induction n as [|n IH]; intros a B; simpl; [reflexivity|].
  f_equal; [apply firstn_length_le; lia | apply IH; lia].
Qed.

Lemma candidates_lengths (key : str) :
  map (@length codepoint) (candidates key) = seq 1 (Nat.min 4 (length key - 1)).
Proof.
  unfold candidates, range. rewrite map_map.
  replace (Nat.min 5 (length key) - 1)%nat with (Nat.min 4 (length key - 1)) by lia.
  apply length_slices. lia.
Qed.

Lemma candidates_prefixes (key : str) :
  Forall (fun p => startswith key p = true /\ (length p < length key)%nat)
         (candidates key).
Proof.
  apply Forall_forall. intros p I.
  assert (In (length p) (map (@length codepoint) (candidates key))) as L
    by (apply in_map; exact I).
  rewrite candidates_lengths in L. apply in_seq in L.
  unfold candidates in I. apply in_map_iff in I as (i & <- & _).
  split; [|lia].
  apply startswith_spec. exists (skipn i key). unfold slice_to.
  symmetry; apply firstn_skipn.
Qed.

(** ** Counting *)

Lemma keys_count_prefix (d : dict nat) (x : str) :
  keys (count_prefix d x) = if dict_in x d then keys d else keys d ++ [x].
Proof.
  unfold count_prefix. destruct (dict_in x d) eqn:E.
  - unfold dict_in in E. destruct (dict_get x d) eqn:G; [|discriminate].
    rewrite keys_dict_set. unfold dict_in. rewrite G. reflexivity.
  - rewrite keys_dict_set, E. reflexivity.
Qed.

Lemma dict_get_count_prefix (d : dict nat) (x p : str) :
  dict_get p (count_prefix d x)
  = if str_eqb x p
    then Some (match dict_get x d with Some n => n + 1 | None => 1 end)%nat
    else dict_get p d.
Proof.
  unfold count_prefix, dict_in. destruct (str_eqb x p) eqn:E.
  - apply str_eqb_eq in E; subst p.
    destruct (dict_get x d); apply dict_get_set_eq.
  - apply str_eqb_neq in E.
    destruct (dict_get x d); apply dict_get_set_ne; assumption.
Qed.

(** The keys of the counting dict are the distinct candidates, in the
    order of their first occurrence. *)
Lemma tally_keys (l : list str) :
  let K := keys (fold_left count_prefix l []) in
  (forall x, In x K <-> In x l)
  /\ (forall x y, before x y K -> (first_seen x l < first_seen y l)%nat).
Proof.
  induction l as [|z l IH] using rev_ind; simpl.
  - split; [tauto|]. intros x y (l1 & l2 & l3 & E). destruct l1; discriminate.
  - rewrite fold_left_app. simpl. rewrite keys_count_prefix.
    set (K := keys (fold_left count_prefix l [])) in *.
    destruct IH as [IHin IHord].
    destruct (dict_in z (fold_left count_prefix l [])) eqn:E.
    + apply dict_in_keys in E. fold K in E. split.
      * intros x. rewrite in_app_iff, IHin. simpl.
        split; [tauto|]. intros [?|[<-|[]]]; [assumption | apply IHin, E].
      * intros x y B. destruct (before_In _ _ _ B) as [Ix Iy].
        rewrite !first_seen_app_in by (apply IHin; assumption). auto.
    + assert (~ In z K) as NI by (unfold K; rewrite <- dict_in_keys; congruence).
      split.
      * intros x. rewrite !in_app_iff, IHin. tauto.
      * intros x y B. apply before_snoc in B as [B|[Ix ->]].
        -- destruct (before_In _ _ _ B) as [Ix Iy].
           rewrite !first_seen_app_in by (apply IHin; assumption). auto.
        -- rewrite first_seen_app_in by (apply IHin; assumption).
           rewrite first_seen_app_notin by (rewrite <- IHin; assumption).
           apply IHin, first_seen_lt in Ix. lia.
Qed.

Lemma NoDup_keys_tally (l : list str) (d : dict nat) :
  NoDup (keys d) -> NoDup (keys (fold_left count_prefix l d)).
Proof.
  revert d; induction l as [|x l IH]; intros d ND; simpl; [exact ND|].
  apply IH. rewrite keys_count_prefix.
  destruct (dict_in x d) eqn:E; [exact ND|].
  apply NoDup_app; [exact ND | repeat constructor; simpl; tauto |].
  intros a I [<-|[]]. apply dict_in_keys in I. congruence.
Qed.

(** The count under a prefix is the number of its occurrences among the
    candidates. *)
Lemma tally_count (l : list str) (p : str) :
  dict_get p (fold_left count_prefix l [])
  = if (occurrences p l =? 0)%nat then None else Some (occurrences p l).
Proof.
  induction l as [|z l IH] using rev_ind; [reflexivity|].
  rewrite fold_left_app. simpl. rewrite dict_get_count_prefix, occurrences_app. simpl.
  destruct (str_eqb z p) eqn:E.
  - apply str_eqb_eq in E; subst z. rewrite IH.
    destruct (occurrences p l) as [|n]; simpl; [reflexivity|].
    replace (S n + 1 =? 0)%nat with false by (symmetry; apply Nat.eqb_neq; lia).
    reflexivity.
  - rewrite IH, !Nat.add_0_r. reflexivity.
Qed.

(** ** The largest value *)

Lemma max_value_len_cons (k v : str) (l : dict str) :
  max_value_len ((k, v) :: l) = Nat.max (length v) (max_value_len l).
Proof. reflexivity. Qed.

Lemma largest_fold (l : dict str) :
  forall lv : largest,
  ((max_value_len l <= lv_size lv)%nat -> fold_left larger l lv = lv)
  /\ ((lv_size lv < max_value_len l)%nat ->
      exists front k v rest,
        l = front ++ (k, v) :: rest
        /\ length v = max_value_len l
        /\ Forall (fun kv => (length (snd kv) < max_value_len l)%nat) front
        /\ fold_left larger l lv = {| lv_key := k; lv_size := max_value_len l |}).
Proof.
  induction l as [|[k0 v0] l IH]; intros lv.
  - simpl. split; [reflexivity | unfold max_value_len; simpl; lia].
  - rewrite max_value_len_cons. cbn [fold_left]. unfold larger at 2 4. cbn [fst snd].
    destruct (lv_size lv <? length v0)%nat eqn:E.
    + apply Nat.ltb_lt in E. split; [lia|]. intros _.
      destruct (le_lt_dec (max_value_len l) (length v0)) as [Le|Lt].
      * exists [], k0, v0, l. rewrite (proj1 (IH _)) by exact Le.
        repeat split; try constructor. 
        -- lia.
        -- f_equal; lia.
      * destruct (proj2 (IH {| lv_key := k0; lv_size := length v0 |}) Lt)
          as (front & k & v & rest & -> & Lv & F & R).
        exists ((k0, v0) :: front), k, v, rest.
        replace (Nat.max (length v0) (max_value_len (front ++ (k, v) :: rest)))
          with (max_value_len (front ++ (k, v) :: rest)) by lia.
        repeat split; [assumption | | assumption].
        constructor; [simpl; lia | assumption].
    + apply Nat.ltb_ge in E. split.
      * intros Le. apply IH. lia.
      * intros Lt. assert (lv_size lv < max_value_len l)%nat as Lt' by lia.
        destruct (proj2 (IH lv) Lt') as (front & k & v & rest & -> & Lv & F & R).
        exists ((k0, v0) :: front), k, v, rest.
        replace (Nat.max (length v0) (max_value_len (front ++ (k, v) :: rest)))
          with (max_value_len (front ++ (k, v) :: rest)) by lia.
        repeat split; [assumption | | assumption].
        constructor; [simpl; lia | assumption].
Qed.

Lemma stats_largest (transactions : dict str) :
  largest_value (get_transactions_stats transactions) = find_largest transactions.
Proof. destruct transactions; reflexivity. Qed.

Lemma stats_common (transactions : dict str) :
  common_prefixes (get_transactions_stats transactions)
  = top_prefixes (find_prefixes transactions).
Proof. destruct transactions; reflexivity. Qed.

(** ** The distinct candidates *)

Lemma distinct_In (l : list str) (x : str) : In x (distinct l) <-> In x l.
Proof.
  induction l as [|y l IH]; simpl; [tauto|].
  rewrite filter_In, IH. destruct (str_eqb y x) eqn:E.
  - apply str_eqb_eq in E. subst y. simpl. split; [tauto | auto].
  - apply str_eqb_neq in E. simpl. split; [tauto | intros [?|I]; auto].
Qed.

Lemma NoDup_filter {A} (P : A -> bool) (l : list A) : NoDup l -> NoDup (filter P l).
Proof.
  induction 1 as [|x l NI ND IH]; simpl; [constructor|].
  destruct (P x); [|exact IH].
  constructor; [|exact IH]. intros I. apply filter_In in I. tauto.
Qed.

Lemma NoDup_distinct (l : list str) : NoDup (distinct l).
Proof.
  induction l as [|x l IH]; simpl; constructor.
  - intros I. apply filter_In in I as [_ I]. rewrite str_eqb_refl in I. discriminate.
  - apply NoDup_filter, IH.
Qed.

(** The dict of counts has one entry per distinct candidate. *)
Lemma length_tally (l : list str) :
  length (fold_left count_prefix l []) = length (distinct l).
Proof.
  transitivity (length (keys (fold_left count_prefix l []))).
  - unfold keys. rewrite length_map. reflexivity.
  - apply Permutation_length, NoDup_Permutation.
    + apply NoDup_keys_tally. constructor.
    + apply NoDup_distinct.
    + intros x. rewrite distinct_In. apply (proj1 (tally_keys l)).
Qed.

Lemma before_app_In {A} (x y : A) (l1 l2 : list A) :
  In x l1 -> In y l2 -> before x y (l1 ++ l2).
Proof.
  intros I1 I2. apply in_split in I1 as (a & b & ->).
  apply in_split in I2 as (c & d & ->).
  exists a, (b ++ c), d. rewrite <- !app_assoc. reflexivity.
Qed.

(** Of two entries with the same count, the one that stands first in the
    ranking was discovered first. *)
Lemma ranked_ties (found : list str) (p q : str) (f : nat) :
  before (p, f) (q, f) (sorted (items (fold_left count_prefix found [])) snd true) ->
  (first_seen p found < first_seen q found)%nat.
Proof.
  intros B.
  apply (before_filter (fun a => snd a =? f)%nat) in B;
    [|apply Nat.eqb_refl|apply Nat.eqb_refl].
  rewrite sorted_reverse_stable in B.
  apply before_filter_inv in B. apply (before_map fst) in B.
  apply (proj2 (tally_keys found)), B.
Qed.

End AppFacts.

(* ================================================================== *)
(** * The properties of the specification *)
(* ================================================================== *)

Module Properties.
Import Py Ops App View Samples PyFacts Base64Facts OpsFacts AppFacts.

(** ** Value decoding *)

(** C1.  The specification asks that a value whose bytes are not valid
    UTF-8 be returned as a base64 string that decodes back to the bytes.
    The reader never takes its base64 branch: for every value the decoded
    string is the text with invalid sequences replaced.  For a value that
    is valid UTF-8 this is the text the policy of the specification gives.
    For a value that is not, the text holds U+FFFD and base64 decoding
    rejects it, whereas the policy of the specification gives a string
    that base64 decoding turns back into the value.  On the store with the
    single value 0xFF the three scan operations return the one-character
    string U+FFFD, where the policy of the specification gives "/w==". *)
Theorem C1_invalid_value_is_replaced_not_base64 :
  (forall value_bytes, decode_value value_bytes = Ok (text value_bytes))
  /\ (forall value_bytes s,
        decode strict value_bytes = Ok s ->
        decode_value value_bytes = Ok s /\ spec_decode_value value_bytes = Ok s)
  /\ (forall value_bytes e,
        decode strict value_bytes = Raise e ->
        In REPLACEMENT (text value_bytes)
        /\ b64decode (text value_bytes) = None
        /\ exists s, spec_decode_value value_bytes = Ok s
                     /\ b64decode s = Some value_bytes)
  /\ get_all_transactions unreachable (reader_of binary_value)
     = Ok [(lit "k", [REPLACEMENT])]
  /\ get_by_prefix unreachable (reader_of binary_value) (lit "k")
     = Ok [(lit "k", [REPLACEMENT])]
  /\ get_by_suffix unreachable (reader_of binary_value) (lit "k")
     = Ok [(lit "k", [REPLACEMENT])]
  /\ decode strict [xff] = Raise UnicodeDecodeError
  /\ spec_decode_value [xff] = Ok (lit "/w==")
  /\ b64decode (lit "/w==") = Some [xff].
Proof.
  split; [exact decode_value_text|]. split; [|split].
  - intros v s H. unfold decode_value, spec_decode_value.
    rewrite (decode_strict_replace v s H), H. split; reflexivity.
  - intros v e H. pose proof (decode_invalid_replacement v e H) as R.
    split; [exact R|]. split; [apply b64decode_rejects_replacement, R|].
    apply (spec_decode_value_roundtrip v e H).
  - repeat split; vm_compute; reflexivity.
Qed.

(** ** Faults during a scan *)

(** C2, as stated, fails: the lookup of the first entry raises, and the
    well-formed pair that follows it is missing from the result. *)
Lemma C2_lookup_fault_stops_the_scan :
  scan faulty_lookup [] [] 0%Z false
  = Ok [EntryBytes (blit "k1"); EntryTuple (blit "k2") (blit "v2")]
  /\ get faulty_lookup (blit "k1") = Raise (RpcError "deadline exceeded")
  /\ exists result,
       get_all_transactions unreachable (reader_of faulty_lookup) = Ok result
       /\ dict_get (lit "k2") result = None.
Proof.
  split; [reflexivity|]. split; [reflexivity|].
  exists []. split; vm_compute; reflexivity.
Qed.

(** C2, amended.  On an established session [get_all_transactions] never
    raises.  A failed scan call gives the empty TransactionSet.  An entry
    of unrecognized shape is skipped and the scan continues.  A point
    lookup that raises ends the scan: the result is built from the entries
    before it. *)
Theorem C2_scan_faults_are_contained
        (connect : ImmuDBReader -> outcome ImmudbClient)
        (self : ImmuDBReader) (c : ImmudbClient) :
  ensure_client connect self = Ok c ->
  (exists result, get_all_transactions connect self = Ok result)
  /\ (forall ex, scan c [] [] 0%Z false = Raise ex ->
                 get_all_transactions connect self = Ok [])
  /\ (forall front rest,
        scan c [] [] 0%Z false = Ok (front ++ EntryOther :: rest) ->
        get_all_transactions connect self
        = Ok (assign (map decoded (normalized c (front ++ rest))) []))
  /\ (forall front k ex rest,
        scan c [] [] 0%Z false = Ok (front ++ EntryBytes k :: rest) ->
        lookups_succeed c front ->
        get c k = Raise ex ->
        get_all_transactions connect self
        = Ok (assign (map decoded (normalized c front)) [])).
Proof.
  intros S. rewrite (get_all_transactions_eq connect self c S).
  split; [eexists; reflexivity|]. unfold scanned. repeat split.
  - intros ex ->. reflexivity.
  - intros front rest ->. rewrite normalized_skips_other. reflexivity.
  - intros front k ex rest -> LS G.
    rewrite (normalized_until_fault c front rest k ex LS G). reflexivity.
Qed.

(** On the sample store whose first lookup raises, the result is empty. *)
Lemma C2_scan_faults_are_contained_witness :
  ensure_client unreachable (reader_of faulty_lookup) = Ok faulty_lookup
  /\ get_all_transactions unreachable (reader_of faulty_lookup) = Ok [].
Proof.
  split; [reflexivity|].
  destruct (C2_scan_faults_are_contained unreachable (reader_of faulty_lookup)
              faulty_lookup eq_refl) as (_ & _ & _ & H).
  apply (H [] (blit "k1") (RpcError "deadline exceeded")
           [EntryTuple (blit "k2") (blit "v2")]).
  - reflexivity.
  - intros k [].
  - reflexivity.
Defined.

(** ** The state summary *)

(** C8.  When the state query raises, [get_merkle_root] returns the
    summary with both fields null and does not raise. *)
Theorem C8_state_query_failure
        (connect : ImmuDBReader -> outcome ImmudbClient)
        (self : ImmuDBReader) (c : ImmudbClient) (ex : exn) :
  ensure_client connect self = Ok c ->
  currentState c = Raise ex ->
  get_merkle_root connect self = Ok {| txId := None; merkleRoot := None |}.
Proof.
  intros S F. unfold get_merkle_root. rewrite S. simpl. rewrite F. reflexivity.
Qed.

(** On the sample session whose every call raises. *)
Lemma C8_state_query_failure_witness :
  get_merkle_root unreachable (reader_of broken)
  = Ok {| txId := None; merkleRoot := None |}.
Proof.
  apply (C8_state_query_failure unreachable (reader_of broken) broken
           (RpcError "unavailable")); reflexivity.
Defined.

(** ** Suffix search with the empty suffix *)

(** C9.  [get_by_suffix] with the empty string returns what
    [get_all_transactions] returns: the same scan call, the same
    normalization and decoding, and a filter that every key passes. *)
Theorem C9_empty_suffix_is_full_scan
        (connect : ImmuDBReader -> outcome ImmudbClient) (self : ImmuDBReader) :
  get_by_suffix connect self [] = get_all_transactions connect self.
Proof.
  destruct (ensure_client connect self) as [c|ex] eqn:S.
  - rewrite (get_by_suffix_eq connect self c S [] [] eq_refl).
    rewrite (get_all_transactions_eq connect self c S).
    rewrite filter_true; [reflexivity|]. intros kv. apply endswith_nil.
  - unfold get_by_suffix, get_all_transactions. rewrite S. reflexivity.
Qed.

(** ** Prefix search *)

(** C3, as stated, fails.  The store holds two distinct raw keys, the
    UTF-8 form of U+FFFD and the byte 0xFF, which both decode to U+FFFD,
    and its prefix scan returns exactly the keys that start with the
    requested bytes.  The prefix search for U+FFFD maps the decoded key to
    the value of the first raw key, the full scan to that of the second:
    the result of the prefix search is not contained in that of the full
    scan. *)
Lemma C3_prefix_result_not_submap :
  exists by_prefix all,
    get_by_prefix unreachable (reader_of colliding) [REPLACEMENT] = Ok by_prefix
    /\ get_all_transactions unreachable (reader_of colliding) = Ok all
    /\ dict_get [REPLACEMENT] by_prefix = Some (lit "1")
    /\ dict_get [REPLACEMENT] all = Some (lit "2")
    /\ ~ submap by_prefix all.
Proof.
  exists [([REPLACEMENT], lit "1")], [([REPLACEMENT], lit "2")].
  repeat split; try (vm_compute; reflexivity).
  intros H. specialize (H [REPLACEMENT] (lit "1") eq_refl). discriminate H.
Qed.

(** C3, amended.  Every key [get_by_prefix] returns starts with the prefix,
    whatever the store answers.  When the prefix scan returns only entries
    that the full scan returns too and no point lookup of the full scan
    raises, every key of the prefix result is a key of the full result;
    the values agree as well when entries of the full scan whose keys
    decode to the same text carry the same value. *)
Theorem C3_prefix_scan :
  (forall connect self prefix result,
      get_by_prefix connect self prefix = Ok result ->
      Forall (fun k => startswith k prefix = true) (keys result))
  /\ (forall connect self c prefix pfx,
        ensure_client connect self = Ok c ->
        encode prefix = Ok pfx ->
        incl (scanned c pfx) (scanned c []) ->
        lookups_succeed c (scanned c []) ->
        exists by_prefix all,
          get_by_prefix connect self prefix = Ok by_prefix
          /\ get_all_transactions connect self = Ok all
          /\ incl (keys by_prefix) (keys all)
          /\ (functional (map decoded (normalized c (scanned c []))) ->
              submap by_prefix all)).
Proof.
  split.
  - intros connect self prefix result H.
    destruct (ensure_client connect self) as [c|ex] eqn:S;
      [|unfold get_by_prefix in H; rewrite S in H; discriminate H].
    destruct (encode prefix) as [pfx|ex] eqn:E;
      [|unfold get_by_prefix in H; rewrite S in H; simpl in H; rewrite E in H;
        discriminate H].
    rewrite (get_by_prefix_eq connect self c S prefix pfx E) in H.
    injection H as <-. apply Forall_forall. intros k I.
    apply in_keys_assign in I as [I|[]].
    apply in_map_iff in I as (kv & <- & I). apply filter_In in I. tauto.
  - intros connect self c prefix pfx S E I LS.
    rewrite (get_by_prefix_eq connect self c S prefix pfx E).
    rewrite (get_all_transactions_eq connect self c S).
    do 2 eexists. split; [reflexivity|]. split; [reflexivity|].
    assert (incl (filter (fun kv => startswith (fst kv) prefix)
                         (map decoded (normalized c (scanned c pfx))))
                 (map decoded (normalized c (scanned c [])))) as Inc.
    { intros kv H. apply filter_In in H as [H _].
      apply in_map_iff in H as (raw & <- & H). apply in_map.
      assert (lookups_succeed c (scanned c pfx)) as LS'
        by (intros k Ik; apply LS, I, Ik).
      apply (in_normalized c _ raw LS') in H as (e & Ie & N).
      apply (in_normalized c _ raw LS). exists e. split; [apply I, Ie | exact N]. }
    split; [apply assign_incl_keys, Inc | intros F; apply assign_incl_submap; assumption].
Qed.

(** On the sample ledger, with the prefix "block:". *)
Lemma C3_prefix_scan_witness :
  exists by_prefix all,
    get_by_prefix unreachable (reader_of ledger) (lit "block:") = Ok by_prefix
    /\ get_all_transactions unreachable (reader_of ledger) = Ok all
    /\ incl (keys by_prefix) (keys all)
    /\ (functional (map decoded (normalized ledger (scanned ledger []))) ->
        submap by_prefix all).
Proof.
  apply (proj2 C3_prefix_scan unreachable (reader_of ledger) ledger
           (lit "block:") (blit "block:")).
  - reflexivity.
  - reflexivity.
  - intros e H. vm_compute in H |- *. tauto.
  - intros k H. vm_compute in H.
    destruct H as [H|[H|[H|[]]]]; injection H as <-; eexists; vm_compute; reflexivity.
Defined.

(** ** Suffix search *)

(** C4, as stated, fails, on the same store: the suffix search for U+FFFD
    keeps only the first raw key, so the decoded key is mapped to a value
    that the full scan, where the second raw key overwrites it, does not
    give. *)
Lemma C4_suffix_result_not_submap :
  exists by_suffix all,
    get_by_suffix unreachable (reader_of colliding) [REPLACEMENT] = Ok by_suffix
    /\ get_all_transactions unreachable (reader_of colliding) = Ok all
    /\ dict_get [REPLACEMENT] by_suffix = Some (lit "1")
    /\ dict_get [REPLACEMENT] all = Some (lit "2")
    /\ ~ submap by_suffix all.
Proof.
  exists [([REPLACEMENT], lit "1")], [([REPLACEMENT], lit "2")].
  repeat split; try (vm_compute; reflexivity).
  intros H. specialize (H [REPLACEMENT] (lit "1") eq_refl). discriminate H.
Qed.

(** C4, amended.  [get_by_suffix] issues the scan call of
    [get_all_transactions] and assigns, in scan order, exactly those
    normalized entries whose raw key bytes end with the UTF-8 form of the
    suffix; the test is on the bytes.  Every key of its result is a key of
    the full result; the values agree as well when scanned entries whose
    keys decode to the same text carry the same value. *)
Theorem C4_suffix_scan
        (connect : ImmuDBReader -> outcome ImmudbClient)
        (self : ImmuDBReader) (c : ImmudbClient) (suffix : str) (sfx : bytes) :
  ensure_client connect self = Ok c ->
  encode suffix = Ok sfx ->
  let seen := normalized c (scanned c []) in
  let kept := filter (fun kv => endswith (fst kv) sfx) seen in
  (forall kv, In kv kept <-> In kv seen /\ exists u, fst kv = u ++ sfx)
  /\ exists by_suffix all,
       get_by_suffix connect self suffix = Ok by_suffix
       /\ get_all_transactions connect self = Ok all
       /\ by_suffix = assign (map decoded kept) []
       /\ all = assign (map decoded seen) []
       /\ incl (keys by_suffix) (keys all)
       /\ (functional (map decoded seen) -> submap by_suffix all).
Proof.
  intros S E seen kept. split.
  - intros kv. unfold kept. rewrite filter_In, endswith_spec. reflexivity.
  - rewrite (get_by_suffix_eq connect self c S suffix sfx E).
    rewrite (get_all_transactions_eq connect self c S).
    do 2 eexists. repeat (split; [reflexivity|]).
    assert (incl (map decoded kept) (map decoded seen)) as Inc.
    { intros kv H. apply in_map_iff in H as (raw & <- & H).
      apply in_map. apply filter_In in H. tauto. }
    split; [apply assign_incl_keys, Inc | intros F; apply assign_incl_submap; assumption].
Qed.

(** On the sample ledger, with the suffix "9". *)
Lemma C4_suffix_scan_witness :
  exists by_suffix all,
    get_by_suffix unreachable (reader_of ledger) (lit "9") = Ok by_suffix
    /\ get_all_transactions unreachable (reader_of ledger) = Ok all
    /\ by_suffix = [(lit "log:9", lit "x")]
    /\ incl (keys by_suffix) (keys all).
Proof.
  destruct (C4_suffix_scan unreachable (reader_of ledger) ledger
              (lit "9") (blit "9") eq_refl eq_refl)
    as (_ & by_suffix & all & H1 & H2 & H3 & _ & H5 & _).
  exists by_suffix, all. repeat split; assumption.
Defined.

(** ** Colliding keys *)

(** C10.  When the loop of [get_all_transactions] sees two entries with
    distinct raw keys that decode to the same text, the returned
    TransactionSet maps that text to the value of an entry scanned at or
    after the later of the two, namely the last one that decodes to it,
    which is the later of the two when no entry after it collides as well;
    and it holds fewer entries than the scan returned. *)
Theorem C10_colliding_keys_overwrite
        (connect : ImmuDBReader -> outcome ImmudbClient)
        (self : ImmuDBReader) (c : ImmudbClient) (entries : list entry)
        (l1 l2 l3 : list (bytes * bytes)) (ki vi kj vj : bytes) :
  ensure_client connect self = Ok c ->
  scan c [] [] 0%Z false = Ok entries ->
  normalized c entries = l1 ++ (ki, vi) :: l2 ++ (kj, vj) :: l3 ->
  ki <> kj ->
  text ki = text kj ->
  exists result,
    get_all_transactions connect self = Ok result
    /\ (exists k v, In (k, v) ((kj, vj) :: l3) /\ text k = text kj
                    /\ dict_get (text kj) result = Some (text v))
    /\ (~ In (text kj) (map (fun kv => text (fst kv)) l3) ->
        dict_get (text kj) result = Some (text vj))
    /\ (length result < length entries)%nat.
Proof.
  intros S Sc N _ T.
  rewrite (get_all_transactions_eq connect self c S). unfold scanned. rewrite Sc, N.
  eexists. split; [reflexivity|].
  assert (map decoded (l1 ++ (ki, vi) :: l2 ++ (kj, vj) :: l3)
          = map decoded l1 ++ (text kj, text vi)
              :: map decoded l2 ++ (text kj, text vj) :: map decoded l3) as M.
  { rewrite map_app. simpl. rewrite map_app. simpl. unfold decoded at 2 4. simpl.
    rewrite T. reflexivity. }
  assert (map fst (map decoded l3) = map (fun kv => text (fst kv)) l3) as K
    by (rewrite map_map; reflexivity).
  assert (forall v, map decoded l1 ++ (text kj, text vi)
                      :: map decoded l2 ++ (text kj, v) :: map decoded l3
                    = (map decoded l1 ++ (text kj, text vi) :: map decoded l2)
                        ++ (text kj, v) :: map decoded l3) as Assoc.
  { intros v. rewrite <- app_assoc. reflexivity. }
  split; [|split].
  - destruct (in_dec str_eq_dec (text kj) (map fst (map decoded l3))) as [I|NI].
    + destruct (last_assignment _ _ I) as (m1 & v & m2 & E3 & NI).
      assert (In (text kj, v) (map decoded l3)) as I3 by (rewrite E3; apply in_elt).
      apply in_map_iff in I3 as ([k' v'] & E' & I3). injection E' as Ek Ev.
      exists k', v'. split; [right; exact I3|]. split; [exact Ek|].
      rewrite M, E3, Ev.
      rewrite app_comm_cons, (app_comm_cons _ _ (text kj, text vj)), !app_assoc.
      apply dict_get_assign_last, NI.
    + exists kj, vj. split; [left; reflexivity|]. split; [reflexivity|].
      rewrite M, Assoc. apply dict_get_assign_last, NI.
  - intros NI. rewrite M, Assoc. apply dict_get_assign_last. rewrite K. exact NI.
  - rewrite M. eapply Nat.lt_le_trans; [apply length_assign_lt|].
    rewrite <- M, length_map, <- N. apply length_normalized.
Qed.

(** On the sample store with the two colliding raw keys. *)
Lemma C10_colliding_keys_overwrite_witness :
  [xef; xbf; xbd] <> [xff] /\ text [xef; xbf; xbd] = text [xff]
  /\ exists result,
       get_all_transactions unreachable (reader_of colliding) = Ok result
       /\ dict_get (text [xff]) result = Some (text (blit "2"))
       /\ (length result < 2)%nat.
Proof.
  split; [discriminate|]. split; [reflexivity|].
  destruct (C10_colliding_keys_overwrite unreachable (reader_of colliding) colliding
              [EntryBytes [xef; xbf; xbd]; EntryBytes [xff]]
              [] [] [] [xef; xbf; xbd] (blit "1") [xff] (blit "2")
              eq_refl eq_refl eq_refl ltac:(discriminate) eq_refl)
    as (result & H1 & _ & H2 & H3).
  exists result. split; [exact H1|]. split; [|exact H3].
  apply H2. simpl. tauto.
Defined.

(** ** Statistics *)

(** C5.  The common-prefix list holds at most 5 pairs, and exactly 5
    when there are 5 distinct prefixes or more, else one per distinct
    prefix.  It is in descending order of frequency; of two listed
    prefixes with the same frequency the one discovered first during the
    accumulation stands first.  Each listed frequency is the number of
    times the prefix was generated.  No prefix left out is more frequent
    than a listed one, and a prefix left out that is as frequent as a
    listed one was discovered after it: ties at the cut, too, go by the
    order of discovery. *)
Theorem C5_common_prefixes (transactions : dict str) :
  let listed := common_prefixes (get_transactions_stats transactions) in
  let found := discovery transactions in
  (length listed <= 5)%nat
  /\ StronglySorted (descending snd) listed
  /\ (forall i j p q f,
        (i < j)%nat ->
        nth_error listed i = Some (p, f) ->
        nth_error listed j = Some (q, f) ->
        (first_seen p found < first_seen q found)%nat)
  /\ (forall p f, In (p, f) listed -> f = occurrences p found /\ (0 < f)%nat)
  /\ (forall p f q g,
        In (p, f) listed ->
        In (q, g) (items (find_prefixes transactions)) ->
        ~ In (q, g) listed ->
        (g <= f)%nat)
  /\ length listed = Nat.min 5 (length (distinct found))
  /\ (forall p f q,
        In (p, f) listed ->
        In q found -> ~ In q (map fst listed) ->
        (occurrences q found <= f)%nat
        /\ (occurrences q found = f ->
            (first_seen p found < first_seen q found)%nat)).
Proof.
  intros listed found. unfold listed. rewrite stats_common.
  unfold top_prefixes, slice_to.
  set (counts := find_prefixes transactions).
  set (ranked := sorted (items counts) snd true).
  assert (StronglySorted (descending snd) ranked) as Sorted
    by apply sorted_reverse_descending.
  assert (Permutation (items counts) ranked) as Perm by apply sorted_reverse_perm.
  assert (counts = fold_left count_prefix found []) as Counts
    by apply find_prefixes_discovery.
  split; [apply firstn_le_length|].
  split; [apply StronglySorted_firstn, Sorted|].
  split; [|split; [|split; [|split]]].
  - intros i j p q f Lt Hi Hj.
    pose proof (nth_error_before _ _ _ _ _ Lt Hi Hj) as B.
    apply (before_app_l _ _ _ (skipn 5 ranked)) in B. rewrite firstn_skipn in B.
    unfold ranked in B. rewrite Counts in B. apply (ranked_ties _ _ _ _ B).
  - intros p f I. apply in_firstn in I.
    apply (Permutation_in _ (Permutation_sym Perm)) in I.
    unfold items in I. rewrite Counts in I.
    assert (dict_get p (fold_left count_prefix found []) = Some f) as G.
    { apply dict_get_In_NoDup; [apply NoDup_keys_tally; constructor | exact I]. }
    rewrite tally_count in G.
    destruct (occurrences p found =? 0)%nat eqn:Z; [discriminate|].
    apply Nat.eqb_neq in Z. injection G as <-. split; [reflexivity | lia].
  - intros p f q g Ip Iq NI.
    apply (Permutation_in _ Perm) in Iq.
    rewrite <- (firstn_skipn 5 ranked) in Iq, Sorted.
    apply in_app_or in Iq as [Iq|Iq]; [tauto|].
    apply StronglySorted_app_inv in Sorted as (_ & _ & H).
    apply (H _ _ Ip Iq).
  - rewrite length_firstn. f_equal.
    rewrite <- (Permutation_length Perm). unfold items. rewrite Counts.
    apply length_tally.
  - intros p f q Ip Iq NI.
    assert (In (q, occurrences q found) ranked) as Ir.
    { apply (Permutation_in _ Perm). unfold items. rewrite Counts.
      apply dict_get_Some_In. rewrite tally_count.
      apply occurrences_pos in Iq.
      destruct (occurrences q found =? 0)%nat eqn:Z; [|reflexivity].
      apply Nat.eqb_eq in Z. lia. }
    rewrite <- (firstn_skipn 5 ranked) in Ir.
    apply in_app_or in Ir as [Ir|Ir];
      [exfalso; apply NI; apply (in_map fst) in Ir; exact Ir|].
    split.
    + rewrite <- (firstn_skipn 5 ranked) in Sorted.
      apply StronglySorted_app_inv in Sorted as (_ & _ & H).
      apply (H _ _ Ip Ir).
    + intros E. rewrite E in Ir.
      pose proof (before_app_In _ _ _ _ Ip Ir) as B. rewrite firstn_skipn in B.
      unfold ranked in B. rewrite Counts in B. apply (ranked_ties _ _ _ _ B).
Qed.

(** The list for the example TransactionSet of the specification: four
    prefixes of frequency 2 in the order of their discovery, then the
    first discovered of those of frequency 1. *)
Example common_prefixes_blocks :
  common_prefixes (get_transactions_stats blocks)
  = [(lit "b", 2); (lit "bl", 2); (lit "blo", 2); (lit "bloc", 2); (lit "l", 1)]%nat.
Proof. reflexivity. Qed.

(** Six prefixes of frequency 1: the five discovered first are listed. *)
Example common_prefixes_pairs :
  common_prefixes (get_transactions_stats pairs)
  = [(lit "a", 1); (lit "c", 1); (lit "e", 1); (lit "g", 1); (lit "i", 1)]%nat.
Proof. reflexivity. Qed.

(** C6.  The candidate prefixes of a key have the lengths 1 to
    min(4, len(key) - 1), in this order; each is a prefix of the key and
    strictly shorter than it.  The key "block:22" gives "b", "bl", "blo",
    "bloc"; a key of length 1 gives none.  The aggregator counts exactly
    the candidates of the keys of the TransactionSet, key after key. *)
Theorem C6_candidate_prefixes :
  (forall key,
      map (@length codepoint) (candidates key)
      = seq 1 (Nat.min 4 (length key - 1))
      /\ Forall (fun p => startswith key p = true /\ (length p < length key)%nat)
                (candidates key))
  /\ candidates (lit "block:22") = [lit "b"; lit "bl"; lit "blo"; lit "bloc"]
  /\ (forall ch, candidates [ch] = [])
  /\ (forall transactions,
        find_prefixes transactions
        = fold_left count_prefix (flat_map candidates (keys transactions)) []).
Proof.
  split; [|split; [|split]].
  - intros key. split; [apply candidates_lengths | apply candidates_prefixes].
  - reflexivity.
  - reflexivity.
  - exact find_prefixes_discovery.
Qed.

(** C7, as stated, fails: when every value is empty, the entries share the
    maximal value length 0, and the field reports no entry at all, not the
    one met first. *)
Lemma C7_empty_values_report_no_entry :
  max_value_len [(lit "a", []); (lit "b", [])] = 0%nat
  /\ largest_value (get_transactions_stats [(lit "a", []); (lit "b", [])])
     = {| lv_key := []; lv_size := 0 |}
  /\ lv_key (largest_value (get_transactions_stats [(lit "a", []); (lit "b", [])]))
     <> lit "a".
Proof. repeat split; try reflexivity. discriminate. Qed.

(** C7, amended.  The largest-value field is the result of one pass over
    the entries in which the current maximum is replaced only by an entry
    whose value is strictly longer.  When the maximal value length is
    positive, the entry reported is the first one, in iteration order,
    whose value has that length.  When every value is empty, the field
    keeps its initial content, the empty key with size 0. *)
Theorem C7_first_largest_value (transactions : dict str) :
  let reported := largest_value (get_transactions_stats transactions) in
  let longest := max_value_len transactions in
  reported = fold_left larger (items transactions) {| lv_key := []; lv_size := 0 |}
  /\ (forall current kv,
        larger current kv <> current ->
        (lv_size current < length (snd kv))%nat
        /\ larger current kv = {| lv_key := fst kv; lv_size := length (snd kv) |})
  /\ ((0 < longest)%nat ->
      exists front k v rest,
        transactions = front ++ (k, v) :: rest
        /\ length v = longest
        /\ Forall (fun kv => (length (snd kv) < longest)%nat) front
        /\ reported = {| lv_key := k; lv_size := longest |})
  /\ (longest = 0%nat -> reported = {| lv_key := []; lv_size := 0 |}).
Proof.
  intros reported longest. unfold reported, longest. rewrite stats_largest.
  unfold find_largest, items.
  destruct (largest_fold transactions {| lv_key := []; lv_size := 0 |}) as [Keep New].
  split; [reflexivity|]. split; [|split].
  - intros current kv. unfold larger.
    destruct (lv_size current <? length (snd kv))%nat eqn:E; [|congruence].
    apply Nat.ltb_lt in E. auto.
  - exact New.
  - intros Z. apply Keep. simpl. lia.
Qed.

(** On the example TransactionSet of the specification. *)
Lemma C7_first_largest_value_witness :
  (0 < max_value_len blocks)%nat
  /\ largest_value (get_transactions_stats blocks)
     = {| lv_key := lit "block:22"; lv_size := 6 |}
  /\ exists front k v rest,
       blocks = front ++ (k, v) :: rest
       /\ length v = max_value_len blocks
       /\ Forall (fun kv => (length (snd kv) < max_value_len blocks)%nat) front
       /\ largest_value (get_transactions_stats blocks)
          = {| lv_key := k; lv_size := max_value_len blocks |}.
Proof.
  assert (0 < max_value_len blocks)%nat as P by (vm_compute; lia).
  split; [exact P|]. split; [reflexivity|].
  exact (proj1 (proj2 (proj2 (C7_first_largest_value blocks))) P).
Defined.

End Properties.

(* ================================================================== *)
(** * Facts about the UTF-8 codec: arithmetic *)
(* ================================================================== *)

Module CodecFacts.
Import Py View PyFacts Base64Facts.

(** Linear arithmetic with division and remainder by constants. *)
Ltac dlia := zify; Z.to_euclidean_division_equations; lia.

(** Comparisons in hypotheses, as propositions. *)
Ltac props :=
  repeat match goal with
         | H : (_ && _)%bool = true |- _ => apply andb_true_iff in H as [? ?]
         | H : (_ && _)%bool = false |- _ => apply andb_false_iff in H as [?|?]
         | H : (_ <? _) = true |- _ => apply N.ltb_lt in H
         | H : (_ <? _) = false |- _ => apply N.ltb_ge in H
         | H : (_ <=? _) = true |- _ => apply N.leb_le in H
         | H : (_ <=? _) = false |- _ => apply N.leb_gt in H
         | H : (_ =? _) = true |- _ => apply N.eqb_eq in H
         | H : (_ =? _) = false |- _ => apply N.eqb_neq in H
         end.

(** Case analysis on every test of the goal, closing the cases that the
    arithmetic excludes. *)
Ltac tests :=
  repeat match goal with
         | |- context [if ?t then _ else _] =>
             let E := fresh "E" in destruct t eqn:E; props; try (exfalso; dlia)
         end.

(** ** Bit operations as arithmetic *)

Lemma lor_shiftl_add (a k b : N) :
  b < 2 ^ k -> N.lor (N.shiftl a k) b = a * 2 ^ k + b.
Proof.
  intros L. rewrite N.shiftl_mul_pow2.
  assert (N.land (a * 2 ^ k) b = 0) as D.
  { apply N.bits_inj. intros i. rewrite N.land_spec, N.bits_0.
    destruct (N.lt_ge_cases i k) as [Lt|Ge].
    - rewrite N.mul_pow2_bits_low by exact Lt. reflexivity.
    - rewrite <- (N.mod_small b (2 ^ k)) by exact L.
      rewrite N.mod_pow2_bits_high by exact Ge. apply andb_false_r. }
  rewrite (N.add_nocarry_lxor _ _ D). symmetry. apply N.lxor_lor, D.
Qed.

Lemma shiftr_6 (c : N) : N.shiftr c 6 = c / 64.
Proof. apply N.shiftr_div_pow2. Qed.
Lemma shiftr_12 (c : N) : N.shiftr c 12 = c / 4096.
Proof. apply N.shiftr_div_pow2. Qed.
Lemma shiftr_18 (c : N) : N.shiftr c 18 = c / 262144.
Proof. apply N.shiftr_div_pow2. Qed.
Lemma shiftr_0 (c : N) : N.shiftr c 0 = c.
Proof. apply N.shiftr_0_r. Qed.

Lemma land_63 (x : N) : N.land x 0x3F = x mod 64.
Proof. apply (N.land_ones x 6). Qed.
Lemma land_31 (x : N) : N.land x 0x1F = x mod 32.
Proof. apply (N.land_ones x 5). Qed.
Lemma land_15 (x : N) : N.land x 0x0F = x mod 16.
Proof. apply (N.land_ones x 4). Qed.
Lemma land_7 (x : N) : N.land x 0x07 = x mod 8.
Proof. apply (N.land_ones x 3). Qed.

Lemma lor_80 (x : N) : x < 64 -> N.lor 0x80 x = 128 + x.
Proof. intros L. apply (lor_shiftl_add 2 6 x L). Qed.
Lemma lor_C0 (x : N) : x < 32 -> N.lor 0xC0 x = 192 + x.
Proof. intros L. apply (lor_shiftl_add 6 5 x L). Qed.
Lemma lor_E0 (x : N) : x < 16 -> N.lor 0xE0 x = 224 + x.
Proof. intros L. apply (lor_shiftl_add 14 4 x L). Qed.
Lemma lor_F0 (x : N) : x < 8 -> N.lor 0xF0 x = 240 + x.
Proof. intros L. apply (lor_shiftl_add 30 3 x L). Qed.

(** ** The tests of the decoder *)

Lemma is_continuation_spec (b : byte) :
  is_continuation b = true <-> 128 <= b2n b <= 191.
Proof.
  unfold is_continuation, in_range.
  rewrite andb_true_iff, !N.leb_le. reflexivity.
Qed.

Lemma second_ok_spec (b0 b1 : byte) :
  second_ok b0 b1 = true
  <-> 128 <= b2n b1 <= 191
      /\ (b2n b0 = 224 -> 160 <= b2n b1)
      /\ (b2n b0 = 237 -> b2n b1 <= 159)
      /\ (b2n b0 = 240 -> 144 <= b2n b1)
      /\ (b2n b0 = 244 -> b2n b1 <= 143).
Proof.
  unfold second_ok, is_continuation, in_range.
  split.
  - tests; intros H; props; repeat split; intros; lia.
  - intros (R & H1 & H2 & H3 & H4).
    tests; apply andb_true_iff; rewrite !N.leb_le; lia.
Qed.

Lemma utf8_width_spec (b : byte) :
  match utf8_width b with
  | 0%nat => 128 <= b2n b < 194 \/ 245 <= b2n b
  | 1%nat => b2n b < 128
  | 2%nat => 194 <= b2n b < 224
  | 3%nat => 224 <= b2n b < 240
  | 4%nat => 240 <= b2n b < 245
  | _ => False
  end.
Proof. unfold utf8_width. tests; lia. Qed.

Lemma low6_spec (b : byte) : low6 b = b2n b mod 64.
Proof. unfold low6. apply land_63. Qed.

Lemma cp2_spec (b0 b1 : byte) :
  cp2 b0 b1 = (b2n b0 mod 32) * 64 + b2n b1 mod 64.
Proof.
  unfold cp2. rewrite low6_spec, land_31.
  apply (lor_shiftl_add _ 6). change (2 ^ 6) with 64. dlia.
Qed.

Lemma cp3_spec (b0 b1 b2 : byte) :
  cp3 b0 b1 b2 = (b2n b0 mod 16) * 4096 + (b2n b1 mod 64) * 64 + b2n b2 mod 64.
Proof.
  unfold cp3. rewrite !low6_spec, land_15.
  rewrite (lor_shiftl_add _ 6) by (change (2 ^ 6) with 64; dlia).
  rewrite (lor_shiftl_add _ 12) by (change (2 ^ 6) with 64; change (2 ^ 12) with 4096; dlia).
  change (2 ^ 6) with 64; change (2 ^ 12) with 4096. lia.
Qed.

Lemma cp4_spec (b0 b1 b2 b3 : byte) :
  cp4 b0 b1 b2 b3
  = (b2n b0 mod 8) * 262144 + (b2n b1 mod 64) * 4096
    + (b2n b2 mod 64) * 64 + b2n b3 mod 64.
Proof.
  unfold cp4. rewrite !low6_spec, land_7.
  rewrite (lor_shiftl_add _ 6) by (change (2 ^ 6) with 64; dlia).
  rewrite (lor_shiftl_add _ 12)
    by (change (2 ^ 6) with 64; change (2 ^ 12) with 4096; dlia).
  rewrite (lor_shiftl_add _ 18)
    by (change (2 ^ 6) with 64; change (2 ^ 12) with 4096;
        change (2 ^ 18) with 262144; dlia).
  change (2 ^ 6) with 64; change (2 ^ 12) with 4096; change (2 ^ 18) with 262144.
  lia.
Qed.

(** ** One step of the decoder *)

Lemma decode_step (mode : errors) (b0 : byte) (r0 : bytes) :
  decode mode (b0 :: r0)
  = ltac:(let t := eval cbn [decode] in (decode mode (b0 :: r0)) in exact t).
Proof. reflexivity. Qed.

Lemma decode_one (mode : errors) (b0 : byte) (r : bytes) :
  utf8_width b0 = 1%nat ->
  decode mode (b0 :: r) = emit (b2n b0) (decode mode r).
Proof. intros W. rewrite decode_step, W. reflexivity. Qed.

Lemma decode_two (mode : errors) (b0 b1 : byte) (r : bytes) :
  utf8_width b0 = 2%nat -> second_ok b0 b1 = true ->
  decode mode (b0 :: b1 :: r) = emit (cp2 b0 b1) (decode mode r).
Proof. intros W S. rewrite decode_step, W, S. reflexivity. Qed.

Lemma decode_three (mode : errors) (b0 b1 b2 : byte) (r : bytes) :
  utf8_width b0 = 3%nat -> second_ok b0 b1 = true -> is_continuation b2 = true ->
  decode mode (b0 :: b1 :: b2 :: r) = emit (cp3 b0 b1 b2) (decode mode r).
Proof. intros W S C. rewrite decode_step, W, S, C. reflexivity. Qed.

Lemma decode_four (mode : errors) (b0 b1 b2 b3 : byte) (r : bytes) :
  utf8_width b0 = 4%nat -> second_ok b0 b1 = true ->
  is_continuation b2 = true -> is_continuation b3 = true ->
  decode mode (b0 :: b1 :: b2 :: b3 :: r) = emit (cp4 b0 b1 b2 b3) (decode mode r).
Proof. intros W S C2 C3. rewrite decode_step, W, S, C2, C3. reflexivity. Qed.

(** ** The encoder, by ranges of code points *)

Lemma encode_codepoint_spec (c : codepoint) :
  match encode_codepoint c with
  | Ok bc =>
      (c < 128 /\ bc = [n2b c])
      \/ (128 <= c < 2048
          /\ bc = [n2b (192 + c / 64); n2b (128 + c mod 64)])
      \/ (2048 <= c < 65536 /\ ~ 55296 <= c <= 57343
          /\ bc = [n2b (224 + c / 4096); n2b (128 + (c / 64) mod 64);
                   n2b (128 + c mod 64)])
      \/ (65536 <= c <= 1114111
          /\ bc = [n2b (240 + c / 262144); n2b (128 + (c / 4096) mod 64);
                   n2b (128 + (c / 64) mod 64); n2b (128 + c mod 64)])
  | Raise _ => 55296 <= c <= 57343 \/ 1114111 < c
  end.
Proof.
  unfold encode_codepoint, is_surrogate, cont6.
  rewrite ?shiftr_0, ?shiftr_6, ?shiftr_12, ?shiftr_18, ?land_63.
  rewrite !(lor_80 (_ mod 64)) by dlia.
  tests.
  - left. split; [lia | reflexivity].
  - right; left. split; [lia|]. rewrite lor_C0 by dlia. reflexivity.
  - left. lia.
  - right; right; left. split; [lia|]. split; [lia|].
    rewrite lor_E0 by dlia. reflexivity.
  - right; right; left. split; [lia|]. split; [lia|].
    rewrite lor_E0 by dlia. reflexivity.
  - right; right; right. split; [lia|]. rewrite lor_F0 by dlia. reflexivity.
  - right. lia.
Qed.

(** The width of a byte given by its value. *)
Ltac width_of X :=
  let H := fresh "H" in
  pose proof (utf8_width_spec (n2b X)) as H;
  rewrite (b2n_n2b X) in H by dlia;
  destruct (utf8_width (n2b X)) as [|[|[|[|[|?]]]]];
  try (exfalso; dlia); try contradiction; clear H.

(** ** Encoding, then decoding *)

(** The decoder reads the encoding of a code point as that code point and
    goes on behind it, under both error handlers. *)
Lemma decode_encoded_codepoint (c : codepoint) (bc : bytes) :
  encode_codepoint c = Ok bc ->
  forall mode rest, decode mode (bc ++ rest) = emit c (decode mode rest).
Proof.
  intros E mode rest. pose proof (encode_codepoint_spec c) as S. rewrite E in S.
  destruct S as [[R ->]|[[R ->]|[(R & NS & ->)|[R ->]]]]; cbn [app].
  - rewrite decode_one; [rewrite b2n_n2b by lia; reflexivity|].
    width_of c. reflexivity.
  - rewrite decode_two.
    + rewrite cp2_spec, !b2n_n2b by dlia. f_equal. dlia.
    + width_of (192 + c / 64). reflexivity.
    + apply second_ok_spec. rewrite !b2n_n2b by dlia. dlia.
  - rewrite decode_three.
    + rewrite cp3_spec, !b2n_n2b by dlia. f_equal. dlia.
    + width_of (224 + c / 4096). reflexivity.
    + apply second_ok_spec. rewrite !b2n_n2b by dlia. dlia.
    + apply is_continuation_spec. rewrite !b2n_n2b by dlia. dlia.
  - rewrite decode_four.
    + rewrite cp4_spec, !b2n_n2b by dlia. f_equal. dlia.
    + width_of (240 + c / 262144). reflexivity.
    + apply second_ok_spec. rewrite !b2n_n2b by dlia. dlia.
    + apply is_continuation_spec. rewrite !b2n_n2b by dlia. dlia.
    + apply is_continuation_spec. rewrite !b2n_n2b by dlia. dlia.
Qed.

Lemma encode_cons (c : codepoint) (s : str) (b : bytes) :
  encode (c :: s) = Ok b ->
  exists bc bs, encode_codepoint c = Ok bc /\ encode s = Ok bs /\ b = bc ++ bs.
Proof.
  cbn [encode]. destruct (encode_codepoint c) as [bc|]; [|discriminate].
  cbn [bind]. destruct (encode s) as [bs|]; [|discriminate].
  cbn [bind]. intros [= <-]. exists bc, bs. auto.
Qed.

(** Bytes that begin with the encoding of a str decode to a text that
    begins with the str. *)
Lemma decode_encoded_app (s : str) :
  forall b, encode s = Ok b ->
  forall mode rest,
    decode mode (b ++ rest) = bind (decode mode rest) (fun t => Ok (s ++ t)).
Proof.
  induction s as [|c s IH]; intros b E mode rest.
  - injection E as <-. simpl. destruct (decode mode rest); reflexivity.
  - apply encode_cons in E as (bc & bs & Ec & Es & ->).
    rewrite <- app_assoc, (decode_encoded_codepoint c bc Ec), (IH bs Es).
    destruct (decode mode rest); reflexivity.
Qed.

(** [s.encode('utf-8').decode('utf-8')] is [s]. *)
Lemma decode_encode (s : str) (b : bytes) :
  encode s = Ok b -> decode strict b = Ok s /\ text b = s.
Proof.
  intros E. pose proof (decode_encoded_app s b E) as H.
  split.
  - specialize (H strict []). rewrite app_nil_r in H. rewrite H. simpl.
    rewrite app_nil_r. reflexivity.
  - unfold text. specialize (H replace []). rewrite app_nil_r in H. rewrite H.
    simpl. apply app_nil_r.
Qed.

Lemma text_encoded_app (s : str) (b rest : bytes) :
  encode s = Ok b -> text (b ++ rest) = s ++ text rest.
Proof.
  intros E. unfold text at 1. rewrite (decode_encoded_app s b E).
  rewrite decode_replace_text. reflexivity.
Qed.

(** The first byte of an encoding is no continuation byte. *)
Lemma encode_starts_a_sequence (s : str) (b0 : byte) (r : bytes) :
  encode s = Ok (b0 :: r) -> is_continuation b0 = false.
Proof.
  destruct s as [|c s]; [discriminate|]. intros E.
  apply encode_cons in E as (bc & bs & Ec & _ & E).
  pose proof (encode_codepoint_spec c) as S. rewrite Ec in S.
  assert (forall X, X < 128 \/ 192 <= X < 256 -> is_continuation (n2b X) = false) as NC.
  { intros X R. destruct (is_continuation (n2b X)) eqn:C; [|reflexivity].
    apply is_continuation_spec in C. rewrite b2n_n2b in C by lia. lia. }
  destruct S as [[R ->]|[[R ->]|[(R & NS & ->)|[R ->]]]];
    apply (f_equal (@hd byte x00)) in E; cbn [hd app] in E; rewrite E;
    apply NC; dlia.
Qed.

(** ** Decoding, then encoding *)

(** What the tests of the decoder say about the bytes of a sequence. *)
Ltac sequence_facts :=
  repeat match goal with
         | W : utf8_width ?b = _ |- _ =>
             let H := fresh "H" in
             pose proof (utf8_width_spec b) as H; rewrite W in H; clear W
         | S : second_ok _ _ = true |- _ => apply second_ok_spec in S
         | C : is_continuation _ = true |- _ => apply is_continuation_spec in C
         end.

Lemma n2b_eq (X : N) (b : byte) : X = b2n b -> n2b X = b.
Proof. intros ->. apply n2b_b2n. Qed.

Lemma encode_one (b0 : byte) :
  utf8_width b0 = 1%nat -> encode_codepoint (b2n b0) = Ok [b0].
Proof.
  intros W. sequence_facts.
  pose proof (encode_codepoint_spec (b2n b0)) as S.
  destruct (encode_codepoint (b2n b0)) as [bc|];
    [destruct S as [[R ->]|[[R ->]|[(R & NS & ->)|[R ->]]]]|];
    try (exfalso; dlia).
  rewrite n2b_b2n. reflexivity.
Qed.

Lemma encode_two (b0 b1 : byte) :
  utf8_width b0 = 2%nat -> second_ok b0 b1 = true ->
  encode_codepoint (cp2 b0 b1) = Ok [b0; b1].
Proof.
  intros W S1. sequence_facts. pose proof (b2n_bound b0). pose proof (b2n_bound b1).
  pose proof (encode_codepoint_spec (cp2 b0 b1)) as S. rewrite cp2_spec in *.
  destruct (encode_codepoint _) as [bc|];
    [destruct S as [[R ->]|[[R ->]|[(R & NS & ->)|[R ->]]]]|];
    try (exfalso; dlia).
  f_equal. repeat (apply (f_equal2 cons); [apply n2b_eq; dlia|]). reflexivity.
Qed.

Lemma encode_three (b0 b1 b2 : byte) :
  utf8_width b0 = 3%nat -> second_ok b0 b1 = true -> is_continuation b2 = true ->
  encode_codepoint (cp3 b0 b1 b2) = Ok [b0; b1; b2].
Proof.
  intros W S1 C2. sequence_facts.
  pose proof (b2n_bound b0). pose proof (b2n_bound b1). pose proof (b2n_bound b2).
  pose proof (encode_codepoint_spec (cp3 b0 b1 b2)) as S. rewrite cp3_spec in *.
  destruct (encode_codepoint _) as [bc|];
    [destruct S as [[R ->]|[[R ->]|[(R & NS & ->)|[R ->]]]]|];
    try (exfalso; dlia).
  f_equal. repeat (apply (f_equal2 cons); [apply n2b_eq; dlia|]). reflexivity.
Qed.

Lemma encode_four (b0 b1 b2 b3 : byte) :
  utf8_width b0 = 4%nat -> second_ok b0 b1 = true ->
  is_continuation b2 = true -> is_continuation b3 = true ->
  encode_codepoint (cp4 b0 b1 b2 b3) = Ok [b0; b1; b2; b3].
Proof.
  intros W S1 C2 C3. sequence_facts.
  pose proof (b2n_bound b0). pose proof (b2n_bound b1).
  pose proof (b2n_bound b2). pose proof (b2n_bound b3).
  pose proof (encode_codepoint_spec (cp4 b0 b1 b2 b3)) as S. rewrite cp4_spec in *.
  destruct (encode_codepoint _) as [bc|];
    [destruct S as [[R ->]|[[R ->]|[(R & NS & ->)|[R ->]]]]|];
    try (exfalso; dlia).
  f_equal. repeat (apply (f_equal2 cons); [apply n2b_eq; dlia|]). reflexivity.
Qed.

(** Case analysis that follows one step of the decoder, keeping the
    outcome of each test. *)
Ltac decode_tests :=
  repeat (cbv beta match;
          match goal with
          | |- context [match ?r with [] => _ | _ :: _ => _ end] =>
              is_var r; destruct r
          | |- context [if ?c then _ else _] =>
              let T := fresh "T" in destruct c eqn:T
          end);
  cbv beta match.

(** Bytes that are valid UTF-8 are the encoding of their text. *)
Lemma encode_decoded_upto (n : nat) :
  forall b s, (length b <= n)%nat -> decode strict b = Ok s -> encode s = Ok b.
Proof.
  induction n as [|n IH]; intros b s L.
  - destruct b; [intros [= <-]; reflexivity | simpl in L; lia].
  - destruct b as [|b0 r0]; [intros [= <-]; reflexivity|].
    rewrite decode_step.
    destruct (utf8_width b0) as [|[|[|[|[|w]]]]] eqn:W; decode_tests;
      try (intros H; discriminate H);
      match goal with
      | |- emit _ (decode strict ?r) = Ok _ -> _ =>
          let t := fresh "t" in
          let E := fresh "E" in
          destruct (decode strict r) as [t|] eqn:E; [|intros H; discriminate H];
          intros [= <-]; cbn [encode];
          first [ rewrite (encode_one _ W)
                | rewrite (encode_two _ _ W) by assumption
                | rewrite (encode_three _ _ _ W) by assumption
                | rewrite (encode_four _ _ _ _ W) by assumption ];
          cbn [bind]; rewrite (IH r t) by (simpl in L |- *; lia || exact E);
          reflexivity
      end.
Qed.

Lemma encode_decoded (b : bytes) (s : str) :
  decode strict b = Ok s -> encode s = Ok b.
Proof. apply (encode_decoded_upto (length b)); lia. Qed.

(** On valid UTF-8, decoding is injective. *)
Lemma text_injective (b1 b2 : bytes) (s1 s2 : str) :
  decode strict b1 = Ok s1 -> decode strict b2 = Ok s2 ->
  text b1 = text b2 -> b1 = b2.
Proof.
  intros D1 D2 T.
  pose proof (decode_strict_replace _ _ D1) as R1.
  pose proof (decode_strict_replace _ _ D2) as R2.
  unfold text in T. rewrite R1, R2 in T. subst s2.
  apply encode_decoded in D1, D2. congruence.
Qed.

(** ** Decoding across a sequence boundary *)

Lemma second_ok_continuation (b0 b1 : byte) :
  second_ok b0 b1 = true -> is_continuation b1 = true.
Proof.
  intros S. apply second_ok_spec in S. apply is_continuation_spec. tauto.
Qed.

(** The part of a list expression that stands before [w0 :: w']. *)
Ltac before_boundary w0 w' t :=
  match t with
  | w0 :: w' => constr:(@nil byte)
  | ?r ++ w0 :: w' => constr:(r)
  | ?b :: ?t' => let u := before_boundary w0 w' t' in constr:(b :: u)
  end.

(** Bytes that start with a byte that is no continuation byte do not take
    part in the decoding of the bytes before them. *)
Lemma text_app_boundary_upto (w0 : byte) (w' : bytes) (n : nat) :
  is_continuation w0 = false ->
  forall u x, (length u <= n)%nat -> x = u ++ w0 :: w' ->
              decode replace x = Ok (text u ++ text (w0 :: w')).
Proof.
  intros NC. induction n as [|n IH]; intros u x L ->.
  - destruct u; [apply decode_replace_text | simpl in L; lia].
  - destruct u as [|b0 r0]; [apply decode_replace_text|].
    assert (forall b, second_ok b w0 = false) as NS.
    { intros b. destruct (second_ok b w0) eqn:S; [|reflexivity].
      apply second_ok_continuation in S. congruence. }
    rewrite <- app_comm_cons. rewrite (decode_step replace b0 (r0 ++ w0 :: w')).
    unfold text at 1. rewrite (decode_step replace b0 r0).
    destruct (utf8_width b0) as [|[|[|[|[|w]]]]] eqn:W;
      repeat (cbv beta match; cbn [app];
              match goal with
              | |- context [if second_ok ?b w0 then _ else _] => rewrite (NS b)
              | |- context [if is_continuation w0 then _ else _] => rewrite NC
              | |- context [match ?r ++ _ with [] => _ | _ :: _ => _ end] =>
                  is_var r; destruct r
              | |- context [match ?r with [] => _ | _ :: _ => _ end] =>
                  is_var r; destruct r
              | |- context [if ?c then _ else _] => destruct c
              end);
      cbv beta match; cbn [app];
      repeat match goal with
             | |- context [decode replace ?t] =>
                 let u := before_boundary w0 w' t in
                 rewrite (IH u t) by (simpl in L |- *; lia || reflexivity)
             end;
      rewrite ?decode_replace_text; reflexivity.
Qed.

Lemma text_app_boundary (u w : bytes) :
  (forall w0 w', w = w0 :: w' -> is_continuation w0 = false) ->
  text (u ++ w) = text u ++ text w.
Proof.
  intros NC. destruct w as [|w0 w'].
  - rewrite !app_nil_r. reflexivity.
  - unfold text at 1.
    rewrite (text_app_boundary_upto w0 w' (length u) (NC _ _ eq_refl) u _ (le_n _) eq_refl).
    reflexivity.
Qed.

(** Bytes that end with the encoding of a str decode to a text that ends
    with the str. *)
Lemma text_app_encoded (u b : bytes) (s : str) :
  encode s = Ok b -> text (u ++ b) = text u ++ s.
Proof.
  intros E. rewrite text_app_boundary.
  - rewrite (proj2 (decode_encode s b E)). reflexivity.
  - intros w0 w' ->. apply (encode_starts_a_sequence s w0 w' E).
Qed.

End CodecFacts.

(* ================================================================== *)
(** * Facts about searching and splitting *)
(* ================================================================== *)

Module TextFacts.
Import Py PyText View PyFacts.

Lemma startswith_app (sep rest : str) : startswith (sep ++ rest) sep = true.
Proof. apply startswith_spec. exists rest. reflexivity. Qed.

Lemma contains_cons (ch : codepoint) (s sep : str) :
  contains (ch :: s) sep = startswith (ch :: s) sep || contains s sep.
Proof. reflexivity. Qed.

(** A str without the first character of the separator holds no
    separator. *)
Lemma contains_without_head (s : str) (c0 : codepoint) (sep' : str) :
  ~ In c0 s -> contains s (c0 :: sep') = false.
Proof.
  induction s as [|ch s IH]; intros NI; [reflexivity|].
  rewrite contains_cons. cbn [startswith].
  replace (ch =? c0) with false
    by (symmetry; apply N.eqb_neq; intros ->; apply NI; left; reflexivity).
  cbn [andb orb]. apply IH. intros I. apply NI. right; exact I.
Qed.

(** While a separator just found is passed, nothing is added. *)
Lemma split_scan_skip (sep x s piece : str) :
  split_scan sep (x ++ s) (length x) piece = split_scan sep s 0 piece.
Proof.
  induction x as [|ch x IH]; [reflexivity|]. cbn [app length split_scan]. exact IH.
Qed.

(** At an occurrence of the separator the piece under way ends. *)
Lemma split_scan_at_separator (c0 : codepoint) (sep' rest piece : str) :
  split_scan (c0 :: sep') ((c0 :: sep') ++ rest) 0 piece
  = rev piece :: split_scan (c0 :: sep') rest 0 [].
Proof.
  cbn [app split_scan].
  change (startswith (c0 :: sep' ++ rest) (c0 :: sep'))
    with (startswith ((c0 :: sep') ++ rest) (c0 :: sep')).
  rewrite startswith_app. f_equal.
  replace (length (c0 :: sep') - 1)%nat with (length sep') by (simpl; lia).
  apply split_scan_skip.
Qed.

(** Without an occurrence of the separator there is one piece. *)
Lemma split_scan_no_separator (sep s piece : str) :
  contains s sep = false -> split_scan sep s 0 piece = [rev piece ++ s].
Proof.
  revert piece; induction s as [|ch s IH]; intros piece C.
  - cbn [split_scan]. rewrite app_nil_r. reflexivity.
  - rewrite contains_cons in C. apply orb_false_iff in C as [C1 C2].
    cbn [split_scan]. rewrite C1, (IH _ C2). cbn [rev].
    rewrite <- app_assoc. reflexivity.
Qed.

(** Characters that differ from the first character of the separator go
    to the piece under way. *)
Lemma split_scan_before_head (c0 : codepoint) (sep' a s piece : str) :
  ~ In c0 a ->
  split_scan (c0 :: sep') (a ++ s) 0 piece
  = split_scan (c0 :: sep') s 0 (rev a ++ piece).
Proof.
  revert piece; induction a as [|ch a IH]; intros piece NI; [reflexivity|].
  cbn [app split_scan startswith].
  replace (ch =? c0) with false
    by (symmetry; apply N.eqb_neq; intros ->; apply NI; left; reflexivity).
  cbn [andb]. rewrite IH by (intros I; apply NI; right; exact I).
  cbn [rev]. rewrite <- app_assoc. reflexivity.
Qed.

(** With a separator of one character there is one piece more than there
    are occurrences of the character. *)
Lemma split_scan_count (c : codepoint) (s piece : str) :
  length (split_scan [c] s 0 piece) = S (length (filter (N.eqb c) s)).
Proof.
  revert piece; induction s as [|ch s IH]; intros piece; [reflexivity|].
  cbn [split_scan startswith filter length]. rewrite Nat.sub_diag.
  rewrite (N.eqb_sym c ch).
  destruct (ch =? c); cbn [andb length]; rewrite IH; reflexivity.
Qed.

Lemma contains_char (c : codepoint) (s : str) :
  contains s [c] = true <-> In c s.
Proof.
  induction s as [|ch s IH]; [split; [discriminate | intros []]|].
  rewrite contains_cons, orb_true_iff, IH. cbn [startswith].
  rewrite andb_true_r, N.eqb_eq. simpl. tauto.
Qed.

(** [(a + sep + b).split(sep)] is [[a, b]] when [a] lacks the first
    character of [sep] and [b] holds no [sep]. *)
Lemma split_once (c0 : codepoint) (sep' a b : str) :
  ~ In c0 a -> contains b (c0 :: sep') = false ->
  split (a ++ (c0 :: sep') ++ b) (c0 :: sep') = Ok [a; b].
Proof.
  intros NI C. unfold split. f_equal.
  rewrite split_scan_before_head by exact NI.
  rewrite split_scan_at_separator, split_scan_no_separator by exact C.
  cbn [rev app]. rewrite app_nil_r, rev_involutive. reflexivity.
Qed.

Lemma contains_app_separator (a sep b : str) : contains (a ++ sep ++ b) sep = true.
Proof.
  induction a as [|ch a IH].
  - cbn [app]. destruct (sep ++ b) eqn:E.
    + destruct sep; [reflexivity | discriminate].
    + rewrite <- E. destruct sep as [|c0 sep'].
      * rewrite E. reflexivity.
      * change (contains ((c0 :: sep') ++ b) (c0 :: sep'))
          with (startswith ((c0 :: sep') ++ b) (c0 :: sep')
                || contains (sep' ++ b) (c0 :: sep')).
        rewrite startswith_app. reflexivity.
  - cbn [app]. rewrite contains_cons, IH. apply orb_true_r.
Qed.

End TextFacts.

(* ================================================================== *)
(** * Facts about connect and the helpers *)
(* ================================================================== *)

Module HelperFacts.
Import Py PyText Ops OpsHelpers View PyFacts OpsFacts TextFacts.

Section Connection.
Variable int : str -> outcome Z.
Variable lib : library.

Lemma with_url_same (self : ImmuDBReader) : with_url self (url self) = self.
Proof. destruct self; reflexivity. Qed.

Lemma strip_scheme_absent (self : ImmuDBReader) :
  contains (url self) (lit "://") = false -> strip_scheme self = (self, Ok tt).
Proof. unfold strip_scheme. intros ->. reflexivity. Qed.

Lemma strip_scheme_present (self : ImmuDBReader) (scheme rest : str) :
  url self = scheme ++ lit "://" ++ rest ->
  ~ In 58 scheme -> contains rest (lit "://") = false ->
  strip_scheme self = (with_url self rest, Ok tt).
Proof.
  intros E NI C. unfold strip_scheme. rewrite E.
  rewrite contains_app_separator.
  change (lit "://") with (58 :: lit "//") in *.
  pose proof (split_once 58 (lit "//") scheme rest NI C) as P.
  match goal with
  | |- context [bind ?t _] => replace t with (Ok [scheme; rest]) by (symmetry; exact P)
  end.
  reflexivity.
Qed.

Lemma host_port_without_colon (u : str) :
  ~ In 58 u -> host_port int u = Ok (u, 3322%Z).
Proof.
  intros NI. unfold host_port.
  replace (contains u (lit ":")) with false; [reflexivity|].
  symmetry. apply (contains_without_head u 58 [] NI).
Qed.

Lemma host_port_one_colon (host port : str) :
  ~ In 58 host -> ~ In 58 port ->
  host_port int (host ++ lit ":" ++ port)
  = bind (int port) (fun n => Ok (host, n)).
Proof.
  intros Nh Np. unfold host_port.
  rewrite contains_app_separator.
  change (lit ":") with [58] in *.
  pose proof (split_once 58 [] host port Nh (contains_without_head port 58 [] Np)) as P.
  match goal with
  | |- context [bind ?t _] => replace t with (Ok [host; port]) by (symmetry; exact P)
  end.
  reflexivity.
Qed.

Lemma host_port_more_colons (u : str) :
  (2 <= length (filter (N.eqb 58) u))%nat -> host_port int u = Raise ValueError.
Proof.
  intros L. unfold host_port.
  assert (contains u (lit ":") = true) as ->.
  { apply (contains_char 58). destruct (filter (N.eqb 58) u) as [|x l] eqn:F;
      [simpl in L; lia|].
    assert (In x (filter (N.eqb 58) u)) as I by (rewrite F; left; reflexivity).
    apply filter_In in I as [I E]. apply N.eqb_eq in E. subst x. exact I. }
  unfold split. change (lit ":") with [58]. cbn [bind].
  pose proof (split_scan_count 58 u []) as C.
  match goal with
  | |- context [split_scan ?sep u 0 []] =>
      change (length (split_scan sep u 0 []) = S (length (filter (N.eqb 58) u))) in C;
      destruct (split_scan sep u 0 []) as [|a [|b [|c l]]]
  end; simpl in C; try lia; reflexivity.
Qed.

(** On success the reader holds the session that is returned. *)
Lemma open_session_client (self reader : ImmuDBReader) (host : str) (port : Z)
      (c : ImmudbClient) :
  open_session lib self host port = (reader, Ok c) -> client reader = Some c.
Proof.
  unfold open_session.
  destruct (ImmudbClient_new lib (address host port)) as [c0|]; [|discriminate].
  destruct (login lib c0 (lit "immudb") (lit "immudb")) as [c1 [e|]]; [discriminate|].
  destruct (useDatabase lib c1 (db_name self)) as [c2 [e|]]; [discriminate|].
  intros [= <- <-]. reflexivity.
Qed.

Lemma connect_client (self reader : ImmuDBReader) (c : ImmudbClient) :
  connect int lib self = (reader, Ok c) -> client reader = Some c.
Proof.
  unfold connect. destruct (strip_scheme self) as [self1 [[]|e]]; [|discriminate].
  destruct (host_port int (url self1)) as [[host port]|e]; [|discriminate].
  apply open_session_client.
Qed.

End Connection.

(** ** JSON text *)

Lemma hexdigit_printable (x : N) : printable (hexdigit (N.land x 15)).
Proof.
  change 15 with (N.ones 4). rewrite N.land_ones.
  assert (x mod 2 ^ 4 < 16) as L by (apply N.mod_upper_bound; discriminate).
  generalize dependent (x mod 2 ^ 4). intros m L.
  unfold hexdigit, printable.
  destruct (N.ltb_spec m 10); lia.
Qed.

Lemma hex4_printable (n : N) : Forall printable (hex4 n).
Proof. unfold hex4. repeat constructor; apply hexdigit_printable. Qed.

Lemma json_char_printable (ch : codepoint) : Forall printable (json_char ch).
Proof.
  unfold json_char.
  destruct ((32 <=? ch) && (ch <=? 126) && negb (ch =? 92) && negb (ch =? 34)) eqn:P.
  - apply andb_true_iff in P as [P _]. apply andb_true_iff in P as [P _].
    apply andb_true_iff in P as [P1 P2]. apply N.leb_le in P1, P2.
    repeat constructor; assumption.
  - repeat match goal with
           | |- context [if ?t then _ else _] => destruct t
           end;
      repeat (apply Forall_app; split);
      try apply hex4_printable;
      repeat constructor; unfold printable; lia.
Qed.

Lemma json_string_printable (s : str) : Forall printable (json_string s).
Proof.
  unfold json_string. apply Forall_app. split; [repeat constructor; unfold printable; lia|].
  apply Forall_app. split; [|repeat constructor; unfold printable; lia].
  induction s as [|ch s IH]; [constructor|].
  cbn [flat_map]. apply Forall_app. split; [apply json_char_printable | exact IH].
Qed.

Lemma join_items_printable (l : list str) :
  Forall (Forall printable) l -> Forall printable (join_items l).
Proof.
  induction 1 as [|x l Hx F IH]; [constructor|].
  destruct l as [|y l]; [exact Hx|].
  change (join_items (x :: y :: l)) with (x ++ [44; 32] ++ join_items (y :: l)).
  apply Forall_app. split; [exact Hx|].
  apply Forall_app. split; [repeat constructor; unfold printable; lia | exact IH].
Qed.

Lemma digits_printable (u : Decimal.uint) : Forall printable (digits u).
Proof.
  induction u; cbn [digits]; constructor; try assumption; unfold printable; lia.
Qed.

Lemma str_of_int_printable (n : Z) : Forall printable (str_of_int n).
Proof.
  unfold str_of_int. destruct (Z.to_int n); [apply digits_printable|].
  constructor; [unfold printable; lia | apply digits_printable].
Qed.

End HelperFacts.

(* ================================================================== *)
(** * Further properties of the reader *)
(* ================================================================== *)

Module ReaderProperties.
Import Py Ops View Samples MoreSamples PyFacts Base64Facts OpsFacts CodecFacts.

(** ** Prefix search *)

(** X1.  With the empty prefix, [get_by_prefix] returns what
    [get_all_transactions] returns. *)
Theorem empty_prefix_is_full_scan
        (connect : ImmuDBReader -> outcome ImmudbClient) (self : ImmuDBReader) :
  get_by_prefix connect self [] = get_all_transactions connect self.
Proof.
  destruct (ensure_client connect self) as [c|ex] eqn:S.
  - rewrite (get_by_prefix_eq connect self c S [] [] eq_refl).
    rewrite (get_all_transactions_eq connect self c S).
    rewrite filter_true; reflexivity.
  - unfold get_by_prefix, get_all_transactions. rewrite S. reflexivity.
Qed.

(** X2.  When every raw key that the prefix-restricted scan yields starts with
    the UTF-8 bytes of the prefix, the re-check on the decoded key drops
    no entry. *)
Theorem prefix_recheck_keeps_matching_keys
        (connect : ImmuDBReader -> outcome ImmudbClient)
        (self : ImmuDBReader) (c : ImmudbClient) (prefix : str) (pfx : bytes) :
  ensure_client connect self = Ok c ->
  encode prefix = Ok pfx ->
  (forall kv, In kv (normalized c (scanned c pfx)) ->
              exists rest, fst kv = pfx ++ rest) ->
  get_by_prefix connect self prefix
  = Ok (assign (map decoded (normalized c (scanned c pfx))) []).
Proof.
  intros S E H. rewrite (get_by_prefix_eq connect self c S prefix pfx E).
  f_equal. f_equal.
  generalize (normalized c (scanned c pfx)) H. clear H.
  induction l as [|kv l IH]; intros H; [reflexivity|].
  cbn [map filter].
  destruct (H kv (or_introl eq_refl)) as [rest Ek].
  assert (startswith (fst (decoded kv)) prefix = true) as P.
  { apply startswith_spec. exists (text rest). unfold decoded. cbn [fst].
    rewrite Ek. apply (text_encoded_app prefix pfx rest E). }
  rewrite P. f_equal. apply IH. intros kv' I. apply H. right; exact I.
Qed.

(** On the sample ledger, with the prefix "block:". *)
Lemma prefix_recheck_keeps_matching_keys_witness :
  get_by_prefix unreachable (reader_of ledger) (lit "block:")
  = Ok [(lit "block:1", lit "abc"); (lit "block:22", lit "abcdef")].
Proof.
  rewrite (prefix_recheck_keeps_matching_keys unreachable (reader_of ledger) ledger
             (lit "block:") (blit "block:") eq_refl eq_refl).
  - reflexivity.
  - intros kv H. vm_compute in H.
    destruct H as [<-|[<-|[]]]; eexists; cbn [fst]; reflexivity.
Defined.

(** ** Suffix search *)

(** X3.  Every key [get_by_suffix] returns ends, as text, with the suffix. *)
Theorem suffix_keys_end_with_suffix
        (connect : ImmuDBReader -> outcome ImmudbClient)
        (self : ImmuDBReader) (suffix : str) (result : TransactionSet) :
  get_by_suffix connect self suffix = Ok result ->
  forall k, In k (keys result) -> exists u, k = u ++ suffix.
Proof.
  intros H k I.
  destruct (ensure_client connect self) as [c|ex] eqn:S;
    [|unfold get_by_suffix in H; rewrite S in H; discriminate H].
  destruct (encode suffix) as [sfx|ex] eqn:E;
    [|unfold get_by_suffix in H; rewrite S in H; simpl in H; rewrite E in H;
      discriminate H].
  rewrite (get_by_suffix_eq connect self c S suffix sfx E) in H.
  injection H as <-. apply in_keys_assign in I as [I|[]].
  rewrite map_map in I. apply in_map_iff in I as (kv & <- & I).
  apply filter_In in I as [_ I]. apply endswith_spec in I as [u Eu].
  exists (text u). unfold decoded. cbn [fst]. rewrite Eu.
  apply (text_app_encoded u sfx suffix E).
Qed.

(** On the sample ledger, with the suffix "9". *)
Lemma suffix_keys_end_with_suffix_witness :
  exists u, lit "log:9" = u ++ lit "9".
Proof.
  apply (suffix_keys_end_with_suffix unreachable (reader_of ledger) (lit "9")
           [(lit "log:9", lit "x")] eq_refl).
  left; reflexivity.
Defined.

(** ** Stores of valid UTF-8 *)

Lemma length_assign_fresh {V} (kvs : list (str * V)) (d : dict V) :
  NoDup (map fst kvs) ->
  (forall k, In k (map fst kvs) -> ~ In k (keys d)) ->
  length (assign kvs d) = (length kvs + length d)%nat.
Proof.
  revert d; induction kvs as [|[k v] kvs IH]; intros d ND F; [reflexivity|].
  cbn [map fst] in ND, F. inversion ND as [|? ? NI ND']; subst.
  cbn [assign fold_left fst snd]. fold (assign kvs (dict_set k v d)).
  rewrite IH.
  - rewrite length_dict_set.
    destruct (dict_in k d) eqn:I; [|simpl; lia].
    apply dict_in_keys in I. exfalso. apply (F k); [left; reflexivity | exact I].
  - exact ND'.
  - intros k' I'. rewrite keys_dict_set.
    destruct (dict_in k d); [apply F; right; exact I'|].
    rewrite in_app_iff. intros [I|[<-|[]]]; [|contradiction].
    apply (F k'); [right; exact I' | exact I].
Qed.

Lemma NoDup_decoded_keys (l : list (bytes * bytes)) :
  (forall kv, In kv l -> exists s, decode strict (fst kv) = Ok s) ->
  NoDup (map fst l) ->
  NoDup (map fst (map decoded l)).
Proof.
  induction l as [|kv l IH]; intros V ND; [constructor|].
  cbn [map] in *. inversion ND as [|? ? NI ND']; subst.
  constructor.
  - intros I. rewrite map_map in I. apply in_map_iff in I as (kv' & E & I).
    destruct (V kv (or_introl eq_refl)) as [s D].
    destruct (V kv' (or_intror I)) as [s' D'].
    unfold decoded in E. cbn [fst] in E.
    apply (text_injective _ _ _ _ D' D) in E.
    apply NI. rewrite <- E. apply in_map, I.
  - apply IH; [intros kv' I; apply V; right; exact I | exact ND'].
Qed.

Lemma NoDup_keys_functional {V} (kvs : list (str * V)) :
  NoDup (map fst kvs) -> functional kvs.
Proof.
  induction kvs as [|[k v] kvs IH]; intros ND k' v1 v2 I1 I2; [destruct I1|].
  cbn [map fst] in ND. inversion ND as [|? ? NI ND']; subst.
  destruct I1 as [E1|I1], I2 as [E2|I2].
  - congruence.
  - exfalso. apply NI. apply (in_map fst) in I2. cbn [fst] in I2. congruence.
  - exfalso. apply NI. apply (in_map fst) in I1. cbn [fst] in I1. congruence.
  - apply (IH ND' k'); assumption.
Qed.

(** X4.  Every entry of the result of [get_all_transactions] is the decoded
    form of a scanned entry, and a side of it that is valid UTF-8 is
    recovered by encoding the returned string. *)
Theorem valid_utf8_is_recovered
        (connect : ImmuDBReader -> outcome ImmudbClient)
        (self : ImmuDBReader) (c : ImmudbClient) (result : TransactionSet) :
  ensure_client connect self = Ok c ->
  get_all_transactions connect self = Ok result ->
  forall k v,
    dict_get k result = Some v ->
    exists key_bytes value_bytes,
      In (key_bytes, value_bytes) (normalized c (scanned c []))
      /\ k = text key_bytes /\ v = text value_bytes
      /\ (forall s, decode strict key_bytes = Ok s -> encode k = Ok key_bytes)
      /\ (forall s, decode strict value_bytes = Ok s -> encode v = Ok value_bytes).
Proof.
  intros S H k v G. rewrite (get_all_transactions_eq connect self c S) in H.
  injection H as <-. apply dict_get_assign_In in G.
  apply in_map_iff in G as ([kb vb] & E & I). injection E as <- <-.
  exists kb, vb. repeat split; [exact I | |].
  - intros s D. cbn [fst]. unfold text.
    rewrite (decode_strict_replace _ _ D). apply encode_decoded, D.
  - intros s D. cbn [snd]. unfold text.
    rewrite (decode_strict_replace _ _ D). apply encode_decoded, D.
Qed.

(** On the sample ledger. *)
Lemma valid_utf8_is_recovered_witness :
  exists key_bytes value_bytes,
    In (key_bytes, value_bytes) (normalized ledger (scanned ledger []))
    /\ lit "log:9" = text key_bytes /\ lit "x" = text value_bytes
    /\ (forall s, decode strict key_bytes = Ok s -> encode (lit "log:9") = Ok key_bytes)
    /\ (forall s, decode strict value_bytes = Ok s -> encode (lit "x") = Ok value_bytes).
Proof.
  apply (valid_utf8_is_recovered unreachable (reader_of ledger) ledger
           [(lit "block:1", lit "abc"); (lit "block:22", lit "abcdef");
            (lit "log:9", lit "x")] eq_refl eq_refl).
  reflexivity.
Defined.

(** X5.  When the scanned raw keys are valid UTF-8 and pairwise distinct,
    nothing is overwritten: the result of [get_all_transactions] has one
    entry per scanned entry and maps every decoded key to its decoded
    value, and the results of the prefix and suffix searches are
    sub-mappings of it whenever the prefix scan yields only entries of the
    full scan. *)
Theorem valid_distinct_keys_lose_nothing
        (connect : ImmuDBReader -> outcome ImmudbClient)
        (self : ImmuDBReader) (c : ImmudbClient) :
  ensure_client connect self = Ok c ->
  let seen := normalized c (scanned c []) in
  (forall kv, In kv seen -> exists s, decode strict (fst kv) = Ok s) ->
  NoDup (map fst seen) ->
  exists all,
    get_all_transactions connect self = Ok all
    /\ length all = length seen
    /\ (forall key_bytes value_bytes,
          In (key_bytes, value_bytes) seen ->
          dict_get (text key_bytes) all = Some (text value_bytes))
    /\ (forall suffix by_suffix,
          get_by_suffix connect self suffix = Ok by_suffix ->
          submap by_suffix all)
    /\ (forall prefix pfx by_prefix,
          encode prefix = Ok pfx ->
          incl (normalized c (scanned c pfx)) seen ->
          get_by_prefix connect self prefix = Ok by_prefix ->
          submap by_prefix all).
Proof.
  intros S seen V ND.
  pose proof (NoDup_decoded_keys seen V ND) as NDk.
  pose proof (NoDup_keys_functional _ NDk) as F.
  rewrite (get_all_transactions_eq connect self c S). fold seen.
  eexists. split; [reflexivity|]. split; [|split; [|split]].
  - rewrite length_assign_fresh; [rewrite length_map; simpl; lia | exact NDk |].
    intros k _ [].
  - intros kb vb I. apply dict_get_assign_functional; [exact F|].
    apply (in_map decoded) in I. exact I.
  - intros suffix by_suffix H.
    destruct (encode suffix) as [sfx|ex] eqn:E;
      [|unfold get_by_suffix in H; rewrite S in H; simpl in H; rewrite E in H;
        discriminate H].
    rewrite (get_by_suffix_eq connect self c S suffix sfx E) in H.
    injection H as <-. apply assign_incl_submap; [|exact F].
    intros kv I. apply in_map_iff in I as (raw & <- & I).
    apply in_map. apply filter_In in I. tauto.
  - intros prefix pfx by_prefix E Inc H.
    rewrite (get_by_prefix_eq connect self c S prefix pfx E) in H.
    injection H as <-. apply assign_incl_submap; [|exact F].
    intros kv I. apply filter_In in I as [I _].
    apply in_map_iff in I as (raw & <- & I). apply in_map, Inc, I.
Qed.

(** On the sample ledger. *)
Lemma valid_distinct_keys_lose_nothing_witness :
  exists all,
    get_all_transactions unreachable (reader_of ledger) = Ok all
    /\ length all = 3%nat.
Proof.
  destruct (valid_distinct_keys_lose_nothing unreachable (reader_of ledger) ledger
              eq_refl) as (all & H & L & _).
  - intros kv I. vm_compute in I.
    destruct I as [<-|[<-|[<-|[]]]]; eexists; vm_compute; reflexivity.
  - vm_compute. repeat constructor; simpl; intuition discriminate.
  - exists all. split; [exact H | exact L].
Defined.

(** ** The state summary *)

Lemma hexdigit_injective (n m : N) :
  n < 16 -> m < 16 -> hexdigit n = hexdigit m -> n = m.
Proof.
  unfold hexdigit. intros Ln Lm.
  destruct (n <? 10) eqn:En, (m <? 10) eqn:Em; props; lia.
Qed.

Lemma hexdigit_range (n : N) :
  n < 16 -> 48 <= hexdigit n <= 57 \/ 97 <= hexdigit n <= 102.
Proof. unfold hexdigit. intros L. destruct (n <? 10) eqn:E; props; lia. Qed.

Lemma hex_nibbles (x : byte) :
  N.shiftr (b2n x) 4 = b2n x / 16 /\ N.land (b2n x) 15 = b2n x mod 16.
Proof. split; [apply N.shiftr_div_pow2 | apply (N.land_ones _ 4)]. Qed.

Lemma hex_injective (b1 b2 : bytes) : hex b1 = hex b2 -> b1 = b2.
Proof.
  revert b2; induction b1 as [|x b1 IH]; intros [|y b2]; try discriminate;
    [reflexivity|].
  unfold hex. cbn [flat_map app]. fold (hex b1) (hex b2).
  destruct (hex_nibbles x) as [-> ->]. destruct (hex_nibbles y) as [-> ->].
  intros E. 
  assert (hexdigit (b2n x / 16) = hexdigit (b2n y / 16)
          /\ hexdigit (b2n x mod 16) = hexdigit (b2n y mod 16)
          /\ hex b1 = hex b2) as (E1 & E2 & E3).
  { repeat split; congruence. }
  pose proof (b2n_bound x). pose proof (b2n_bound y).
  apply hexdigit_injective in E1; [|dlia|dlia].
  apply hexdigit_injective in E2; [|dlia|dlia].
  f_equal; [|apply IH, E3].
  rewrite <- (n2b_b2n x), <- (n2b_b2n y). f_equal. dlia.
Qed.

Lemma hex_shape (b : bytes) :
  length (hex b) = (2 * length b)%nat
  /\ Forall (fun ch => 48 <= ch <= 57 \/ 97 <= ch <= 102) (hex b).
Proof.
  induction b as [|x b [IHl IHf]]; [split; [reflexivity | constructor]|].
  unfold hex. cbn [flat_map app length]. fold (hex b).
  destruct (hex_nibbles x) as [-> ->]. pose proof (b2n_bound x).
  split; [lia|].
  constructor; [apply hexdigit_range; dlia|].
  constructor; [apply hexdigit_range; dlia | exact IHf].
Qed.

(** X6.  When the state query answers, the summary holds the transaction id
    and the hash as lowercase hexadecimal digits, two per byte; no other
    hash gives the same string. *)
Theorem merkle_root_identifies_the_state
        (connect : ImmuDBReader -> outcome ImmudbClient)
        (self : ImmuDBReader) (c : ImmudbClient) (st : state) :
  ensure_client connect self = Ok c ->
  currentState c = Ok st ->
  exists root,
    get_merkle_root connect self
    = Ok {| txId := Some (state_txId st); merkleRoot := Some root |}
    /\ length root = (2 * length (state_txHash st))%nat
    /\ Forall (fun ch => 48 <= ch <= 57 \/ 97 <= ch <= 102) root
    /\ (forall hash, hex hash = root -> hash = state_txHash st).
Proof.
  intros S Q. exists (hex (state_txHash st)).
  split; [unfold get_merkle_root; rewrite S; simpl; rewrite Q; reflexivity|].
  destruct (hex_shape (state_txHash st)) as [L F].
  split; [exact L|]. split; [exact F|]. intros hash E. apply hex_injective, E.
Qed.

(** On the sample session with the hash 00 ff 1a. *)
Lemma merkle_root_identifies_the_state_witness :
  exists root,
    get_merkle_root unreachable (reader_of stamped)
    = Ok {| txId := Some 7%Z; merkleRoot := Some root |}
    /\ root = lit "00ff1a".
Proof.
  destruct (merkle_root_identifies_the_state unreachable (reader_of stamped) stamped
              {| state_txId := 7; state_txHash := [x00; xff; x1a] |}
              eq_refl eq_refl) as (root & H & _).
  exists root. split; [exact H|].
  vm_compute in H. injection H as <-. reflexivity.
Defined.

End ReaderProperties.

(* ================================================================== *)
(** * Further properties of the aggregator *)
(* ================================================================== *)

Module AggregatorProperties.
Import Py App View Samples PyFacts AppFacts.

(** ** The largest value *)

Lemma max_value_len_bound (transactions : dict str) (k v : str) :
  In (k, v) transactions -> (length v <= max_value_len transactions)%nat.
Proof.
  induction transactions as [|[k0 v0] l IH]; [intros []|].
  rewrite max_value_len_cons. intros [[= -> ->]|I]; [lia|].
  specialize (IH I). lia.
Qed.

Lemma sum_from (l : list nat) (a : nat) :
  fold_left Nat.add l a = (a + fold_left Nat.add l 0)%nat.
Proof.
  revert a; induction l as [|x l IH]; intros a; simpl; [lia|].
  rewrite (IH (a + x)%nat), (IH x). lia.
Qed.

Lemma sum_bound (l : list nat) (m : nat) :
  Forall (fun x => x <= m)%nat l -> (sum l <= length l * m)%nat.
Proof.
  unfold sum. induction 1 as [|x l Hx F IH]; simpl; [lia|].
  rewrite sum_from. lia.
Qed.

(** X7.  The size reported for the largest value is the greatest value length:
    no value is longer, the key reported with a positive size has a value
    of that length, and the total of the value lengths is at most the
    number of entries times that size. *)
Theorem largest_value_is_maximum (transactions : dict str) :
  let stats := get_transactions_stats transactions in
  let reported := largest_value stats in
  lv_size reported = max_value_len transactions
  /\ (forall k v, In (k, v) transactions -> (length v <= lv_size reported)%nat)
  /\ ((0 < lv_size reported)%nat ->
      exists v, In (lv_key reported, v) transactions
                /\ length v = lv_size reported)
  /\ (fst (avg_value_length stats)
      <= snd (avg_value_length stats) * lv_size reported)%nat.
Proof.
  intros stats reported. unfold reported, stats. rewrite stats_largest.
  unfold find_largest, items.
  destruct (largest_fold transactions {| lv_key := []; lv_size := 0 |}) as [Keep New].
  assert (lv_size (fold_left larger transactions {| lv_key := []; lv_size := 0 |})
          = max_value_len transactions
          /\ ((0 < max_value_len transactions)%nat ->
              exists v, In (lv_key (fold_left larger transactions
                                      {| lv_key := []; lv_size := 0 |}), v)
                           transactions
                        /\ length v = max_value_len transactions)) as [Size Key].
  { destruct (Nat.eq_dec (max_value_len transactions) 0) as [Z|NZ].
    - rewrite Keep by (simpl; lia). simpl. split; [lia | intros; lia].
    - destruct New as (front & k & v & rest & E & Lv & _ & R); [simpl; lia|].
      rewrite R. simpl. split; [reflexivity|]. intros _. exists v.
      split; [rewrite E; apply in_elt | exact Lv]. }
  rewrite Size. split; [reflexivity|]. split; [|split].
  - intros k v I. apply (max_value_len_bound _ k v I).
  - exact Key.
  - destruct transactions as [|kv l]; [simpl; lia|].
    cbn [get_transactions_stats avg_value_length fst snd].
    rewrite length_map. unfold values. rewrite map_map.
    eapply Nat.le_trans; [apply (sum_bound _ (max_value_len (kv :: l)))|].
    + apply Forall_forall. intros x I. apply in_map_iff in I as ([k v] & <- & I).
      apply (max_value_len_bound _ k v I).
    + rewrite !length_map. apply Nat.le_refl.
Qed.

(** ** The common prefixes *)

Lemma slice_is (k p : str) (a : nat) :
  (a <= length k)%nat ->
  (slice_to k a = p <-> length p = a /\ startswith k p = true).
Proof.
  intros L. unfold slice_to. split.
  - intros <-. split; [apply firstn_length_le, L|].
    apply startswith_spec. exists (skipn a k). symmetry; apply firstn_skipn.
  - intros [<- S]. apply startswith_spec in S as [t ->].
    rewrite firstn_app, Nat.sub_diag, firstn_all. simpl. apply app_nil_r.
Qed.

Lemma occurrences_slices (k p : str) (n a : nat) :
  (a + n <= length k + 1)%nat ->
  occurrences p (map (slice_to k) (seq a n))
  = if (a <=? length p)%nat && (length p <? a + n)%nat && startswith k p
    then 1%nat else 0%nat.
Proof.
  revert a; induction n as [|n IH]; intros a B; cbn [seq map occurrences].
  - destruct (Nat.leb_spec a (length p)), (Nat.ltb_spec (length p) (a + 0));
      cbn [andb]; try reflexivity; lia.
  - rewrite IH by lia.
    destruct (str_eqb (slice_to k a) p) eqn:E.
    + apply str_eqb_eq in E. apply slice_is in E as [Lp Sw]; [|lia].
      rewrite Sw, !andb_true_r.
      destruct (Nat.leb_spec (S a) (length p)), (Nat.ltb_spec (length p) (S a + n)),
               (Nat.leb_spec a (length p)), (Nat.ltb_spec (length p) (a + S n));
        cbn [andb]; try reflexivity; lia.
    + apply str_eqb_neq in E.
      destruct (startswith k p) eqn:Sw; [|rewrite !andb_false_r; reflexivity].
      rewrite !andb_true_r.
      assert (length p <> a) as Np.
      { intros Lp. apply E. apply slice_is; [lia | auto]. }
      destruct (Nat.leb_spec (S a) (length p)), (Nat.ltb_spec (length p) (S a + n)),
               (Nat.leb_spec a (length p)), (Nat.ltb_spec (length p) (a + S n));
        cbn [andb]; try reflexivity; lia.
Qed.

(** A key yields a prefix at most once: when the prefix has 1 to 4
    characters, is shorter than the key and starts it. *)
Lemma occurrences_candidates (k p : str) :
  occurrences p (candidates k)
  = if (1 <=? length p)%nat && (length p <=? 4)%nat
       && (length p <? length k)%nat && startswith k p
    then 1%nat else 0%nat.
Proof.
  unfold candidates, range. rewrite occurrences_slices by lia.
  destruct (startswith k p); [|rewrite !andb_false_r; reflexivity].
  rewrite !andb_true_r.
  destruct (1 <=? length p)%nat eqn:E1; [|reflexivity]. cbn [andb].
  destruct (Nat.ltb_spec (length p) (1 + (Nat.min 5 (length k) - 1))),
           (Nat.leb_spec (length p) 4), (Nat.ltb_spec (length p) (length k));
    cbn [andb]; try reflexivity; apply Nat.leb_le in E1; lia.
Qed.

Lemma occurrences_discovery (ks : list str) (p : str) :
  (1 <= length p <= 4)%nat ->
  occurrences p (flat_map candidates ks)
  = length (filter (fun k => startswith k p && (length p <? length k)%nat) ks).
Proof.
  intros [L1 L4]. induction ks as [|k ks IH]; [reflexivity|].
  cbn [flat_map filter]. rewrite occurrences_app, occurrences_candidates, IH.
  replace (1 <=? length p)%nat with true by (symmetry; apply Nat.leb_le; lia).
  replace (length p <=? 4)%nat with true by (symmetry; apply Nat.leb_le; lia).
  cbn [andb].
  destruct (startswith k p), (length p <? length k)%nat; reflexivity.
Qed.

Lemma listed_in_counts (transactions : dict str) (p : str) (f : nat) :
  In (p, f) (common_prefixes (get_transactions_stats transactions)) ->
  In (p, f) (items (find_prefixes transactions)).
Proof.
  rewrite stats_common. unfold top_prefixes, slice_to. intros I.
  apply in_firstn in I.
  apply (Permutation_in _ (Permutation_sym (sorted_reverse_perm snd _))) in I.
  exact I.
Qed.

(** X8.  The frequency listed with a prefix is the number of keys that start
    with the prefix and are longer than it; it is at least 1 and at most
    the number of entries, and the prefix has 1 to 4 characters. *)
Theorem prefix_frequency_counts_keys (transactions : dict str) (p : str) (f : nat) :
  In (p, f) (common_prefixes (get_transactions_stats transactions)) ->
  f = length (filter (fun k => startswith k p && (length p <? length k)%nat)
                     (keys transactions))
  /\ (1 <= length p <= 4)%nat
  /\ (1 <= f <= count (get_transactions_stats transactions))%nat.
Proof.
  intros I. apply listed_in_counts in I. unfold items in I.
  rewrite find_prefixes_discovery in I.
  assert (dict_get p (fold_left count_prefix (discovery transactions) []) = Some f) as G.
  { apply dict_get_In_NoDup; [apply NoDup_keys_tally; constructor | exact I]. }
  rewrite tally_count in G.
  destruct (occurrences p (discovery transactions) =? 0)%nat eqn:Z; [discriminate|].
  apply Nat.eqb_neq in Z. injection G as <-.
  assert (1 <= length p <= 4)%nat as Lp.
  { assert (In p (discovery transactions)) as Ip by (apply occurrences_pos; lia).
    unfold discovery in Ip. apply in_flat_map in Ip as (k & _ & Ip).
    assert (In (length p) (map (@length codepoint) (candidates k))) as Il
      by (apply in_map; exact Ip).
    rewrite candidates_lengths in Il. apply in_seq in Il. lia. }
  unfold discovery in *. rewrite (occurrences_discovery _ p Lp) in *.
  split; [reflexivity|]. split; [exact Lp|]. split; [lia|].
  eapply Nat.le_trans; [apply filter_length_le|].
  unfold keys. rewrite length_map.
  destruct transactions; simpl; lia.
Qed.

(** On the example TransactionSet of the specification: two keys extend
    "bl". *)
Lemma prefix_frequency_counts_keys_witness :
  (2 = length (filter (fun k => startswith k (lit "bl")
                                && (length (lit "bl") <? length k)%nat)
                      (keys blocks)))%nat.
Proof.
  apply (prefix_frequency_counts_keys blocks (lit "bl") 2).
  right; left; reflexivity.
Defined.

(** X9.  No prefix is listed twice. *)
Theorem listed_prefixes_are_distinct (transactions : dict str) :
  NoDup (map fst (common_prefixes (get_transactions_stats transactions))).
Proof.
  rewrite stats_common. unfold top_prefixes, slice_to.
  set (ranked := sorted (items (find_prefixes transactions)) snd true).
  assert (NoDup (map fst ranked)) as ND.
  { eapply Permutation_NoDup.
    - apply Permutation_map. apply sorted_reverse_perm.
    - unfold items. rewrite find_prefixes_discovery.
      apply (NoDup_keys_tally _ []). constructor. }
  rewrite <- (firstn_skipn 5 ranked), map_app in ND.
  apply NoDup_app_remove_r in ND. exact ND.
Qed.

(** X10.  The list of common prefixes is empty exactly when no key has more
    than one character. *)
Theorem no_common_prefix_iff_short_keys (transactions : dict str) :
  common_prefixes (get_transactions_stats transactions) = []
  <-> forall k, In k (keys transactions) -> (length k <= 1)%nat.
Proof.
  rewrite stats_common. unfold top_prefixes, slice_to.
  set (counts := find_prefixes transactions).
  assert (firstn 5 (sorted (items counts) snd true) = [] <-> counts = []) as ->.
  { pose proof (sorted_reverse_perm snd (items counts)) as P. unfold items in *.
    split.
    - intros E. destruct (sorted counts snd true) as [|x l] eqn:R.
      + apply Permutation_sym, Permutation_nil in P. exact P.
      + discriminate E.
    - intros ->. reflexivity. }
  unfold counts. rewrite find_prefixes_discovery.
  destruct (tally_keys (discovery transactions)) as [In_iff _].
  split.
  - intros E k Ik.
    destruct (le_lt_dec (length k) 1) as [L|L]; [exact L|]. exfalso.
    assert (In (slice_to k 1) (discovery transactions)) as I.
    { unfold discovery. apply in_flat_map. exists k. split; [exact Ik|].
      unfold candidates. apply in_map. unfold range. apply in_seq. lia. }
    apply In_iff in I. rewrite E in I. exact I.
  - intros H.
    destruct (fold_left count_prefix (discovery transactions) []) as [|[p f] l] eqn:E;
      [reflexivity|]. exfalso.
    assert (In p (discovery transactions)) as I
      by (apply In_iff; left; reflexivity).
    unfold discovery in I. apply in_flat_map in I as (k & Ik & Ip).
    assert (In (length p) (map (@length codepoint) (candidates k))) as Il
      by (apply in_map; exact Ip).
    rewrite candidates_lengths in Il. apply in_seq in Il.
    specialize (H k Ik). lia.
Qed.

End AggregatorProperties.

(* ================================================================== *)
(** * Properties of connect and of the module-level helpers *)
(* ================================================================== *)

Module HelperProperties.
Import Py PyText Ops OpsHelpers View Samples LibrarySamples.
Import PyFacts OpsFacts CodecFacts TextFacts HelperFacts.

(** ** The URL *)

(** X11.  Without a scheme, [connect] takes a URL without a colon as the host
    and uses port 3322; with one colon, the host stands before it and the
    port, read by [int], after it.  An exception of [int] is raised with
    the reader as it was. *)
Theorem connect_parses_host_and_port
        (int : str -> outcome Z) (lib : library) (self : ImmuDBReader) :
  contains (url self) (lit "://") = false ->
  (~ In 58 (url self) ->
   connect int lib self = open_session lib self (url self) 3322
   /\ address (url self) 3322 = url self ++ lit ":3322")
  /\ (forall host port,
        url self = host ++ lit ":" ++ port -> ~ In 58 host -> ~ In 58 port ->
        connect int lib self
        = match int port with
          | Ok n => open_session lib self host n
          | Raise e => (self, Raise e)
          end).
Proof.
  intros NS. unfold connect. rewrite (strip_scheme_absent self NS). split.
  - intros NI. rewrite host_port_without_colon by exact NI.
    split; reflexivity.
  - intros host port E Nh Np. rewrite E, host_port_one_colon by assumption.
    destruct (int port); reflexivity.
Qed.

(** The sample library is reached at "localhost:3322". *)
Lemma connect_parses_host_and_port_witness :
  snd (connect decimal office (new_reader (lit "localhost:3322") (lit "defaultdb")))
  = Ok ledger.
Proof.
  pose proof (connect_parses_host_and_port decimal office
                (new_reader (lit "localhost:3322") (lit "defaultdb")) eq_refl)
    as [_ P].
  rewrite (P (lit "localhost") (lit "3322") eq_refl).
  - reflexivity.
  - simpl. intuition discriminate.
  - simpl. intuition discriminate.
Defined.

(** X12.  A URL without a scheme and with two colons or more cannot be unpacked
    into host and port: [connect] raises ValueError, without a call of the
    library and with the reader as it was. *)
Theorem connect_rejects_two_colons
        (int : str -> outcome Z) (lib : library) (self : ImmuDBReader) :
  contains (url self) (lit "://") = false ->
  (2 <= length (filter (N.eqb 58) (url self)))%nat ->
  connect int lib self = (self, Raise ValueError).
Proof.
  intros NS L. unfold connect.
  rewrite (strip_scheme_absent self NS), host_port_more_colons by exact L.
  reflexivity.
Qed.

(** An IPv6 address with a port. *)
Lemma connect_rejects_two_colons_witness :
  snd (connect decimal office (new_reader (lit "[::1]:3322") (lit "defaultdb")))
  = Raise ValueError.
Proof.
  rewrite (connect_rejects_two_colons decimal office
             (new_reader (lit "[::1]:3322") (lit "defaultdb")) eq_refl).
  - reflexivity.
  - simpl. lia.
Defined.

(** X13.  A scheme before "://" is dropped: [connect] stores the rest as the
    URL of the reader and goes on as it does for the rest, and so do the
    helpers that build a reader from the URL. *)
Theorem scheme_is_ignored
        (int : str -> outcome Z) (lib : library)
        (scheme rest db_name : str) :
  ~ In 58 scheme -> contains rest (lit "://") = false ->
  let address := scheme ++ lit "://" ++ rest in
  (forall c,
     connect int lib {| url := address; db_name := db_name; client := c |}
     = connect int lib {| url := rest; db_name := db_name; client := c |}
     /\ url (fst (connect int lib
                    {| url := address; db_name := db_name; client := c |})) = rest)
  /\ (forall prefix suffix,
        read_transactions int lib address db_name prefix suffix
        = read_transactions int lib rest db_name prefix suffix)
  /\ get_merkle_root int lib address db_name = get_merkle_root int lib rest db_name.
Proof.
  intros NI NS address.
  assert (forall c,
     connect int lib {| url := address; db_name := db_name; client := c |}
     = connect int lib {| url := rest; db_name := db_name; client := c |}) as E.
  { intros c. unfold connect.
    rewrite (strip_scheme_present
               {| url := address; db_name := db_name; client := c |}
               scheme rest eq_refl NI NS).
    rewrite (strip_scheme_absent {| url := rest; db_name := db_name; client := c |} NS).
    reflexivity. }
  split; [|split].
  - intros c. split; [apply E|]. rewrite E. unfold connect.
    rewrite (strip_scheme_absent {| url := rest; db_name := db_name; client := c |} NS).
    cbn [url]. destruct (host_port int rest) as [[host port]|e]; [|reflexivity].
    unfold open_session.
    destruct (ImmudbClient_new lib (OpsHelpers.address host port)) as [c0|e];
      [|reflexivity].
    destruct (login lib c0 (lit "immudb") (lit "immudb")) as [c1 [e|]];
      [reflexivity|].
    cbn [Ops.db_name].
    destruct (useDatabase lib c1 db_name) as [c2 [e|]]; reflexivity.
  - intros prefix suffix. unfold read_transactions, new_reader. rewrite E.
    reflexivity.
  - unfold get_merkle_root, new_reader. rewrite E. reflexivity.
Qed.

(** "http://localhost:3322" reaches the sample library. *)
Lemma scheme_is_ignored_witness :
  read_transactions decimal office (lit "http://localhost:3322") (lit "defaultdb")
    None None
  = Ok [(lit "block:1", lit "abc"); (lit "block:22", lit "abcdef");
        (lit "log:9", lit "x")].
Proof.
  pose proof (scheme_is_ignored decimal office (lit "http") (lit "localhost:3322")
                (lit "defaultdb")) as P.
  destruct P as (_ & P & _).
  - simpl. intuition discriminate.
  - reflexivity.
  - transitivity (read_transactions decimal office (lit "localhost:3322")
                    (lit "defaultdb") None None);
      [exact (P None None) | reflexivity].
Defined.

(** ** A connection that fails half-way *)

(** X14.  When the client object was created and its login raises, [connect]
    raises that exception, but the reader keeps the client: a later call
    of a method on this reader does not connect again, it uses the client
    that never logged in. *)
Theorem failed_login_keeps_the_client
        (int : str -> outcome Z) (lib : library) (self self1 : ImmuDBReader)
        (host : str) (port : Z) (c0 c1 : ImmudbClient) (e : exn) :
  strip_scheme self = (self1, Ok tt) ->
  host_port int (url self1) = Ok (host, port) ->
  ImmudbClient_new lib (address host port) = Ok c0 ->
  login lib c0 (lit "immudb") (lit "immudb") = (c1, Some e) ->
  let reader := fst (connect int lib self) in
  snd (connect int lib self) = Raise e
  /\ client reader = Some c1
  /\ (forall again,
        get_all_transactions again reader
        = Ok (assign (map decoded (normalized c1 (scanned c1 []))) []))
  /\ (forall again, exists summary, Ops.get_merkle_root again reader = Ok summary).
Proof.
  intros St Hp New Login.
  assert (connect int lib self = (with_client self1 c1, Raise e)) as E.
  { unfold connect. rewrite St, Hp. unfold open_session. rewrite New, Login.
    reflexivity. }
  rewrite E. cbn [fst snd]. split; [reflexivity|]. split; [reflexivity|]. split.
  - intros again. apply get_all_transactions_eq. reflexivity.
  - intros again. unfold Ops.get_merkle_root. cbn [ensure_client with_client client bind].
    destruct (currentState c1) as [st|ex]; eexists; reflexivity.
Qed.

(** With the library whose login is refused, the reader still lists the
    ledger afterwards. *)
Lemma failed_login_keeps_the_client_witness :
  snd (connect decimal locked (new_reader (lit "localhost:3322") (lit "defaultdb")))
  = Raise (RpcError "invalid credentials")
  /\ get_all_transactions unreachable
       (fst (connect decimal locked
               (new_reader (lit "localhost:3322") (lit "defaultdb"))))
     = Ok [(lit "block:1", lit "abc"); (lit "block:22", lit "abcdef");
           (lit "log:9", lit "x")].
Proof.
  destruct (failed_login_keeps_the_client decimal locked
              (new_reader (lit "localhost:3322") (lit "defaultdb"))
              (new_reader (lit "localhost:3322") (lit "defaultdb"))
              (lit "localhost") 3322 ledger ledger (RpcError "invalid credentials")
              eq_refl eq_refl eq_refl eq_refl) as (R & _ & A & _).
  split; [exact R|]. rewrite (A unreachable). reflexivity.
Defined.

(** ** The helpers *)

(** X15.  [read_transactions] applies one filter.  With a non-empty
    prefix it returns what [get_by_prefix] returns on the connected
    reader, the entries of the prefix scan whose decoded key starts with
    the prefix; a suffix given besides is ignored, so a returned key need
    not end with it.  Otherwise, with a non-empty suffix, it returns what
    [get_by_suffix] returns, the entries of the full scan whose raw key
    ends with the bytes of the suffix.  With neither, it returns what
    [get_all_transactions] returns. *)
Theorem read_transactions_applies_one_filter
        (int : str -> outcome Z) (lib : library) (url db_name : str)
        (prefix suffix : option str) (result : TransactionSet) :
  read_transactions int lib url db_name prefix suffix = Ok result ->
  exists reader c,
    connect int lib (new_reader url db_name) = (reader, Ok c)
    /\ (truthy prefix = true ->
        (forall other, read_transactions int lib url db_name prefix other = Ok result)
        /\ (forall again, get_by_prefix again reader (given prefix) = Ok result)
        /\ (exists pfx,
              encode (given prefix) = Ok pfx
              /\ result
                 = assign (filter (fun kv => startswith (fst kv) (given prefix))
                                  (map decoded (normalized c (scanned c pfx))))
                          [])
        /\ (forall k, In k (keys result) -> exists rest, k = given prefix ++ rest))
    /\ (truthy prefix = false -> truthy suffix = true ->
        read_transactions int lib url db_name None suffix = Ok result
        /\ (forall again, get_by_suffix again reader (given suffix) = Ok result)
        /\ (exists sfx,
              encode (given suffix) = Ok sfx
              /\ result
                 = assign (map decoded
                             (filter (fun kv => endswith (fst kv) sfx)
                                     (normalized c (scanned c []))))
                          [])
        /\ (forall k, In k (keys result) -> exists front, k = front ++ given suffix))
    /\ (truthy prefix = false -> truthy suffix = false ->
        read_transactions int lib url db_name None None = Ok result
        /\ (forall again, get_all_transactions again reader = Ok result)
        /\ result = assign (map decoded (normalized c (scanned c []))) []).
Proof.
  unfold read_transactions.
  destruct (connect int lib (new_reader url db_name)) as [reader [c|e]] eqn:C;
    [|discriminate].
  apply connect_client in C.
  pose proof (fun again => ensure_client_connected again reader c C) as S.
  intros H. exists reader, c. split; [reflexivity|]. split; [|split].
  - intros T. rewrite T in H.
    destruct (encode (given prefix)) as [pfx|ex] eqn:E;
      [|unfold get_by_prefix in H; rewrite S in H; simpl in H; rewrite E in H;
        discriminate H].
    rewrite (get_by_prefix_eq _ reader c (S _) _ pfx E) in H. injection H as <-.
    split; [|split; [|split]].
    + intros other. rewrite T. apply (get_by_prefix_eq _ reader c (S _) _ pfx E).
    + intros again. apply (get_by_prefix_eq _ reader c (S _) _ pfx E).
    + exists pfx. split; reflexivity.
    + intros k I. apply in_keys_assign in I as [I|[]].
      apply in_map_iff in I as (kv & <- & I). apply filter_In in I as [_ I].
      apply startswith_spec, I.
  - intros T1 T2. rewrite T1, T2 in H.
    destruct (encode (given suffix)) as [sfx|ex] eqn:E;
      [|unfold get_by_suffix in H; rewrite S in H; simpl in H; rewrite E in H;
        discriminate H].
    rewrite (get_by_suffix_eq _ reader c (S _) _ sfx E) in H. injection H as <-.
    split; [|split; [|split]].
    + cbn [truthy]. rewrite T2. apply (get_by_suffix_eq _ reader c (S _) _ sfx E).
    + intros again. apply (get_by_suffix_eq _ reader c (S _) _ sfx E).
    + exists sfx. split; reflexivity.
    + intros k I. apply in_keys_assign in I as [I|[]].
      rewrite map_map in I. apply in_map_iff in I as (kv & <- & I).
      apply filter_In in I as [_ I]. apply endswith_spec in I as [u Eu].
      exists (text u). unfold decoded. cbn [fst]. rewrite Eu.
      apply (text_app_encoded u sfx (given suffix) E).
  - intros T1 T2. rewrite T1, T2 in H.
    rewrite (get_all_transactions_eq _ reader c (S _)) in H. injection H as <-.
    split; [|split].
    + cbn [truthy]. apply (get_all_transactions_eq _ reader c (S _)).
    + intros again. apply (get_all_transactions_eq _ reader c (S _)).
    + reflexivity.
Qed.

(** With the prefix "log" and the suffix "1" the sample library gives the
    entry of "log:9", which is what the prefix alone gives, though the
    key does not end with "1"; the suffix "1" alone gives "block:1". *)
Lemma read_transactions_applies_one_filter_witness :
  read_transactions decimal office (lit "localhost:3322") (lit "defaultdb")
    (Some (lit "log")) None
  = Ok [(lit "log:9", lit "x")]
  /\ read_transactions decimal office (lit "localhost:3322") (lit "defaultdb")
       None (Some (lit "1"))
     = Ok [(lit "block:1", lit "abc")].
Proof.
  destruct (read_transactions_applies_one_filter decimal office
              (lit "localhost:3322") (lit "defaultdb")
              (Some (lit "log")) (Some (lit "1"))
              [(lit "log:9", lit "x")] eq_refl) as (reader & c & _ & P & _).
  destruct (P eq_refl) as (E & _).
  split; [exact (E None) | reflexivity].
Defined.

(** X16.  A helper raises what [connect] raises.  Once [connect] succeeded, the
    reader holds the session, no method connects again, the state summary
    is always returned, and so are the transactions when the filters have
    a UTF-8 encoding. *)
Theorem helpers_fail_only_at_connect
        (int : str -> outcome Z) (lib : library) (url db_name : str)
        (reader : ImmuDBReader) (session : outcome ImmudbClient) :
  connect int lib (new_reader url db_name) = (reader, session) ->
  match session with
  | Raise e =>
      (forall prefix suffix,
         read_transactions int lib url db_name prefix suffix = Raise e
         /\ get_transactions_as_json int lib url db_name prefix suffix = Raise e)
      /\ get_merkle_root int lib url db_name = Raise e
      /\ get_merkle_root_as_json int lib url db_name = Raise e
  | Ok c =>
      client reader = Some c
      /\ (forall again, get_merkle_root int lib url db_name
                        = Ops.get_merkle_root again reader)
      /\ (exists summary, get_merkle_root int lib url db_name = Ok summary)
      /\ (exists result, read_transactions int lib url db_name None None = Ok result)
      /\ (forall prefix suffix pfx sfx,
            encode (given prefix) = Ok pfx -> encode (given suffix) = Ok sfx ->
            exists result,
              read_transactions int lib url db_name prefix suffix = Ok result)
  end.
Proof.
  intros C. destruct session as [c|e].
  - pose proof (connect_client int lib _ _ _ C) as Cl.
    pose proof (fun again => ensure_client_connected again reader c Cl) as S.
    split; [exact Cl|]. split; [|split; [|split]].
    + intros again. unfold get_merkle_root. rewrite C.
      unfold Ops.get_merkle_root. rewrite !S. reflexivity.
    + unfold get_merkle_root. rewrite C. unfold Ops.get_merkle_root. rewrite S.
      cbn [bind]. destruct (currentState c); eexists; reflexivity.
    + unfold read_transactions. rewrite C. cbn [truthy].
      rewrite (get_all_transactions_eq _ reader c (S _)). eexists; reflexivity.
    + intros prefix suffix pfx sfx Ep Es. unfold read_transactions. rewrite C.
      destruct (truthy prefix); [|destruct (truthy suffix)].
      * rewrite (get_by_prefix_eq _ reader c (S _) _ pfx Ep). eexists; reflexivity.
      * rewrite (get_by_suffix_eq _ reader c (S _) _ sfx Es). eexists; reflexivity.
      * rewrite (get_all_transactions_eq _ reader c (S _)). eexists; reflexivity.
  - split; [|split].
    + intros prefix suffix. unfold get_transactions_as_json, read_transactions.
      rewrite C. split; reflexivity.
    + unfold get_merkle_root. rewrite C. reflexivity.
    + unfold get_merkle_root_as_json, get_merkle_root. rewrite C. reflexivity.
Qed.

(** The sample library does not answer at another address. *)
Lemma helpers_fail_only_at_connect_witness :
  get_merkle_root_as_json decimal office (lit "example.org") (lit "defaultdb")
  = Raise (RpcError "unreachable").
Proof.
  apply (helpers_fail_only_at_connect decimal office (lit "example.org")
           (lit "defaultdb") (new_reader (lit "example.org") (lit "defaultdb"))
           (Raise (RpcError "unreachable")) eq_refl).
Defined.

(** ** JSON *)

(** X17.  The text the two JSON helpers return is printable ASCII between a
    pair of braces, whatever the keys and values hold. *)
Theorem json_text_is_printable_ascii
        (int : str -> outcome Z) (lib : library) (url db_name : str) :
  (forall prefix suffix text,
     get_transactions_as_json int lib url db_name prefix suffix = Ok text ->
     Forall printable text /\ exists body, text = [123] ++ body ++ [125])
  /\ (forall text,
        get_merkle_root_as_json int lib url db_name = Ok text ->
        Forall printable text /\ exists body, text = [123] ++ body ++ [125]).
Proof.
  assert (forall body, Forall printable body -> Forall printable ([123] ++ body ++ [125]))
    as Braces.
  { intros body F. apply Forall_app. split; [repeat constructor; unfold printable; lia|].
    apply Forall_app. split; [exact F | repeat constructor; unfold printable; lia]. }
  split.
  - intros prefix suffix text. unfold get_transactions_as_json.
    destruct (read_transactions int lib url db_name prefix suffix) as [data|e];
      [|discriminate].
    cbn [bind]. intros [= <-]. unfold json_dumps. split; [|eexists; reflexivity].
    apply Braces, join_items_printable, Forall_forall.
    intros piece I. apply in_map_iff in I as (kv & <- & _).
    apply Forall_app. split; [apply json_string_printable|].
    apply Forall_app. split; [repeat constructor; unfold printable; lia|].
    apply json_string_printable.
  - intros text. unfold get_merkle_root_as_json.
    destruct (get_merkle_root int lib url db_name) as [data|e]; [|discriminate].
    cbn [bind]. intros [= <-]. unfold json_dumps_summary.
    assert (Forall printable (lit "null")) as Null
        by (repeat constructor; unfold printable; simpl; lia).
    split.
    + apply Forall_app; split; [repeat constructor; unfold printable; lia|].
      apply Forall_app; split; [apply json_string_printable|].
      apply Forall_app; split; [repeat constructor; unfold printable; lia|].
      apply Forall_app; split;
        [destruct (txId data); [apply str_of_int_printable | exact Null]|].
      apply Forall_app; split; [repeat constructor; unfold printable; lia|].
      apply Forall_app; split; [apply json_string_printable|].
      apply Forall_app; split; [repeat constructor; unfold printable; lia|].
      apply Forall_app; split;
        [destruct (merkleRoot data); [apply json_string_printable | exact Null]|].
      repeat constructor; unfold printable; lia.
    + exists (json_string (lit "txId") ++ [58; 32] ++ json_int (txId data)
              ++ [44; 32] ++ json_string (lit "merkleRoot") ++ [58; 32]
              ++ json_optional_string (merkleRoot data)).
      repeat rewrite <- app_assoc. reflexivity.
Qed.

End HelperProperties.
